(** * Roundtable: a shallow embedding of the discussion orchestrator

    The Python program is embedded function by function.  Python [int] is
    [Z], [str] is [string], the bytes of the text in UTF-8 (see [chr] and
    [code_points]), [os.environ] is a finite map from names to values,
    [Optional] is
    [option], [float] is a binary64 float, a call that may raise returns a
    [result].  Console output
    ([print], the [verbose] flag) is the one effect that is left out. *)

From stdpp Require Import gmap strings list pretty.
From Stdlib Require Import ZArith Lia Ascii PrimFloat.

Open Scope Z_scope.
Open Scope string_scope.
Open Scope list_scope.

(** ** Python values *)

Inductive exn : Type :=
| ValueError (msg : string)
| InvokeError.

Inductive result (A : Type) : Type :=
| Return (a : A)
| Raise (e : exn).
Arguments Return {A} a.
Arguments Raise {A} e.

(** [bool(s)] for an [Optional[str]]: [None] and the empty string are falsy. *)
Definition truthy (o : option string) : bool :=
  match o with
  | Some (String _ _) => true
  | _ => false
  end.

(** [a or b] where [b] is a [str]. *)
Definition or_str (a : option string) (b : string) : string :=
  match a with
  | Some (String c s) => String c s
  | _ => b
  end.

(** [a or b] where [b] may be [None]. *)
Definition or_opt (a b : option string) : option string :=
  if truthy a then a else b.

Definition newline : string := String "010" "".

(** [sep.join(parts)] *)
Fixpoint join (sep : string) (parts : list string) : string :=
  match parts with
  | [] => ""
  | [s] => s
  | s :: rest => s +:+ sep +:+ join sep rest
  end.

(** [c * n] for a one-character string. *)
Definition repeat_str (s : string) (n : nat) : string :=
  foldr String.append "" (replicate n s).

(** ** llm.py *)

Abbreviation environ := (gmap string string).

Definition getenv (env : environ) (key : string) : option string := env !! key.

Definition getenv_default (env : environ) (key dflt : string) : string :=
  default dflt (env !! key).

Module ChatOpenAI.
Record t : Type := mk {
  model : string;
  openai_api_key : string;
  openai_api_base : string;
  temperature : float;
  max_tokens : option Z;
  seed : option Z
}.
End ChatOpenAI.

Definition get_llm_client (env : environ)
    (model api_key base_url : option string) (temperature : float)
    (max_tokens seed : option Z) : result ChatOpenAI.t :=
  let model := or_str model (getenv_default env "DEFAULT_MODEL" "gpt-4o") in
  let api_key := or_opt api_key (getenv env "DEFAULT_API_KEY") in
  let base_url :=
    or_str base_url (getenv_default env "DEFAULT_BASE_URL" "https://api.openai.com/v1") in
  if negb (truthy api_key) then
    Raise (ValueError
      "API key not provided. Set DEFAULT_API_KEY in .env or pass api_key parameter.")
  else
    Return (ChatOpenAI.mk model (default "" api_key) base_url temperature
              (match max_tokens with Some 0 => None | m => m end)
              seed).

Module Config.
Record t : Type := mk {
  name : string;
  api_key : string;
  base_url : string;
  label : string
}.
End Config.

(** The [while True] loop of [get_participant_models].  [fuel] bounds the
    number of iterations; [None] is "still looping when the fuel ran out". *)
Fixpoint participants_loop (env : environ) (fuel : nat) (i : Z)
    (participants : list Config.t) : option (list Config.t) :=
  match fuel with
  | O => None
  | S fuel' =>
      let model := getenv env ("MODEL" +:+ pretty i) in
      let api_key := getenv env ("API_KEY" +:+ pretty i) in
      let base_url :=
        getenv_default env ("BASE_URL" +:+ pretty i) "https://api.openai.com/v1" in
      if negb (truthy model) || negb (truthy api_key) then Some participants
      else
        participants_loop env fuel' (i + 1)
          (participants ++
             [Config.mk (default "" model) (default "" api_key) base_url
                ("Participant " +:+ pretty i)])
  end.

Definition default_participant (env : environ) : list Config.t :=
  let default_model := getenv env "DEFAULT_MODEL" in
  let default_key := getenv env "DEFAULT_API_KEY" in
  let default_url :=
    getenv_default env "DEFAULT_BASE_URL" "https://api.openai.com/v1" in
  if truthy default_model && truthy default_key then
    [Config.mk (default "" default_model) (default "" default_key) default_url
       "Participant 1"]
  else [].

(** The environment has [size env] names, and the loop reads a fresh name at
    every turn, so [S (size env)] turns are enough
    (see [participants_loop_breaks]). *)
Definition get_participant_models (env : environ) : list Config.t :=
  match participants_loop env (S (size env)) 1 [] with
  | Some [] => default_participant env
  | Some participants => participants
  | None => []
  end.

Definition get_moderator_llm (env : environ)
    (model api_key base_url : option string) (temperature : float)
    : result ChatOpenAI.t :=
  let model := or_opt model (getenv env "MODERATOR_MODEL") in
  let api_key := or_opt api_key (getenv env "MODERATOR_API_KEY") in
  let base_url := or_opt base_url (getenv env "MODERATOR_BASE_URL") in
  if negb (truthy model) || negb (truthy api_key) then
    get_llm_client env
      (Some (getenv_default env "DEFAULT_MODEL" "gpt-4o"))
      (getenv env "DEFAULT_API_KEY")
      (Some (getenv_default env "DEFAULT_BASE_URL" "https://api.openai.com/v1"))
      temperature None None
  else
    get_llm_client env model api_key base_url temperature None None.

(** ** roundtable.py: data *)

Inductive message : Type :=
| HumanMessage (content : string)
| AIMessage (content : string)
| SystemMessage (content : string).

Module Tool.
Record t : Type := mk {
  name : string;
  description : string
}.
End Tool.

Module Participant.
Record t : Type := mk {
  name : string;
  label : string;
  llm : ChatOpenAI.t;
  contributions : list string
}.
End Participant.

(** The dict appended to [round_data["contributions"]]. *)
Module Contribution.
Record t : Type := mk {
  participant : string;
  model : string;
  text : string
}.
End Contribution.

(** The dict [round_data]. *)
Module Round.
Record t : Type := mk {
  round_number : Z;
  contributions : list Contribution.t
}.
End Round.

Module Discussion.
Record t : Type := mk {
  question : string;
  rounds : list Round.t;
  final_summary : option string
}.
End Discussion.

Module Roundtable.
Record t : Type := mk {
  max_rounds : Z;
  temperature : float;
  moderator_enabled : bool;
  tools_enabled : bool;
  participants : list Participant.t;
  moderator : option ChatOpenAI.t;
  tools : option (list Tool.t)
}.
End Roundtable.

(** ** The model service

    [llm.invoke(prompt)] is a call to a remote model.  Every call is written
    to a log, with the client, the prompt and the answer ([None] when the
    call raised), and with the place in the discussion it was made from:
    the round, the speaker and the context string built for the speaker,
    or the moderator.  The answer may depend on everything logged so far. *)

Inductive origin : Type :=
| Turn (round_num : Z) (speaker : string) (context : string)
| Summary.

Module Call.
Record t : Type := mk {
  source : origin;
  client : ChatOpenAI.t;
  prompt : list message;
  response : option string
}.
End Call.

Abbreviation service := (list Call.t -> ChatOpenAI.t -> list message -> option string).

(** ** roundtable.py: Roundtable *)

(** [Roundtable._initialize_participants] *)
Fixpoint initialize_loop (env : environ) (temperature : float)
    (configs : list Config.t) (participants : list Participant.t)
    : result (list Participant.t) :=
  match configs with
  | [] => Return participants
  | config :: configs' =>
      match get_llm_client env (Some (Config.name config))
              (Some (Config.api_key config)) (Some (Config.base_url config))
              temperature None None with
      | Raise e => Raise e
      | Return llm =>
          initialize_loop env temperature configs'
            (participants ++
               [Participant.mk (Config.name config) (Config.label config) llm []])
      end
  end.

Definition _initialize_participants (env : environ) (temperature : float)
    : result (list Participant.t) :=
  initialize_loop env temperature (get_participant_models env) [].

(** [Roundtable.__init__].  [available_tools] is what importing
    [AVAILABLE_TOOLS] from tools.py gives, [None] when the import raises.
    The constructor receives the call log and hands it back: it has no
    model service to call. *)
Definition __init__ (env : environ) (available_tools : option (list Tool.t))
    (max_rounds : Z) (temperature : float) (moderator_enabled tools_enabled : bool)
    (log : list Call.t) : result Roundtable.t * list Call.t :=
  match _initialize_participants env temperature with
  | Raise e => (Raise e, log)
  | Return participants =>
      match
        (if moderator_enabled
         then match get_moderator_llm env None None None 0x1.3333333333333p-2%float with
              | Return m => Return (Some m)
              | Raise e => Raise e
              end
         else Return None)
      with
      | Raise e => (Raise e, log)
      | Return moderator =>
          let tools := if tools_enabled then available_tools else None in
          match participants with
          | [] =>
              (Raise (ValueError
                 "No participants configured. Set MODEL1, API_KEY1, etc. in .env"),
               log)
          | _ =>
              (Return (Roundtable.mk max_rounds temperature moderator_enabled
                         tools_enabled participants moderator tools),
               log)
          end
      end
  end.

(** The two strings [_build_context] and [_generate_summary] put in their
    lists: [f"\n--- Round {round_num} ---"] and
    [f"\n{contrib['participant']}: {contrib['text']}"]. *)
Definition round_header (round_data : Round.t) : string :=
  newline +:+ "--- Round " +:+ pretty (Round.round_number round_data) +:+ " ---".

Definition contrib_line (contrib : Contribution.t) : string :=
  newline +:+ Contribution.participant contrib +:+ ": " +:+ Contribution.text contrib.

(** The inner loop of [_build_context]: the lines of the contributions of a
    round whose participant is not the current one. *)
Definition others_lines (label : string) (round_data : Round.t) : list string :=
  contrib_line <$>
    filter (λ contrib, Contribution.participant contrib ≠ label)
           (Round.contributions round_data).

Definition context_parts (discussion : Discussion.t)
    (current_participant : Participant.t) : list string :=
  let label := Participant.label current_participant in
  let context_parts :=
    concat ((λ round_data, round_header round_data :: others_lines label round_data)
              <$> Discussion.rounds discussion) in
  match last (Discussion.rounds discussion) with
  | Some latest_round =>
      if (0 <? Z.of_nat (length (Round.contributions latest_round)))%Z
      then context_parts ++ others_lines label latest_round
      else context_parts
  | None => context_parts
  end.

Definition _build_context (discussion : Discussion.t)
    (current_participant : Participant.t) : string :=
  match Discussion.rounds discussion with
  | [] => ""
  | _ => join newline (context_parts discussion current_participant)
  end.

Definition system_msg_base : string :=
  "You are a thoughtful participant in a roundtable discussion. " +:+
  "Your goal is to contribute meaningful insights, build on others' ideas, " +:+
  "and help the group reach a well-reasoned conclusion.".

Definition tools_desc (tools : list Tool.t) : string :=
  foldl (λ acc tool,
           acc +:+ "- " +:+ Tool.name tool +:+ ": " +:+ Tool.description tool
               +:+ newline)
        (newline +:+ newline +:+ "Available tools for research:" +:+ newline)
        tools.

Definition _create_participant_prompt (self : Roundtable.t)
    (question : string) (round_num : Z) (context : string) : list message :=
  let system_msg :=
    match Roundtable.tools self with
    | Some (tool :: tools) => system_msg_base +:+ tools_desc (tool :: tools)
    | _ => system_msg_base
    end in
  let user_msg :=
    if (round_num =? 1)%Z then
      "We're discussing: " +:+ question +:+ newline +:+ newline +:+
      "This is Round " +:+ pretty round_num +:+
      ". Please share your initial thoughts and insights. " +:+
      "Be specific, insightful, and concise (2-4 sentences)."
    else
      "We're discussing: " +:+ question +:+ newline +:+ newline +:+
      "This is Round " +:+ pretty round_num +:+
      ". Here's what others have said:" +:+ newline +:+
      context +:+ newline +:+ newline +:+
      "Please respond by:" +:+ newline +:+
      "1. Building on the strongest ideas" +:+ newline +:+
      "2. Adding new perspectives or addressing gaps" +:+ newline +:+
      "3. Helping move toward a conclusion" +:+ newline +:+ newline +:+
      "Keep it concise (2-4 sentences)." in
  [SystemMessage system_msg; HumanMessage user_msg].

Section Orchestrator.
Variable invoke : service.

(** The loop of [_conduct_round] over [self.participants].  [seen] are the
    participants already asked in this round, with their logs appended to;
    [todo] are those still to be asked.  When a call raises, the loop is
    left at once and the participants stay as they are at that point. *)
Fixpoint conduct_loop (self : Roundtable.t) (round_num : Z)
    (discussion : Discussion.t) (seen todo : list Participant.t)
    (contributions : list Contribution.t) (log : list Call.t)
    : result (list Contribution.t) * list Participant.t * list Call.t :=
  match todo with
  | [] => (Return contributions, seen, log)
  | participant :: todo' =>
      let context := _build_context discussion participant in
      let prompt :=
        _create_participant_prompt self (Discussion.question discussion)
          round_num context in
      let response := invoke log (Participant.llm participant) prompt in
      let log' :=
        log ++ [Call.mk (Turn round_num (Participant.label participant) context)
                  (Participant.llm participant) prompt response] in
      match response with
      | None => (Raise InvokeError, seen ++ participant :: todo', log')
      | Some contribution =>
          let participant' :=
            Participant.mk (Participant.name participant)
              (Participant.label participant) (Participant.llm participant)
              (Participant.contributions participant ++ [contribution]) in
          conduct_loop self round_num discussion (seen ++ [participant']) todo'
            (contributions ++
               [Contribution.mk (Participant.label participant)
                  (Participant.name participant) contribution])
            log'
      end
  end.

Definition with_participants (self : Roundtable.t)
    (participants : list Participant.t) : Roundtable.t :=
  Roundtable.mk (Roundtable.max_rounds self) (Roundtable.temperature self)
    (Roundtable.moderator_enabled self) (Roundtable.tools_enabled self)
    participants (Roundtable.moderator self) (Roundtable.tools self).

Definition _conduct_round (self : Roundtable.t) (round_num : Z)
    (discussion : Discussion.t) (log : list Call.t)
    : result Round.t * Roundtable.t * list Call.t :=
  match conduct_loop self round_num discussion []
          (Roundtable.participants self) [] log with
  | (Return contributions, participants, log') =>
      (Return (Round.mk round_num contributions),
       with_participants self participants, log')
  | (Raise e, participants, log') =>
      (Raise e, with_participants self participants, log')
  end.

Definition summary_system_msg : string :=
  "You are a skilled moderator synthesizing a roundtable discussion. " +:+
  "Your task is to create a clear, balanced summary that captures:" +:+ newline +:+
  "1. Key insights and agreements" +:+ newline +:+
  "2. Diverse perspectives" +:+ newline +:+
  "3. Practical conclusions or recommendations" +:+ newline +:+
  "Be concise but comprehensive.".

Definition _generate_summary (self : Roundtable.t) (discussion : Discussion.t)
    (log : list Call.t) : result string * list Call.t :=
  match Roundtable.moderator self with
  | None => (Return "", log)
  | Some moderator =>
      let all_contributions :=
        concat ((λ round_data,
                   round_header round_data
                     :: (contrib_line <$> Round.contributions round_data))
                  <$> Discussion.rounds discussion) in
      let contributions_text := join newline all_contributions in
      let prompt :=
        [SystemMessage summary_system_msg;
         HumanMessage
           ("Question discussed: " +:+ Discussion.question discussion +:+
            newline +:+ newline +:+
            "Discussion:" +:+ newline +:+ contributions_text +:+
            newline +:+ newline +:+
            "Please provide a final summary of this roundtable discussion.")] in
      let response := invoke log moderator prompt in
      let log' := log ++ [Call.mk Summary moderator prompt response] in
      match response with
      | None => (Raise InvokeError, log')
      | Some summary => (Return summary, log')
      end
  end.

(** The [for round_num in range(1, self.max_rounds + 1)] loop of [discuss]. *)
Fixpoint rounds_loop (self : Roundtable.t) (discussion : Discussion.t)
    (round_nums : list Z) (log : list Call.t)
    : result Discussion.t * Roundtable.t * list Call.t :=
  match round_nums with
  | [] => (Return discussion, self, log)
  | round_num :: round_nums' =>
      match _conduct_round self round_num discussion log with
      | (Raise e, self', log') => (Raise e, self', log')
      | (Return round_data, self', log') =>
          rounds_loop self'
            (Discussion.mk (Discussion.question discussion)
               (Discussion.rounds discussion ++ [round_data])
               (Discussion.final_summary discussion))
            round_nums' log'
      end
  end.

(** [range(1, n + 1)] *)
Definition range_from_1 (n : Z) : list Z := seqZ 1 n.

(** [Roundtable.discuss]: the outcome, the orchestrator as the call leaves
    it, and the call log. *)
Definition discuss (self : Roundtable.t) (question : string) (log : list Call.t)
    : result Discussion.t * Roundtable.t * list Call.t :=
  let discussion := Discussion.mk question [] None in
  match rounds_loop self discussion (range_from_1 (Roundtable.max_rounds self)) log with
  | (Raise e, self', log') => (Raise e, self', log')
  | (Return discussion, self', log') =>
      if Roundtable.moderator_enabled self' then
        match _generate_summary self' discussion log' with
        | (Raise e, log'') => (Raise e, self', log'')
        | (Return summary, log'') =>
            (Return (Discussion.mk (Discussion.question discussion)
                       (Discussion.rounds discussion) (Some summary)),
             self', log'')
        end
      else (Return discussion, self', log')
  end.

End Orchestrator.

(** ** The json module, as far as export_discussion uses it

    [json.dumps(obj, indent=2)] and [json.loads].  A dict is the list of its
    items in insertion order. *)

#[local] Unset Elimination Schemes.
Inductive json : Type :=
| JNull
| JBool (b : bool)
| JInt (n : Z)
| JFloat (literal : string)
| JString (s : string)
| JArray (items : list json)
| JObject (members : list (string * json)).
#[local] Set Elimination Schemes.

Definition quote : ascii := "034"%char.
Definition backslash : ascii := "092"%char.

(** *** The characters of a [str]

    A [str] is a sequence of code points from 0 to 0x10ffff, the surrogates
    0xd800 to 0xdfff among them.  It is held as its bytes in UTF-8, every
    code point on its own, so that a surrogate has the three bytes of its
    number: joining two [str] is joining their bytes, two [str] are equal
    when their bytes are, and one occurs in the other when its bytes do. *)

(** [chr(n)] *)
Definition chr (n : N) : string :=
  (if n <? 0x80 then String (ascii_of_N n) ""
   else if n <? 0x800 then
     String (ascii_of_N (0xc0 + n / 0x40))
       (String (ascii_of_N (0x80 + n mod 0x40)) "")
   else if n <? 0x10000 then
     String (ascii_of_N (0xe0 + n / 0x1000))
       (String (ascii_of_N (0x80 + (n / 0x40) mod 0x40))
          (String (ascii_of_N (0x80 + n mod 0x40)) ""))
   else
     String (ascii_of_N (0xf0 + n / 0x40000))
       (String (ascii_of_N (0x80 + (n / 0x1000) mod 0x40))
          (String (ascii_of_N (0x80 + (n / 0x40) mod 0x40))
             (String (ascii_of_N (0x80 + n mod 0x40)) ""))))%N.

(** [''.join(map(chr, l))] *)
Definition from_code_points (l : list N) : string :=
  foldr (λ n s, chr n +:+ s) "" l.

(** The six bits of a byte that continues a character. *)
Definition continuation (b : ascii) : option N :=
  let n := N_of_ascii b in
  if ((0x80 <=? n) && (n <? 0xc0))%N then Some (n - 0x80)%N else None.

(** [[ord(c) for c in s]].  A byte that begins no character of a [str]
    counts as a character of its own; no [str] has such a byte. *)
Fixpoint code_points (s : string) : list N :=
  match s with
  | "" => []
  | String b1 s1 =>
      let n1 := N_of_ascii b1 in
      if (n1 <? 0xc0)%N then n1 :: code_points s1
      else
        match s1 with
        | "" => n1 :: code_points s1
        | String b2 s2 =>
            match continuation b2 with
            | None => n1 :: code_points s1
            | Some c2 =>
                if (n1 <? 0xe0)%N
                then ((n1 - 0xc0) * 0x40 + c2)%N :: code_points s2
                else
                  match s2 with
                  | "" => n1 :: code_points s1
                  | String b3 s3 =>
                      match continuation b3 with
                      | None => n1 :: code_points s1
                      | Some c3 =>
                          if (n1 <? 0xf0)%N
                          then ((n1 - 0xe0) * 0x1000 + c2 * 0x40 + c3)%N
                                 :: code_points s3
                          else
                            match s3 with
                            | "" => n1 :: code_points s1
                            | String b4 s4 =>
                                match continuation b4 with
                                | None => n1 :: code_points s1
                                | Some c4 =>
                                    if ((n1 - 0xf0) * 0x40000 + c2 * 0x1000
                                        + c3 * 0x40 + c4 <? 0x110000)%N
                                    then ((n1 - 0xf0) * 0x40000 + c2 * 0x1000
                                          + c3 * 0x40 + c4)%N :: code_points s4
                                    else n1 :: code_points s1
                                end
                            end
                      end
                  end
            end
        end
  end.

Definition is_high_surrogate (n : N) : bool := ((0xd800 <=? n) && (n <=? 0xdbff))%N.
Definition is_low_surrogate (n : N) : bool := ((0xdc00 <=? n) && (n <=? 0xdfff))%N.

(** *** Encoding *)

Definition hex_digit (n : N) : ascii :=
  match n with
  | 0 => "0" | 1 => "1" | 2 => "2" | 3 => "3" | 4 => "4" | 5 => "5"
  | 6 => "6" | 7 => "7" | 8 => "8" | 9 => "9" | 10 => "a" | 11 => "b"
  | 12 => "c" | 13 => "d" | 14 => "e" | _ => "f"
  end%char%N.

(** ['{0:04x}'.format(n)] for [n < 0x10000] *)
Definition hex4 (n : N) : string :=
  String (hex_digit (n / 16 / 16 / 16))
    (String (hex_digit ((n / 16 / 16) mod 16))
       (String (hex_digit ((n / 16) mod 16))
          (String (hex_digit (n mod 16)) "")))%N.

(** [replace] of [py_encode_basestring_ascii] for the character [chr(n)]:
    the table [ESCAPE_DCT], the printable ASCII characters as they are, and
    for the rest [\uxxxx], twice for a code point from 0x10000, which is
    written as a pair of surrogates. *)
Definition escape_char (n : N) : string :=
  if (n =? 34)%N then String backslash (String quote "")
  else if (n =? 92)%N then String backslash (String backslash "")
  else if (n =? 8)%N then String backslash "b"
  else if (n =? 12)%N then String backslash "f"
  else if (n =? 10)%N then String backslash "n"
  else if (n =? 13)%N then String backslash "r"
  else if (n =? 9)%N then String backslash "t"
  else if ((32 <=? n) && (n <=? 126))%N then String (ascii_of_N n) ""
  else if (n <? 0x10000)%N then String backslash (String "u" (hex4 n))
  else
    let n := (n - 0x10000)%N in
    let s1 := N.lor 0xd800 (N.land (N.shiftr n 10) 0x3ff) in
    let s2 := N.lor 0xdc00 (N.land n 0x3ff) in
    String backslash (String "u" (hex4 s1))
    +:+ String backslash (String "u" (hex4 s2)).

Definition escape_chars (s : string) : string :=
  foldr (λ n out, escape_char n +:+ out) "" (code_points s).

Definition encode_string (s : string) : string :=
  String quote (escape_chars s +:+ String quote "").

(** [newline_indent] of [_make_iterencode] with [indent=2]. *)
Definition newline_indent (level : nat) : string :=
  newline +:+ repeat_str " " (2 * level).

(** The items of a list after the first, each after the separator, then
    the closing bracket on its own line; the same for the items of a dict. *)
Definition encode_items (encode : json → string) (separator close : string)
    : list json → string :=
  fix rest (l : list json) : string :=
    match l with
    | [] => close
    | x :: l' => separator +:+ encode x +:+ rest l'
    end.

Definition encode_members (encode : json → string) (separator close : string)
    : list (string * json) → string :=
  fix rest (l : list (string * json)) : string :=
    match l with
    | [] => close
    | (k, x) :: l' =>
        separator +:+ encode_string k +:+ ": " +:+ encode x +:+ rest l'
    end.

(** [_iterencode] at nesting depth [level]; the separators are those
    [dumps] takes when an indent is given: [","] and [": "]. *)
Fixpoint encode (level : nat) (v : json) : string :=
  match v with
  | JNull => "null"
  | JBool true => "true"
  | JBool false => "false"
  | JInt n => pretty n
  | JFloat literal => literal
  | JString s => encode_string s
  | JArray [] => "[]"
  | JArray (item :: items) =>
      "[" +:+ newline_indent (S level) +:+ encode (S level) item +:+
      encode_items (encode (S level)) ("," +:+ newline_indent (S level))
        (newline_indent level +:+ "]") items
  | JObject [] => "{}"
  | JObject ((key, value) :: members) =>
      "{" +:+ newline_indent (S level) +:+
      encode_string key +:+ ": " +:+ encode (S level) value +:+
      encode_members (encode (S level)) ("," +:+ newline_indent (S level))
        (newline_indent level +:+ "}") members
  end.

Definition dumps (obj : json) : string := encode 0 obj.

(** *** Decoding *)

Definition is_whitespace (c : ascii) : bool :=
  (c =? " ")%char || (c =? "009")%char || (c =? "010")%char || (c =? "013")%char.

Fixpoint skip_ws (s : string) : string :=
  match s with
  | String c s' => if is_whitespace c then skip_ws s' else s
  | "" => ""
  end.

Definition hex_value (c : ascii) : option N :=
  let n := N_of_ascii c in
  if (48 <=? n)%N && (n <=? 57)%N then Some (n - 48)%N
  else if (97 <=? n)%N && (n <=? 102)%N then Some (n - 87)%N
  else if (65 <=? n)%N && (n <=? 70)%N then Some (n - 55)%N
  else None.

(** The table [BACKSLASH] of the decoder. *)
Definition unescape (c : ascii) : option ascii :=
  if (c =? quote)%char then Some quote
  else if (c =? backslash)%char then Some backslash
  else if (c =? "/")%char then Some "/"%char
  else if (c =? "b")%char then Some "008"%char
  else if (c =? "f")%char then Some "012"%char
  else if (c =? "n")%char then Some "010"%char
  else if (c =? "r")%char then Some "013"%char
  else if (c =? "t")%char then Some "009"%char
  else None.

Definition cons_char (c : ascii) (r : option (string * string))
    : option (string * string) :=
  match r with
  | Some (s, rest) => Some (String c s, rest)
  | None => None
  end.

(** The character [chr(n)] before the string that is read after it. *)
Definition cons_chr (n : N) (r : option (string * string))
    : option (string * string) :=
  match r with
  | Some (s, rest) => Some (chr n +:+ s, rest)
  | None => None
  end.

(** The four hex digits of an escape [\uxxxx]. *)
Definition hex4_value (h1 h2 h3 h4 : ascii) : option N :=
  match hex_value h1, hex_value h2, hex_value h3, hex_value h4 with
  | Some a, Some b, Some c, Some d => Some (16 * (16 * (16 * a + b) + c) + d)%N
  | _, _, _, _ => None
  end.

(** What follows the escape of a high surrogate: the escape of a low
    surrogate, with which it makes one character, an escape [\u] whose
    digits are no number, or anything else. *)
Inductive lookahead : Type :=
| Low (uni2 : N)
| Invalid
| NoPair.

Definition second_escape (s : string) : lookahead :=
  match s with
  | String b s1 =>
      if (b =? backslash)%char then
        match s1 with
        | String u s2 =>
            if (u =? "u")%char then
              match s2 with
              | String g1 (String g2 (String g3 (String g4 _))) =>
                  match hex4_value g1 g2 g3 g4 with
                  | Some uni2 => if is_low_surrogate uni2 then Low uni2 else NoPair
                  | None => Invalid
                  end
              | _ => NoPair
              end
            else NoPair
        | "" => NoPair
        end
      else NoPair
  | "" => NoPair
  end.

(** [0x10000 + (((uni - 0xd800) << 10) | (uni2 - 0xdc00))] *)
Definition join_pair (uni uni2 : N) : N :=
  (0x10000 + N.lor (N.shiftl (uni - 0xd800) 10) (uni2 - 0xdc00))%N.

(** [scanstring] in strict mode, from the character after the opening
    quote: the decoded string and what follows the closing quote. *)
Fixpoint scanstring (s : string) : option (string * string) :=
  match s with
  | "" => None
  | String c s' =>
      if (c =? quote)%char then Some ("", s')
      else if (c =? backslash)%char then
        match s' with
        | "" => None
        | String e s'' =>
            if (e =? "u")%char then
              match s'' with
              | String h1 (String h2 (String h3 (String h4 s3))) =>
                  match hex4_value h1 h2 h3 h4 with
                  | Some uni =>
                      match
                        (if is_high_surrogate uni then second_escape s3
                         else NoPair)
                      with
                      | Low uni2 =>
                          match s3 with
                          | String _ (String _ (String _ (String _
                              (String _ (String _ s4))))) =>
                              cons_chr (join_pair uni uni2) (scanstring s4)
                          | _ => None
                          end
                      | Invalid => None
                      | NoPair => cons_chr uni (scanstring s3)
                      end
                  | None => None
                  end
              | _ => None
              end
            else
              match unescape e with
              | Some c' => cons_char c' (scanstring s'')
              | None => None
              end
        end
      else if (N_of_ascii c <? 32)%N then None
      else cons_char c (scanstring s')
  end.

Definition is_digit (c : ascii) : bool :=
  (48 <=? N_of_ascii c)%N && (N_of_ascii c <=? 57)%N.

(** The longest run of digits at the head of [s], and the rest. *)
Fixpoint span_digits (s : string) : string * string :=
  match s with
  | String c s' =>
      if is_digit c then
        let '(ds, rest) := span_digits s' in (String c ds, rest)
      else ("", s)
  | "" => ("", "")
  end.

(** [int(digits)] *)
Fixpoint digits_value (acc : N) (ds : string) : N :=
  match ds with
  | String c ds' => digits_value (10 * acc + (N_of_ascii c - 48))%N ds'
  | "" => acc
  end.

(** The integer part of [NUMBER_RE]: [0|[1-9][0-9]*]. *)
Definition scan_int_part (s : string) : option (string * string) :=
  match s with
  | "" => None
  | String c s' =>
      if (c =? "0")%char then Some ("0", s')
      else if is_digit c then Some (span_digits s)
      else None
  end.

(** The optional fraction [\.[0-9]+] and exponent [[eE][-+]?[0-9]+]. *)
Definition scan_frac (s : string) : string * string :=
  match s with
  | "" => ("", s)
  | String c s' =>
      if (c =? ".")%char then
        match span_digits s' with
        | ("", _) => ("", s)
        | (ds, rest) => (String c ds, rest)
        end
      else ("", s)
  end.

Definition scan_exp (s : string) : string * string :=
  match s with
  | "" => ("", s)
  | String e s' =>
      if (e =? "e")%char || (e =? "E")%char then
        match s' with
        | "" => ("", s)
        | String sign s'' =>
            if (sign =? "-")%char || (sign =? "+")%char then
              match span_digits s'' with
              | ("", _) => ("", s)
              | (ds, rest) => (String e (String sign ds), rest)
              end
            else
              match span_digits s' with
              | ("", _) => ("", s)
              | (ds, rest) => (String e ds, rest)
              end
        end
      else ("", s)
  end.

(** A match of [NUMBER_RE] at the head of [s]: an [int] when there is
    neither fraction nor exponent, a [float] (kept as its literal)
    otherwise. *)
Definition scan_number (s : string) : option (json * string) :=
  let '(negative, s1) :=
    match s with
    | "" => (false, s)
    | String c s' => if (c =? "-")%char then (true, s') else (false, s)
    end in
  match scan_int_part s1 with
  | None => None
  | Some (ds, s2) =>
      let '(frac, s3) := scan_frac s2 in
      let '(exp, s4) := scan_exp s3 in
      match frac, exp with
      | "", "" =>
          let n := Z.of_N (digits_value 0 ds) in
          Some (JInt (if negative then - n else n), s4)
      | _, _ =>
          Some (JFloat ((if negative then "-" else "") +:+ ds +:+ frac +:+ exp), s4)
      end
  end.

(** [s.startswith(p)] with what follows [p]. *)
Fixpoint strip_prefix (p s : string) : option string :=
  match p, s with
  | "", _ => Some s
  | String a p', String b s' => if (a =? b)%char then strip_prefix p' s' else None
  | String _ _, "" => None
  end.

(** [dict(pairs)]: a repeated key keeps its first place and takes the last
    value. *)
Fixpoint dict_set (k : string) (v : json) (d : list (string * json))
    : list (string * json) :=
  match d with
  | [] => [(k, v)]
  | (k', v') :: d' =>
      if String.eqb k k' then (k', v) :: d' else (k', v') :: dict_set k v d'
  end.

Definition dict (pairs : list (string * json)) : list (string * json) :=
  foldl (λ d kv, dict_set kv.1 kv.2 d) [] pairs.

(** The constants [scan_once] knows by name, and the numbers. *)
Definition scan_literal (s : string) : option (json * string) :=
  match strip_prefix "null" s, strip_prefix "true" s, strip_prefix "false" s with
  | Some rest, _, _ => Some (JNull, rest)
  | _, Some rest, _ => Some (JBool true, rest)
  | _, _, Some rest => Some (JBool false, rest)
  | None, None, None =>
      match scan_number s with
      | Some r => Some r
      | None =>
          match strip_prefix "NaN" s, strip_prefix "Infinity" s,
                strip_prefix "-Infinity" s with
          | Some rest, _, _ => Some (JFloat "NaN", rest)
          | _, Some rest, _ => Some (JFloat "Infinity", rest)
          | _, _, Some rest => Some (JFloat "-Infinity", rest)
          | None, None, None => None
          end
      end
  end.

(** [scan_once], [JSONArray] and [JSONObject] of the decoder.  Each takes
    the text from the place it is called at and gives the value with the
    text after it; [array_items] starts at the first item of a list that
    has one, [object_members] at the quote of the first key.  [fuel] bounds
    the depth of the calls; [loads] gives enough of it. *)
Fixpoint scan_once (fuel : nat) (s : string) : option (json * string) :=
  match fuel with
  | O => None
  | S fuel' =>
      match s with
      | "" => None
      | String c s' =>
          if (c =? quote)%char then
            match scanstring s' with
            | Some (str, rest) => Some (JString str, rest)
            | None => None
            end
          else if (c =? "{")%char then
            match skip_ws s' with
            | "" => None
            | String nextchar rest =>
                if (nextchar =? "}")%char then Some (JObject [], rest)
                else
                  match object_members fuel' (String nextchar rest) with
                  | Some (pairs, rest') => Some (JObject (dict pairs), rest')
                  | None => None
                  end
            end
          else if (c =? "[")%char then
            match skip_ws s' with
            | "" => None
            | String nextchar rest =>
                if (nextchar =? "]")%char then Some (JArray [], rest)
                else
                  match array_items fuel' (String nextchar rest) with
                  | Some (values, rest') => Some (JArray values, rest')
                  | None => None
                  end
            end
          else scan_literal s
      end
  end
with array_items (fuel : nat) (s : string) : option (list json * string) :=
  match fuel with
  | O => None
  | S fuel' =>
      match scan_once fuel' s with
      | None => None
      | Some (value, s1) =>
          match skip_ws s1 with
          | "" => None
          | String nextchar s2 =>
              if (nextchar =? "]")%char then Some ([value], s2)
              else if (nextchar =? ",")%char then
                match array_items fuel' (skip_ws s2) with
                | Some (values, rest) => Some (value :: values, rest)
                | None => None
                end
              else None
          end
      end
  end
with object_members (fuel : nat) (s : string)
    : option (list (string * json) * string) :=
  match fuel with
  | O => None
  | S fuel' =>
      match s with
      | "" => None
      | String c s0 =>
          if (c =? quote)%char then
            match scanstring s0 with
            | None => None
            | Some (key, s1) =>
                match skip_ws s1 with
                | "" => None
                | String colon s2 =>
                    if (colon =? ":")%char then
                      match scan_once fuel' (skip_ws s2) with
                      | None => None
                      | Some (value, s3) =>
                          match skip_ws s3 with
                          | "" => None
                          | String nextchar s4 =>
                              if (nextchar =? "}")%char then
                                Some ([(key, value)], s4)
                              else if (nextchar =? ",")%char then
                                match object_members fuel' (skip_ws s4) with
                                | Some (pairs, rest) =>
                                    Some ((key, value) :: pairs, rest)
                                | None => None
                                end
                              else None
                          end
                      end
                    else None
                end
            end
          else None
      end
  end.

(** [json.loads]: [None] when the decoder raises, as it does for a text
    that starts with the byte order mark. *)
Definition loads (s : string) : option json :=
  match strip_prefix (chr 0xfeff) s with
  | Some _ => None
  | None =>
      match scan_once (S (String.length s)) (skip_ws s) with
      | Some (obj, rest) =>
          match skip_ws rest with
          | "" => Some obj
          | _ => None
          end
      | None => None
      end
  end.

(** [dict[key]] on a decoded object. *)
Fixpoint members_get (key : string) (members : list (string * json))
    : option json :=
  match members with
  | [] => None
  | (k, v) :: members' =>
      if String.eqb k key then Some v else members_get key members'
  end.

Definition json_get (key : string) (v : json) : option json :=
  match v with
  | JObject members => members_get key members
  | _ => None
  end.

(** ** roundtable.py: export *)

Definition contribution_dict (contrib : Contribution.t) : json :=
  JObject [("participant", JString (Contribution.participant contrib));
           ("model", JString (Contribution.model contrib));
           ("text", JString (Contribution.text contrib))].

Definition round_dict (round_data : Round.t) : json :=
  JObject [("round_number", JInt (Round.round_number round_data));
           ("contributions",
            JArray (contribution_dict <$> Round.contributions round_data))].

(** [discussion.__dict__] *)
Definition discussion_dict (discussion : Discussion.t) : json :=
  JObject [("question", JString (Discussion.question discussion));
           ("rounds", JArray (round_dict <$> Discussion.rounds discussion));
           ("final_summary",
            match Discussion.final_summary discussion with
            | Some summary => JString summary
            | None => JNull
            end)].

Definition _export_markdown (discussion : Discussion.t) : string :=
  let lines :=
    ["# Roundtable Discussion" +:+ newline;
     "## Question" +:+ newline;
     Discussion.question discussion +:+ newline;
     newline +:+ "## Discussion" +:+ newline] in
  let lines :=
    lines ++
    concat ((λ round_data,
               (newline +:+ "### Round " +:+ pretty (Round.round_number round_data)
                  +:+ newline)
               :: concat ((λ contrib,
                             [newline +:+ "**" +:+ Contribution.participant contrib
                                +:+ "** (" +:+ Contribution.model contrib +:+ "):"
                                +:+ newline;
                              Contribution.text contrib +:+ newline])
                            <$> Round.contributions round_data))
              <$> Discussion.rounds discussion) in
  let lines :=
    if truthy (Discussion.final_summary discussion) then
      lines ++ [newline +:+ "## Final Summary" +:+ newline;
                default "" (Discussion.final_summary discussion) +:+ newline]
    else lines in
  join newline lines.

Definition _export_text (discussion : Discussion.t) : string :=
  let lines :=
    ["ROUNDTABLE DISCUSSION";
     repeat_str "=" 80;
     newline +:+ "Question: " +:+ Discussion.question discussion +:+ newline] in
  let lines :=
    lines ++
    concat ((λ round_data,
               (newline +:+ "--- Round " +:+ pretty (Round.round_number round_data)
                  +:+ " ---" +:+ newline)
               :: concat ((λ contrib,
                             [Contribution.participant contrib +:+ " (" +:+
                                Contribution.model contrib +:+ "):";
                              Contribution.text contrib +:+ newline])
                            <$> Round.contributions round_data))
              <$> Discussion.rounds discussion) in
  let lines :=
    if truthy (Discussion.final_summary discussion) then
      lines ++ [newline +:+ repeat_str "-" 80;
                "FINAL SUMMARY:";
                repeat_str "-" 80;
                default "" (Discussion.final_summary discussion) +:+ newline]
    else lines in
  join newline lines.

(** [Roundtable.export_discussion] *)
Definition export_discussion (discussion : Discussion.t) (format : string)
    : result string :=
  if String.eqb format "markdown" then Return (_export_markdown discussion)
  else if String.eqb format "json" then Return (dumps (discussion_dict discussion))
  else Return (_export_text discussion).

(** ** Definitions used to state the properties *)

(** The label and the environment name of the [i]-th participant. *)
Definition label_of (i : Z) : string := "Participant " +:+ pretty i.
Definition model_key (i : Z) : string := "MODEL" +:+ pretty i.

(** [extends p p']: [p'] is the participant [p] with contributions appended
    to its log. *)
Definition extends (p p' : Participant.t) : Prop :=
  Participant.name p' = Participant.name p ∧
  Participant.label p' = Participant.label p ∧
  Participant.llm p' = Participant.llm p ∧
  Participant.contributions p `prefix_of` Participant.contributions p'.

(** The text a model call of a participant's turn answered with, under the
    speaker's label. *)
Definition spoken (c : Call.t) : option (string * string) :=
  match Call.source c, Call.response c with
  | Turn _ speaker _, Some contribution => Some (speaker, contribution)
  | _, _ => None
  end.

(** [logged ps c]: if the call [c] is an answered turn, the answer is in the
    log of a participant of [ps] that has the speaker's label. *)
Definition logged (ps : list Participant.t) (c : Call.t) : Prop :=
  ∀ speaker contribution,
    spoken c = Some (speaker, contribution) →
    ∃ p, p ∈ ps ∧ Participant.label p = speaker ∧
         contribution ∈ Participant.contributions p.

(** [turn_of self d nums c]: the call [c] is the turn of a participant of
    [self] in one of the rounds [nums], with the context built from the
    discussion [d] and the rounds played before that one. *)
Definition turn_of (self : Roundtable.t) (d : Discussion.t) (nums : list Z)
    (c : Call.t) : Prop :=
  ∃ p n pre post rs,
    p ∈ Roundtable.participants self ∧
    nums = pre ++ n :: post ∧
    Round.round_number <$> rs = pre ∧
    Call.source c
      = Turn n (Participant.label p)
          (_build_context
             (Discussion.mk (Discussion.question d) (Discussion.rounds d ++ rs)
                (Discussion.final_summary d)) p).

(** A high surrogate directly followed by a low surrogate is read back from
    its two escapes as the one character of the pair: what a sequence of
    code points, a [str] and a value are read back as. *)
Fixpoint join_surrogates (l : list N) : list N :=
  match l with
  | [] => []
  | n :: l' =>
      match l' with
      | [] => [n]
      | n2 :: l'' =>
          if is_high_surrogate n && is_low_surrogate n2
          then join_pair n n2 :: join_surrogates l''
          else n :: join_surrogates l'
      end
  end.

Definition read_back (s : string) : string :=
  from_code_points (join_surrogates (code_points s)).

Fixpoint as_read (v : json) : json :=
  match v with
  | JString s => JString (read_back s)
  | JArray items => JArray (as_read <$> items)
  | JObject members =>
      JObject ((λ kv, match kv with (k, x) => (read_back k, as_read x) end)
                 <$> members)
  | _ => v
  end.

(** [is_str s]: the bytes of [s] are those of a sequence of code points,
    as they are for every [str]. *)
Definition is_str (s : string) : bool :=
  String.eqb (from_code_points (code_points s)) s.

(** A high surrogate directly followed by a low surrogate. *)
Fixpoint has_pair (l : list N) : bool :=
  match l with
  | [] => false
  | n :: l' =>
      match l' with
      | [] => false
      | n2 :: _ => (is_high_surrogate n && is_low_surrogate n2) || has_pair l'
      end
  end.

(** A [str] without such a pair; every text in well-formed Unicode is one,
    as it has no surrogate at all. *)
Definition well_formed (s : string) : bool :=
  is_str s && negb (has_pair (code_points s)).

(** The values [discussion.__dict__] is made of: no float, and no key twice
    in a dict, also after the keys are read back. *)
#[local] Unset Elimination Schemes.
Inductive plain : json → Prop :=
| plain_null : plain JNull
| plain_bool b : plain (JBool b)
| plain_int n : plain (JInt n)
| plain_string s : plain (JString s)
| plain_array items : Forall plain items → plain (JArray items)
| plain_object members :
    NoDup (read_back <$> members.*1) → Forall (λ kv, plain kv.2) members →
    plain (JObject members).
#[local] Set Elimination Schemes.

(** What [escape_char] writes for the character [chr(n)]: a short escape,
    the character itself, one escape [\uxxxx] or two. *)
Inductive escape_shape (n : N) : string → Prop :=
| shape_short e c :
    (e =? "u")%char = false → unescape e = Some c → chr n = String c "" →
    escape_shape n (String backslash (String e ""))
| shape_raw c :
    (c =? quote)%char = false → (c =? backslash)%char = false →
    (N_of_ascii c <? 32)%N = false → chr n = String c "" →
    escape_shape n (String c "")
| shape_u :
    (n < 0x10000)%N →
    escape_shape n (String backslash (String "u" (hex4 n)))
| shape_pair s1 s2 :
    (s1 < 0x10000)%N → (s2 < 0x10000)%N →
    is_high_surrogate s1 = true → is_low_surrogate s2 = true →
    join_pair s1 s2 = n →
    escape_shape n (String backslash (String "u" (hex4 s1))
                    +:+ String backslash (String "u" (hex4 s2))).

(** The depth of calls the decoder needs for a value. *)
Fixpoint json_need (v : json) : nat :=
  match v with
  | JArray items => S (foldr (λ x n, S (json_need x + n)) 0%nat items)
  | JObject members => S (foldr (λ kx n, S (json_need kx.2 + n)) 0%nat members)
  | _ => 1
  end.

(** What follows a value in the output of [dumps]: nothing, a comma or a
    line break. *)
Definition delimited (rest : string) : Prop :=
  match rest with
  | "" => True
  | String c _ => c = ","%char ∨ c = "010"%char
  end.

Fixpoint all_digits (ds : string) : bool :=
  match ds with
  | "" => true
  | String c ds' => is_digit c && all_digits ds'
  end.

(** [reads_back v]: the decoder, started at the output of the encoder for
    [v], gives [v] as it is read back and the text that follows. *)
Definition reads_back (v : json) : Prop :=
  ∀ level fuel rest,
    (json_need v ≤ fuel)%nat → delimited rest →
    scan_once fuel (encode level v +:+ rest) = Some (as_read v, rest).

(** A text that starts with the first character of a value, an ASCII
    character. *)
Definition starts_value (s : string) : Prop :=
  ∃ c s', s = String c s' ∧ is_whitespace c = false ∧
          (c =? "]")%char = false ∧ (c =? "}")%char = false ∧
          (N_of_ascii c <? 0x80)%N = true.

(** [spoken_in calls contrib]: the contribution is the answer of one of the
    [calls], recorded under the label of its speaker. *)
Definition spoken_in (calls : list Call.t) (contrib : Contribution.t) : Prop :=
  ∃ c, c ∈ calls ∧
       spoken c = Some (Contribution.participant contrib, Contribution.text contrib).

(** ** Sample configurations, orchestrators and model services *)

Definition env_two : environ :=
  <["MODEL1" := "alpha"]> (<["API_KEY1" := "key-1"]>
  (<["MODEL2" := "beta"]> (<["API_KEY2" := "key-2"]>
  (<["MODERATOR_MODEL" := "gamma"]> (<["MODERATOR_API_KEY" := "key-3"]>
  (<["MODERATOR_BASE_URL" := "https://api.openai.com/v1"]> ∅)))))).

Definition client_of (model key : string) (temperature : float) : ChatOpenAI.t :=
  ChatOpenAI.mk model key "https://api.openai.com/v1" temperature None None.

Definition two_participants : list Participant.t :=
  [Participant.mk "alpha" "Participant 1" (client_of "alpha" "key-1" 0.5%float) [];
   Participant.mk "beta" "Participant 2" (client_of "beta" "key-2" 0.5%float) []].

(** The orchestrator that [Roundtable(max_rounds, 0.5, moderator_enabled, False)]
    builds in the environment [env_two] (see [init_env_two]). *)
Definition table_two (max_rounds : Z) (moderator_enabled : bool) : Roundtable.t :=
  Roundtable.mk max_rounds 0.5%float moderator_enabled false two_participants
    (if moderator_enabled
     then Some (client_of "gamma" "key-3" 0x1.3333333333333p-2%float)
     else None)
    None.

(** Every model answers with the same sentence. *)
Definition service_same : service := λ _ _ _, Some "I agree.".

(** Every model answers with a sentence of its own. *)
Definition service_named : service :=
  λ _ client _, Some ("View of " +:+ ChatOpenAI.model client +:+ ".").

(** The participants answer; the moderator answers with the empty text. *)
Definition service_silent_moderator : service :=
  λ _ client _,
    if String.eqb (ChatOpenAI.model client) "gamma" then Some ""
    else Some ("View of " +:+ ChatOpenAI.model client +:+ ".").

(** The first call is answered, every later call raises. *)
Definition service_breaks : service :=
  λ log _ _, match log with [] => Some "A first thought." | _ => None end.

(** [needle in haystack] *)
Definition occurs_in (needle haystack : string) : Prop :=
  ∃ before after, haystack = before +:+ needle +:+ after.

(** A summary that is a non-empty string. *)
Definition populated (discussion : Discussion.t) : Prop :=
  ∃ summary, Discussion.final_summary discussion = Some summary ∧ summary ≠ "".

(** The context of Participant 1 in round 2 when Participant 2 said [text]
    in round 1: the line of Participant 2 is there twice. *)
Definition context_with_repeat (text : string) : string :=
  join newline
    [newline +:+ "--- Round 1 ---";
     newline +:+ "Participant 2: " +:+ text;
     newline +:+ "Participant 2: " +:+ text].


(** A record with texts outside ASCII: accented letters, the euro sign, a
    character beyond 0xffff, and a low surrogate on its own. *)
Definition record_unicode : Discussion.t :=
  Discussion.mk ("Pourquoi l'" +:+ chr 0xe9 +:+ "t" +:+ chr 0xe9 +:+ " ?")
    [Round.mk 1 [Contribution.mk "Participant 1" "alpha"
                   ("10 " +:+ chr 0x20ac +:+ " " +:+ chr 0x1f600);
                 Contribution.mk "Participant 2" "beta"
                   ("caf" +:+ chr 0xe9 +:+ chr 0xdc80)];
     Round.mk 2 [Contribution.mk "Participant 1" "alpha" "Oui."]]
    (Some ("R" +:+ chr 0xe9 +:+ "sum" +:+ chr 0xe9 +:+ ".")).
(** ** Definitions used to state further properties *)

(** The environment has a model and a key for the participant number [i]. *)
Definition numbered (env : environ) (i : Z) : bool :=
  truthy (getenv env ("MODEL" +:+ pretty i)) &&
  truthy (getenv env ("API_KEY" +:+ pretty i)).

(** The entry [get_participant_models] makes for the participant number [i]. *)
Definition numbered_config (env : environ) (i : Z) : Config.t :=
  Config.mk (default "" (getenv env ("MODEL" +:+ pretty i)))
    (default "" (getenv env ("API_KEY" +:+ pretty i)))
    (getenv_default env ("BASE_URL" +:+ pretty i) "https://api.openai.com/v1")
    ("Participant " +:+ pretty i).

(** The participant [_initialize_participants] makes of an entry. *)
Definition participant_of (env : environ) (temperature : float) (config : Config.t)
    : Participant.t :=
  Participant.mk (Config.name config) (Config.label config)
    (ChatOpenAI.mk (Config.name config) (Config.api_key config)
       (or_str (Some (Config.base_url config))
          (getenv_default env "DEFAULT_BASE_URL" "https://api.openai.com/v1"))
       temperature None None)
    [].

(** An environment that names a moderator model but no moderator key. *)
Definition env_moderator_without_key : environ :=
  <["MODERATOR_MODEL" := "gamma"]> (<["MODERATOR_BASE_URL" := "https://gamma.example/v1"]>
  (<["DEFAULT_API_KEY" := "key-0"]> ∅)).

(** An environment with the participants 1, 2 and 4: number 3 is missing. *)
Definition env_gap : environ :=
  <["MODEL1" := "alpha"]> (<["API_KEY1" := "key-1"]>
  (<["MODEL2" := "beta"]> (<["API_KEY2" := "key-2"]>
  (<["MODEL4" := "delta"]> (<["API_KEY4" := "key-4"]> ∅))))).

(** An environment with the participant 2 and the default model only. *)
Definition env_no_first : environ :=
  <["MODEL2" := "beta"]> (<["API_KEY2" := "key-2"]>
  (<["DEFAULT_MODEL" := "omega"]> (<["DEFAULT_API_KEY" := "key-0"]> ∅))).

(** The entry [_conduct_round] appends to the round for an answer, and the
    participant with the answer appended to its log. *)
Definition contribution_of (p : Participant.t) (text : string) : Contribution.t :=
  Contribution.mk (Participant.label p) (Participant.name p) text.

Definition with_contribution (p : Participant.t) (text : string) : Participant.t :=
  Participant.mk (Participant.name p) (Participant.label p) (Participant.llm p)
    (Participant.contributions p ++ [text]).

(** An answered turn of the log: round, speaker, answer. *)
Definition turn_entry (c : Call.t) : option (Z * string * string) :=
  match Call.source c, Call.response c with
  | Turn round_num speaker _, Some text => Some (round_num, speaker, text)
  | _, _ => None
  end.

(** The contributions of a round and of a record as such entries. *)
Definition round_entries (round_data : Round.t) : list (Z * string * string) :=
  (λ contrib, (Round.round_number round_data, Contribution.participant contrib,
               Contribution.text contrib))
    <$> Round.contributions round_data.

Definition record_entries (rounds : list Round.t) : list (Z * string * string) :=
  concat (round_entries <$> rounds).

(** The texts at the place [i] of the rounds. *)
Definition said (i : nat) (rounds : list Round.t) : list string :=
  omap (λ round_data,
          Contribution.text <$> (Round.contributions round_data !! i)) rounds.

(** The call was answered. *)
Definition answered (c : Call.t) : Prop := is_Some (Call.response c).

(** The calls [discuss] makes for the summary: one when the moderator is
    enabled and has a client. *)
Definition summary_calls (self : Roundtable.t) : nat :=
  if Roundtable.moderator_enabled self
  then match Roundtable.moderator self with Some _ => 1 | None => 0 end
  else 0.


(** ** tools.py *)

(** The optional libraries of tools.py: whether the imports at the head of
    the module found them.  A library that is not installed is [None] there,
    which is false in the tests of the constructors below. *)
Module Libraries.
Record t : Type := mk {
  wikipedia : bool;
  arxiv : bool;
  TavilyClient : bool
}.
End Libraries.

(** The constructors return [None] or a [Tool]; the function of the tool
    is not kept, as in [Tool.t]. *)
Definition _create_tavily_tool (env : environ) (libs : Libraries.t) : option Tool.t :=
  let api_key := getenv env "TAVILY_API_KEY" in
  if negb (truthy api_key) || negb (Libraries.TavilyClient libs) then None
  else
    Some (Tool.mk "tavily_search"
            ("Search the web for current information and recent news. " +:+
             "Use for up-to-date facts, current events, and real-time data. " +:+
             "Input: search query (str)")).

Definition _create_wikipedia_tool (libs : Libraries.t) : option Tool.t :=
  if negb (Libraries.wikipedia libs) then None
  else
    Some (Tool.mk "wikipedia_search"
            ("Get information from Wikipedia for general knowledge topics, " +:+
             "historical facts, and biographical information. " +:+
             "Input: topic or person name (str)")).

Definition _create_arxiv_tool (libs : Libraries.t) : option Tool.t :=
  if negb (Libraries.arxiv libs) then None
  else
    Some (Tool.mk "arxiv_search"
            ("Search for academic papers and research on arXiv. " +:+
             "Use for scientific research, technical papers, and cutting-edge findings. " +:+
             "Input: research topic or query (str)")).

Definition get_available_tools (env : environ) (libs : Libraries.t) : list Tool.t :=
  let tools := [] in
  let tools :=
    match _create_tavily_tool env libs with
    | Some tavily => tools ++ [tavily]
    | None => tools
    end in
  let tools :=
    match _create_wikipedia_tool libs with
    | Some wikipedia_t => tools ++ [wikipedia_t]
    | None => tools
    end in
  let tools :=
    match _create_arxiv_tool libs with
    | Some arxiv_t => tools ++ [arxiv_t]
    | None => tools
    end in
  tools.

(** The line of a tool in the system message of a participant. *)
Definition tool_line (tool : Tool.t) : string :=
  "- " +:+ Tool.name tool +:+ ": " +:+ Tool.description tool +:+ newline.

(** A record of two rounds, in the second of which only Participant 1 has
    spoken, and that participant. *)
Definition record_two_rounds : Discussion.t :=
  Discussion.mk "Why?"
    [Round.mk 1 [Contribution.mk "Participant 1" "alpha" "One.";
                 Contribution.mk "Participant 2" "beta" "Two."];
     Round.mk 2 [Contribution.mk "Participant 1" "alpha" "Three."]]
    None.

Definition first_participant : Participant.t :=
  Participant.mk "alpha" "Participant 1" (client_of "alpha" "key-1" 0.5%float)
    ["One."; "Three."].

(** The strings of a contribution and of a record are well formed. *)
Definition contribution_well_formed (c : Contribution.t) : bool :=
  well_formed (Contribution.participant c) && well_formed (Contribution.model c)
  && well_formed (Contribution.text c).

Definition record_well_formed (d : Discussion.t) : bool :=
  well_formed (Discussion.question d)
  && forallb (λ r, forallb contribution_well_formed (Round.contributions r))
       (Discussion.rounds d)
  && match Discussion.final_summary d with
     | Some summary => well_formed summary
     | None => true
     end.

(** [record_unicode] with another accent in the summary. *)
Definition record_unicode_other : Discussion.t :=
  Discussion.mk (Discussion.question record_unicode)
    (Discussion.rounds record_unicode)
    (Some ("R" +:+ chr 0xe8 +:+ "sum" +:+ chr 0xe9 +:+ ".")).
(** * Properties *)

(** ** Configuration (llm.py) *)

Section Configuration.
Implicit Types (env : environ) (i j : Z) (fuel : nat).

#[local] Instance label_of_inj : Inj (=) (=) label_of.
Proof. intros i j H. unfold label_of in H. by simplify_eq/=. Qed.

#[local] Instance model_key_inj : Inj (=) (=) model_key.
Proof. intros i j H. unfold model_key in H. by simplify_eq/=. Qed.

Lemma truthy_is_Some (o : option string) : truthy o = true → is_Some o.
Proof. destruct o; [eauto | discriminate]. Qed.

(** As long as the loop goes on, it has found a model name for every index
    it has passed. *)
Lemma participants_loop_None env fuel i acc :
  participants_loop env fuel i acc = None →
  ∀ j, i ≤ j < i + Z.of_nat fuel → is_Some (env !! model_key j).
Proof.
  revert i acc. induction fuel as [|fuel IH]; intros i acc Hloop j Hj; [lia|].
  simpl in Hloop.
  destruct (truthy (getenv env ("MODEL" +:+ pretty i))) eqn:Hm; [|done].
  destruct (truthy (getenv env ("API_KEY" +:+ pretty i))) eqn:Hk; [|done].
  simpl in Hloop.
  destruct (decide (j = i)) as [->|Hne].
  - by apply truthy_is_Some.
  - eapply IH; [done | lia].
Qed.

(** The loop is left through its [break] before the fuel runs out. *)
Lemma participants_loop_breaks env i acc :
  is_Some (participants_loop env (S (size env)) i acc).
Proof.
  destruct (participants_loop env (S (size env)) i acc) as [ps|] eqn:Hloop; [eauto|].
  exfalso.
  pose proof (participants_loop_None _ _ _ _ Hloop) as Hkeys.
  set (keys := model_key <$> seqZ i (Z.of_nat (S (size env)))).
  assert (NoDup keys) as Hnd.
  { apply (NoDup_fmap_2 _). apply NoDup_seqZ. }
  assert (list_to_set keys ⊆ dom env) as Hsub.
  { intros k Hk. apply elem_of_list_to_set, list_elem_of_fmap in Hk as (j & -> & Hj).
    apply elem_of_seqZ in Hj. apply elem_of_dom, Hkeys. lia. }
  apply subseteq_size in Hsub.
  rewrite size_list_to_set, size_dom in Hsub by done.
  unfold keys in Hsub. rewrite length_fmap, length_seqZ in Hsub. lia.
Qed.

(** What the loop hands back: the list it was given, then one entry for each
    of the indices [i], [i+1], ... it has passed, labelled by its index. *)
Lemma participants_loop_labels env fuel i acc ps :
  participants_loop env fuel i acc = Some ps →
  ∃ n : nat,
    Config.label <$> ps = (Config.label <$> acc) ++ (label_of <$> seqZ i (Z.of_nat n)).
Proof.
  revert i acc. induction fuel as [|fuel IH]; intros i acc Hloop; [done|].
  simpl in Hloop.
  destruct (negb _ || negb _).
  - exists 0%nat. simplify_eq. by rewrite app_nil_r.
  - apply IH in Hloop as [n Hn]. exists (S n).
    rewrite Hn, fmap_app, <-app_assoc. f_equal.
    rewrite Nat2Z.inj_succ, (seqZ_cons i) by lia. simpl.
    by rewrite Z.pred_succ, <-Z.add_1_r.
Qed.

Lemma get_participant_models_labels env :
  ∃ n : nat,
    Config.label <$> get_participant_models env = label_of <$> seqZ 1 (Z.of_nat n).
Proof.
  unfold get_participant_models.
  destruct (participants_loop env (S (size env)) 1 []) as [ps|] eqn:Hloop;
    [|by exists 0%nat].
  apply participants_loop_labels in Hloop as [n Hn]. simpl in Hn.
  destruct ps as [|p ps]; [|by exists n].
  unfold default_participant.
  destruct (truthy _ && truthy _); [by exists 1%nat | by exists 0%nat].
Qed.

End Configuration.

(** C10.  The labels that [get_participant_models] gives are, in order,
    "Participant 1", "Participant 2", ... up to the number of entries, and no
    two of them are equal: the filter of [_build_context], which tells
    participants apart by label, never takes one participant for another. *)
Theorem participant_labels_distinct (env : environ) :
  Config.label <$> get_participant_models env
    = (λ i, "Participant " +:+ pretty i)
        <$> seqZ 1 (Z.of_nat (length (get_participant_models env)))
  ∧ NoDup (Config.label <$> get_participant_models env).
Proof.
  destruct (get_participant_models_labels env) as [n Hn].
  assert (length (get_participant_models env) = n) as Hlen.
  { rewrite <-(length_fmap Config.label), Hn, length_fmap, length_seqZ. lia. }
  rewrite Hlen. split; [exact Hn|].
  rewrite Hn. apply (NoDup_fmap_2 label_of), NoDup_seqZ.
Qed.

(** [get_llm_client] raises nothing but a [ValueError]. *)
Lemma get_llm_client_raises env model api_key base_url temperature max_tokens seed e :
  get_llm_client env model api_key base_url temperature max_tokens seed = Raise e →
  ∃ msg, e = ValueError msg.
Proof. unfold get_llm_client. destruct (negb _); intros; simplify_eq; eauto. Qed.

Lemma get_moderator_llm_raises env model api_key base_url temperature e :
  get_moderator_llm env model api_key base_url temperature = Raise e →
  ∃ msg, e = ValueError msg.
Proof.
  unfold get_moderator_llm. destruct (negb _ || negb _);
    apply get_llm_client_raises.
Qed.

(** C6.  When the configuration resolves to no participant, the constructor
    raises a [ValueError], the error of a bad configuration, and the log of
    model calls is as it was: nothing was sent to any model. *)
Theorem init_no_participants (env : environ) (available_tools : option (list Tool.t))
    (max_rounds : Z) (temperature : float) (moderator_enabled tools_enabled : bool)
    (log : list Call.t) :
  get_participant_models env = [] →
  ∃ msg,
    __init__ env available_tools max_rounds temperature moderator_enabled
      tools_enabled log = (Raise (ValueError msg), log).
Proof.
  intros Hnone. unfold __init__, _initialize_participants. rewrite Hnone. simpl.
  destruct moderator_enabled; [|eauto].
  destruct (get_moderator_llm env None None None _) as [m|e] eqn:Hmod; [eauto|].
  apply get_moderator_llm_raises in Hmod as [msg ->]. eauto.
Qed.

Lemma init_no_participants_witness :
  get_participant_models (∅ : environ) = [] ∧
  ∃ msg,
    __init__ ∅ None 3 0.5%float true false [] = (Raise (ValueError msg), []).
Proof. split; [reflexivity | apply init_no_participants; reflexivity]. Defined.

(** The sample orchestrators are what the constructor builds in the sample
    environment. *)
Example init_env_two (max_rounds : Z) (moderator_enabled : bool) :
  __init__ env_two None max_rounds 0.5%float moderator_enabled false []
  = (Return (table_two max_rounds moderator_enabled), []).
Proof. by destruct moderator_enabled; vm_compute. Qed.

(** ** The discussion loop (roundtable.py) *)

Section Run.
Variable invoke : service.
Implicit Types (self : Roundtable.t) (d discussion : Discussion.t)
  (p : Participant.t) (log calls : list Call.t) (n round_num : Z).

#[local] Instance extends_refl : Reflexive extends.
Proof. by intros p. Qed.

#[local] Instance extends_trans : Transitive extends.
Proof.
  intros p1 p2 p3 (?&?&?&?) (?&?&?&?). repeat split; try congruence.
  by etrans.
Qed.

Lemma Forall2_extends_refl (ps : list Participant.t) : Forall2 extends ps ps.
Proof. by apply Forall_Forall2_diag, Forall_forall. Qed.

Lemma logged_extends (ps ps' : list Participant.t) c :
  Forall2 extends ps ps' → logged ps c → logged ps' c.
Proof.
  intros Hext Hc speaker t Hs. destruct (Hc _ _ Hs) as (p & Hp & Hl & Ht).
  apply list_elem_of_lookup in Hp as [i Hi].
  destruct (Forall2_lookup_l _ _ _ _ _ Hext Hi) as (p' & Hi' & _ & Hl' & _ & Hpre).
  exists p'. split_and!.
  - by eapply list_elem_of_lookup_2.
  - congruence.
  - destruct Hpre as [k ->]. apply elem_of_app. by left.
Qed.

(** One round: the calls it adds to the log, one for each participant asked,
    each with the context built from the discussion so far; the participants
    as the round leaves them. *)
Lemma conduct_loop_spec self n d (seen todo : list Participant.t)
    (contributions : list Contribution.t) log r ps log' :
  conduct_loop invoke self n d seen todo contributions log = (r, ps, log') →
  ∃ calls todo',
    log' = log ++ calls ∧ ps = seen ++ todo' ∧
    Forall2 extends todo todo' ∧
    Forall (logged todo') calls ∧
    Forall (λ c, ∃ p, p ∈ todo ∧
                   Call.source c
                     = Turn n (Participant.label p) (_build_context d p)) calls.
Proof.
  revert seen contributions log r ps log'.
  induction todo as [|p todo IH];
    intros seen contributions log r ps log' Hloop; simpl in Hloop.
  { simplify_eq. exists [], []. by rewrite !app_nil_r. }
  destruct (invoke log (Participant.llm p) _) as [t|] eqn:Hresp.
  - apply IH in Hloop as (calls & todo' & -> & -> & Hext & Hlogged & Hsrc).
    eexists (_ :: calls), (_ :: todo'). split_and!.
    + by rewrite <-app_assoc.
    + by rewrite <-app_assoc.
    + constructor; [|done]. repeat split. simpl. by apply prefix_app_r.
    + constructor.
      * intros speaker t' Hs. unfold spoken in Hs. simpl in Hs. simplify_eq.
        eexists. split; [by left|]. simpl. split; [done|]. apply elem_of_app. right. by left.
      * eapply Forall_impl; [exact Hlogged|].
        intros c Hc speaker t' Hs. destruct (Hc _ _ Hs) as (p' & ? & ? & ?).
        exists p'. split_and!; [by right|done..].
    + constructor; [exists p; split; [by left|done]|].
      eapply Forall_impl; [exact Hsrc|]. intros c (p' & ? & ?).
      exists p'. split; [by right|done].
  - simplify_eq. eexists [_], (p :: todo). split_and!; [done|done|..].
    + apply Forall2_extends_refl.
    + constructor; [|done]. intros speaker t' Hs. unfold spoken in Hs. by simpl in Hs.
    + constructor; [|done]. exists p. split; [by left|done].
Qed.

Lemma conduct_round_spec self n d log r self' log' :
  _conduct_round invoke self n d log = (r, self', log') →
  ∃ calls,
    log' = log ++ calls ∧
    self' = with_participants self (Roundtable.participants self') ∧
    Forall2 extends (Roundtable.participants self) (Roundtable.participants self') ∧
    Forall (logged (Roundtable.participants self')) calls ∧
    Forall (λ c, ∃ p, p ∈ Roundtable.participants self ∧
                   Call.source c
                     = Turn n (Participant.label p) (_build_context d p)) calls ∧
    (∀ round_data, r = Return round_data → Round.round_number round_data = n).
Proof.
  unfold _conduct_round. intros Hround.
  destruct (conduct_loop _ _ _ _ _ _ _ _) as [[r0 ps] log0] eqn:Hloop.
  apply conduct_loop_spec in Hloop as (calls & todo' & -> & -> & Hext & Hlogged & Hsrc).
  exists calls. destruct r0; simplify_eq; simpl; split_and!; try done.
  by intros ? [= <-].
Qed.

Lemma build_context_label d p p' :
  Participant.label p' = Participant.label p →
  _build_context d p' = _build_context d p.
Proof. intros Hl. unfold _build_context, context_parts. by rewrite Hl. Qed.

(** The rounds loop: what it adds to the log, the participants as it leaves
    them, and the rounds of the record it gives back. *)
Lemma rounds_loop_spec self d (nums : list Z) log r self' log' :
  rounds_loop invoke self d nums log = (r, self', log') →
  ∃ calls,
    log' = log ++ calls ∧
    self' = with_participants self (Roundtable.participants self') ∧
    Forall2 extends (Roundtable.participants self) (Roundtable.participants self') ∧
    Forall (logged (Roundtable.participants self')) calls ∧
    Forall (turn_of self d nums) calls ∧
    (∀ d', r = Return d' →
       Discussion.question d' = Discussion.question d ∧
       Discussion.final_summary d' = Discussion.final_summary d ∧
       Round.round_number <$> Discussion.rounds d'
         = (Round.round_number <$> Discussion.rounds d) ++ nums).
Proof.
  revert self d log r self' log'.
  induction nums as [|n nums IH]; intros self d log r self' log' Hloop;
    simpl in Hloop.
  { simplify_eq. exists []. rewrite app_nil_r.
    split_and!;
      [done | by destruct self' | apply Forall2_extends_refl | done | done |].
    intros d' [= <-]. by rewrite app_nil_r. }
  destruct (_conduct_round invoke self n d log) as [[r1 self1] log1] eqn:Hround.
  apply conduct_round_spec in Hround
    as (calls1 & -> & Hself1 & Hext1 & Hlogged1 & Hsrc1 & Hnum1).
  assert (Forall (turn_of self d (n :: nums)) calls1) as Hturn1.
  { eapply Forall_impl; [exact Hsrc1|]. intros c (p & Hp & Hc).
    exists p, n, [], nums, []. rewrite app_nil_r. by destruct d. }
  destruct r1 as [round_data|e]; simplify_eq.
  2:{ exists calls1. split_and!; done. }
  apply IH in Hloop as (calls2 & -> & Hself' & Hext2 & Hlogged2 & Hturn2 & Hret).
  exists (calls1 ++ calls2). split_and!.
  - by rewrite app_assoc.
  - rewrite Hself', Hself1. done.
  - by etrans.
  - apply Forall_app. split; [|done].
    eapply Forall_impl; [exact Hlogged1|]. intros c. by apply logged_extends.
  - apply Forall_app. split; [done|].
    eapply Forall_impl; [exact Hturn2|].
    intros c (p1 & m & pre & post & rs & Hp1 & -> & <- & Hc). simpl in Hc.
    apply list_elem_of_lookup in Hp1 as [i Hi].
    destruct (Forall2_lookup_r _ _ _ _ _ Hext1 Hi) as (p & Hp & _ & Hl & _).
    exists p, m, (n :: (Round.round_number <$> rs)), post, (round_data :: rs).
    split_and!.
    + by eapply list_elem_of_lookup_2.
    + done.
    + simpl. by rewrite (Hnum1 _ eq_refl).
    + rewrite Hc, Hl, <-app_assoc. simpl. f_equal. by apply build_context_label.
  - intros d' Hd'. destruct (Hret _ Hd') as (Hq & Hs & Hr). simpl in *.
    split_and!; [done..|].
    rewrite Hr, fmap_app, <-app_assoc. simpl. by rewrite (Hnum1 _ eq_refl).
Qed.

(** The contributions a round records are the answers of its calls. *)
Lemma conduct_loop_contributions self n d (seen todo : list Participant.t)
    (contributions cs : list Contribution.t) log ps log' :
  conduct_loop invoke self n d seen todo contributions log = (Return cs, ps, log') →
  ∃ calls new,
    log' = log ++ calls ∧ cs = contributions ++ new ∧
    Forall (spoken_in calls) new.
Proof.
  revert seen contributions log.
  induction todo as [|p todo IH]; intros seen contributions log Hloop;
    simpl in Hloop.
  { simplify_eq. exists [], []. by rewrite !app_nil_r. }
  destruct (invoke log (Participant.llm p) _) as [t|] eqn:Hresp; [|done].
  apply IH in Hloop as (calls & new & -> & -> & Hnew).
  eexists (_ :: calls), (_ :: new). split_and!.
  - by rewrite <-app_assoc.
  - by rewrite <-app_assoc.
  - constructor.
    + eexists. split; [by left|]. unfold spoken. by simpl.
    + eapply Forall_impl; [exact Hnew|]. intros contrib (c & Hc & Hs).
      exists c. split; [by right | done].
Qed.

Lemma spoken_in_app_l calls calls' contrib :
  spoken_in calls contrib → spoken_in (calls ++ calls') contrib.
Proof. intros (c & Hc & Hs). exists c. split; [|done]. apply elem_of_app. by left. Qed.

Lemma spoken_in_app_r calls calls' contrib :
  spoken_in calls' contrib → spoken_in (calls ++ calls') contrib.
Proof. intros (c & Hc & Hs). exists c. split; [|done]. apply elem_of_app. by right. Qed.

(** Every turn of the rounds loop is given the context of a record whose
    new rounds hold nothing but answers of calls of this loop. *)
Lemma rounds_loop_sources self d (nums : list Z) log r self' log' :
  rounds_loop invoke self d nums log = (r, self', log') →
  ∃ calls,
    log' = log ++ calls ∧
    Forall (λ c, ∃ p n rs,
              Call.source c
                = Turn n (Participant.label p)
                    (_build_context
                       (Discussion.mk (Discussion.question d)
                          (Discussion.rounds d ++ rs)
                          (Discussion.final_summary d)) p) ∧
              Forall (λ round_data,
                        Forall (spoken_in calls) (Round.contributions round_data))
                rs) calls.
Proof.
  revert self d log r self' log'.
  induction nums as [|n nums IH]; intros self d log r self' log' Hloop;
    simpl in Hloop.
  { simplify_eq. exists []. by rewrite app_nil_r. }
  destruct (_conduct_round invoke self n d log) as [[r1 self1] log1] eqn:Hround.
  unfold _conduct_round in Hround.
  destruct (conduct_loop _ _ _ _ _ _ _ _) as [[r0 ps] log0] eqn:Hcloop.
  pose proof (conduct_loop_spec _ _ _ _ _ _ _ _ _ _ Hcloop)
    as (calls1 & todo' & Hlog0 & _ & _ & _ & Hsrc1).
  assert (Forall (λ c, ∃ p m rs,
            Call.source c
              = Turn m (Participant.label p)
                  (_build_context
                     (Discussion.mk (Discussion.question d)
                        (Discussion.rounds d ++ rs)
                        (Discussion.final_summary d)) p) ∧
            Forall (λ round_data,
                      Forall (spoken_in calls1) (Round.contributions round_data))
              rs) calls1) as Hturn1.
  { eapply Forall_impl; [exact Hsrc1|]. intros c (p & _ & Hc).
    exists p, n, []. rewrite app_nil_r. split; [by destruct d | done]. }
  destruct r0 as [cs|e]; simplify_eq.
  2:{ exists calls1. done. }
  apply conduct_loop_contributions in Hcloop as (calls1' & new & Hlog & -> & Hnew).
  apply app_inv_head in Hlog as <-. simpl in Hnew.
  apply IH in Hloop as (calls2 & -> & Hturn2).
  exists (calls1 ++ calls2). split; [by rewrite app_assoc|].
  apply Forall_app. split.
  - eapply Forall_impl; [exact Hturn1|]. intros c (p & m & rs & Hc & Hrs).
    exists p, m, rs. split; [done|].
    eapply Forall_impl; [exact Hrs|]. intros round_data Hcs.
    eapply Forall_impl; [exact Hcs|]. intros contrib. apply spoken_in_app_l.
  - eapply Forall_impl; [exact Hturn2|]. intros c (p & m & rs & Hc & Hrs).
    simpl in Hc. exists p, m, (Round.mk n new :: rs).
    split; [by rewrite Hc, <-app_assoc|].
    constructor; simpl.
    + eapply Forall_impl; [exact Hnew|]. intros contrib. apply spoken_in_app_l.
    + eapply Forall_impl; [exact Hrs|]. intros round_data Hcs.
      eapply Forall_impl; [exact Hcs|]. intros contrib. apply spoken_in_app_r.
Qed.

End Run.

(** ** discuss *)

Section Discuss.
Variable invoke : service.
Implicit Types (self : Roundtable.t) (d : Discussion.t) (log : list Call.t).

(** What [discuss] adds to the log after the rounds: the call of the
    moderator, if there is one. *)
Lemma discuss_spec self question log r self' log' :
  discuss invoke self question log = (r, self', log') →
  ∃ r0 calls tail,
    rounds_loop invoke self (Discussion.mk question [] None)
      (range_from_1 (Roundtable.max_rounds self)) log = (r0, self', log ++ calls) ∧
    log' = log ++ calls ++ tail ∧
    Forall (λ c, Call.source c = Summary) tail ∧
    match r0 with
    | Raise e => r = Raise e ∧ tail = []
    | Return d0 =>
        if Roundtable.moderator_enabled self then
          match Roundtable.moderator self with
          | None =>
              tail = [] ∧
              r = Return (Discussion.mk question (Discussion.rounds d0) (Some ""))
          | Some m =>
              ∃ prompt response,
                tail = [Call.mk Summary m prompt response] ∧
                r = match response with
                    | Some summary =>
                        Return (Discussion.mk question (Discussion.rounds d0)
                                  (Some summary))
                    | None => Raise InvokeError
                    end
          end
        else
          tail = [] ∧ r = Return (Discussion.mk question (Discussion.rounds d0) None)
    end.
Proof.
  unfold discuss. intros Hd.
  destruct (rounds_loop _ _ _ _ _) as [[r0 self0] log0] eqn:Hloop.
  destruct (rounds_loop_spec _ _ _ _ _ _ _ _ Hloop)
    as (calls & -> & Hself & _ & _ & _ & Hret).
  destruct r0 as [d0|e].
  2:{ simplify_eq. exists (Raise e), calls, []. by rewrite app_nil_r. }
  destruct (Hret _ eq_refl) as (Hq & Hs & _). clear Hret.
  destruct d0 as [q0 rs0 fs0]. simpl in Hq, Hs. subst q0 fs0.
  assert (Roundtable.moderator_enabled self0 = Roundtable.moderator_enabled self
          ∧ Roundtable.moderator self0 = Roundtable.moderator self) as [Hen Hmod]
    by by rewrite Hself.
  unfold _generate_summary in Hd. rewrite Hen, Hmod in Hd. simpl in Hd.
  exists (Return (Discussion.mk question rs0 None)), calls.
  destruct (Roundtable.moderator_enabled self).
  - destruct (Roundtable.moderator self) as [m|].
    + destruct (invoke _ m _) as [summary|] eqn:Hresp; simplify_eq;
        eexists [_]; rewrite <-app_assoc;
        (split_and!; [done | done | by repeat constructor |]);
        by do 2 eexists.
    + simplify_eq. exists []. by rewrite !app_nil_r.
  - simplify_eq. exists []. by rewrite !app_nil_r.
Qed.

(** When every call is answered, every round is played to its end. *)
Lemma conduct_loop_completes self n d seen todo contributions log :
  (∀ log client prompt, is_Some (invoke log client prompt)) →
  ∃ cs ps log',
    conduct_loop invoke self n d seen todo contributions log = (Return cs, ps, log').
Proof.
  intros Hanswer. revert seen contributions log.
  induction todo as [|p todo IH]; intros seen contributions log; simpl; [eauto|].
  destruct (Hanswer log (Participant.llm p)
              (_create_participant_prompt self (Discussion.question d) n
                 (_build_context d p))) as [t ->].
  apply IH.
Qed.

Lemma rounds_loop_completes self d nums log :
  (∀ log client prompt, is_Some (invoke log client prompt)) →
  ∃ d' self' log', rounds_loop invoke self d nums log = (Return d', self', log').
Proof.
  intros Hanswer. revert self d log.
  induction nums as [|n nums IH]; intros self d log; simpl; [eauto|].
  unfold _conduct_round.
  destruct (conduct_loop_completes self n d [] (Roundtable.participants self) [] log
              Hanswer) as (cs & ps & log' & ->).
  apply IH.
Qed.

(** [discuss] returns a record whenever every model call is answered. *)
Lemma discuss_completes self question log :
  (∀ log client prompt, is_Some (invoke log client prompt)) →
  ∃ d self' log', discuss invoke self question log = (Return d, self', log').
Proof.
  intros Hanswer. unfold discuss.
  destruct (rounds_loop_completes self (Discussion.mk question [] None)
              (range_from_1 (Roundtable.max_rounds self)) log Hanswer)
    as (d & self' & log' & ->).
  destruct (Roundtable.moderator_enabled self'); [|eauto].
  unfold _generate_summary. destruct (Roundtable.moderator self') as [m|]; [|eauto].
  match goal with |- context [invoke ?l ?c ?p] =>
    destruct (Hanswer l c p) as [summary ->] end.
  eauto.
Qed.

End Discuss.

(** ** json: what [loads] reads back from [dumps] *)

Section json_induction.
Variable P : json → Prop.
Hypothesis Hnull : P JNull.
Hypothesis Hbool : ∀ b, P (JBool b).
Hypothesis Hint : ∀ n, P (JInt n).
Hypothesis Hfloat : ∀ literal, P (JFloat literal).
Hypothesis Hstring : ∀ s, P (JString s).
Hypothesis Harray : ∀ items, Forall P items → P (JArray items).
Hypothesis Hobject : ∀ members, Forall (λ kv, P kv.2) members → P (JObject members).

Fixpoint json_ind (v : json) : P v :=
  match v with
  | JNull => Hnull
  | JBool b => Hbool b
  | JInt n => Hint n
  | JFloat literal => Hfloat literal
  | JString s => Hstring s
  | JArray items =>
      Harray items
        ((fix go (l : list json) : Forall P l :=
            match l with
            | [] => @List.Forall_nil _ P
            | x :: l' => @List.Forall_cons _ P x l' (json_ind x) (go l')
            end) items)
  | JObject members =>
      Hobject members
        ((fix go (l : list (string * json)) : Forall (λ kv, P kv.2) l :=
            match l with
            | [] => @List.Forall_nil _ (λ kv, P kv.2)
            | kv :: l' => @List.Forall_cons _ (λ kv, P kv.2) kv l' (json_ind kv.2) (go l')
            end) members)
  end.
End json_induction.

(** *** Strings *)

Lemma str_cons c s t : String c s +:+ t = String c (s +:+ t).
Proof. done. Qed.

Lemma str_nil t : "" +:+ t = t.
Proof. done. Qed.

Lemma str_assoc s t u : (s +:+ t) +:+ u = s +:+ t +:+ u.
Proof. induction s as [|c s IH]; [done|]. by rewrite !str_cons, IH. Qed.

Lemma str_length_app s t : String.length (s +:+ t) = (String.length s + String.length t)%nat.
Proof. induction s as [|c s IH]; [done|]. rewrite str_cons. simpl. by rewrite IH. Qed.

(** *** Strings: the arithmetic of the escapes *)

(** A property of the numbers below [k] that holds of each of them. *)
Lemma N_cases_below (P : N → Prop) (k : nat) :
  Forall P (N.of_nat <$> seq 0 k) → ∀ n, (n < N.of_nat k)%N → P n.
Proof.
  intros Hall n Hn. rewrite Forall_forall in Hall. apply Hall.
  apply list_elem_of_fmap. exists (N.to_nat n). split; [lia|].
  apply elem_of_seq. lia.
Qed.

Ltac each_below k :=
  let l := eval vm_compute in (N.of_nat <$> seq 0 k) in
  apply (N_cases_below _ k);
  change (N.of_nat <$> seq 0 k) with l.

Lemma hex_value_digit d : (d < 16)%N → hex_value (hex_digit d) = Some d.
Proof.
  revert d. each_below 16%nat.
  repeat (apply List.Forall_cons; [reflexivity|]). apply List.Forall_nil.
Qed.

Lemma hex4_value_hex4 n :
  (n < 0x10000)%N →
  ∃ h1 h2 h3 h4,
    hex4 n = String h1 (String h2 (String h3 (String h4 ""))) ∧
    hex4_value h1 h2 h3 h4 = Some n.
Proof.
  intros Hn. eexists _, _, _, _. split; [reflexivity|].
  pose proof (N.div_mod n 16). pose proof (N.div_mod (n / 16) 16).
  pose proof (N.div_mod (n / 16 / 16) 16).
  pose proof (N.mod_lt n 16). pose proof (N.mod_lt (n / 16) 16).
  pose proof (N.mod_lt (n / 16 / 16) 16).
  assert (n / 16 / 16 / 16 < 16)%N.
  { repeat apply N.Div0.div_lt_upper_bound. lia. }
  unfold hex4_value. rewrite !hex_value_digit by lia. f_equal. lia.
Qed.

Lemma lor_shiftl_10 a b : (b < 1024)%N → N.lor (N.shiftl a 10) b = (a * 1024 + b)%N.
Proof.
  intros Hb.
  assert (N.land (N.shiftl a 10) b = 0%N) as Hland.
  { apply N.bits_inj. intros i. rewrite N.land_spec, N.bits_0.
    destruct (decide (i < 10)%N) as [Hi|Hi].
    - by rewrite N.shiftl_spec_low.
    - rewrite <-(N.mod_small b (2 ^ 10)) by done.
      rewrite N.mod_pow2_bits_high by lia. apply andb_false_r. }
  rewrite <-N.lxor_lor, <-N.add_nocarry_lxor by done.
  by rewrite N.shiftl_mul_pow2.
Qed.

(** The pair of surrogates that is written for a code point from 0x10000. *)
Lemma surrogates_of c :
  (0x10000 ≤ c < 0x110000)%N →
  ∃ s1 s2,
    s1 = N.lor 0xd800 (N.land (N.shiftr (c - 0x10000) 10) 0x3ff) ∧
    s2 = N.lor 0xdc00 (N.land (c - 0x10000) 0x3ff) ∧
    is_high_surrogate s1 = true ∧ is_low_surrogate s2 = true ∧
    join_pair s1 s2 = c.
Proof.
  intros Hc. eexists _, _. split; [reflexivity|]. split; [reflexivity|].
  set (n := (c - 0x10000)%N).
  assert (n < 1024 * 1024)%N as Hn by (unfold n; lia).
  assert (c = n + 0x10000)%N as Hcn by (unfold n; lia).
  clearbody n.
  pose proof (N.div_mod n 1024) as Hdm. pose proof (N.mod_lt n 1024) as Hm.
  assert (n / 1024 < 1024)%N as Hd by (apply N.Div0.div_lt_upper_bound; lia).
  change 0x3ff%N with (N.ones 10). rewrite !N.land_ones, N.shiftr_div_pow2.
  change (2 ^ 10)%N with 1024%N. rewrite (N.mod_small (n / 1024)) by done.
  change 0xd800%N with (N.shiftl 54 10). change 0xdc00%N with (N.shiftl 55 10).
  set (q := (n / 1024)%N) in *. set (r := (n mod 1024)%N) in *.
  clearbody q r.
  rewrite !lor_shiftl_10 by lia.
  unfold is_high_surrogate, is_low_surrogate, join_pair.
  split_and!.
  - apply andb_true_iff. split; apply N.leb_le; lia.
  - apply andb_true_iff. split; apply N.leb_le; lia.
  - replace (54 * 1024 + q - 0xd800)%N with q by lia.
    replace (55 * 1024 + r - 0xdc00)%N with r by lia.
    rewrite lor_shiftl_10 by lia. lia.
Qed.

(** *** Strings: the equations of [scanstring] *)

Lemma scanstring_u h1 h2 h3 h4 s3 :
  scanstring (String backslash (String "u"
                (String h1 (String h2 (String h3 (String h4 s3))))))
  = match hex4_value h1 h2 h3 h4 with
    | Some uni =>
        match (if is_high_surrogate uni then second_escape s3 else NoPair) with
        | Low uni2 =>
            match s3 with
            | String _ (String _ (String _ (String _ (String _ (String _ s4))))) =>
                cons_chr (join_pair uni uni2) (scanstring s4)
            | _ => None
            end
        | Invalid => None
        | NoPair => cons_chr uni (scanstring s3)
        end
    | None => None
    end.
Proof. reflexivity. Qed.

Lemma second_escape_u g1 g2 g3 g4 s :
  second_escape (String backslash (String "u"
                   (String g1 (String g2 (String g3 (String g4 s))))))
  = match hex4_value g1 g2 g3 g4 with
    | Some uni2 => if is_low_surrogate uni2 then Low uni2 else NoPair
    | None => Invalid
    end.
Proof. reflexivity. Qed.

(** The escape [\uxxxx] of a number below 0x10000, before [tail]. *)
Lemma escape_u_app n tail :
  (n < 0x10000)%N →
  ∃ h1 h2 h3 h4,
    String backslash (String "u" (hex4 n)) +:+ tail
    = String backslash (String "u"
        (String h1 (String h2 (String h3 (String h4 tail))))) ∧
    hex4_value h1 h2 h3 h4 = Some n.
Proof.
  intros Hn. destruct (hex4_value_hex4 n Hn) as (h1 & h2 & h3 & h4 & -> & Hv).
  by exists h1, h2, h3, h4.
Qed.

Lemma escape_char_shape n : (n < 0x110000)%N → escape_shape n (escape_char n).
Proof.
  intros Hn. destruct (decide (n < 128)%N) as [Hsmall|Hbig].
  - clear Hn. revert n Hsmall. each_below 128%nat.
    repeat (apply List.Forall_cons;
            [first [ by eapply shape_short
                   | by apply shape_raw
                   | by apply shape_u ]|]).
    apply List.Forall_nil.
  - unfold escape_char.
    repeat (match goal with
            | |- context [(n =? ?k)%N] =>
                destruct (N.eqb_spec n k); [lia|]
            end).
    destruct (N.leb_spec n 126); [lia|]. rewrite andb_false_r.
    destruct (N.ltb_spec n 0x10000); [by apply shape_u|].
    destruct (surrogates_of n) as (s1 & s2 & Hs1 & Hs2 & Hhigh & Hlow & Hjoin); [lia|].
    cbv zeta. rewrite <-Hs1, <-Hs2.
    apply shape_pair; try done.
    + unfold is_high_surrogate in Hhigh. apply andb_true_iff in Hhigh as [_ ?%N.leb_le]. lia.
    + unfold is_low_surrogate in Hlow. apply andb_true_iff in Hlow as [_ ?%N.leb_le]. lia.
Qed.

Lemma surrogate_high_not_low n :
  is_high_surrogate n = true → is_low_surrogate n = false.
Proof.
  unfold is_high_surrogate, is_low_surrogate.
  intros [_ ?%N.leb_le]%andb_true_iff. apply andb_false_iff. left.
  apply N.leb_gt. lia.
Qed.

Lemma cons_chr_char n c r : chr n = String c "" → cons_char c r = cons_chr n r.
Proof. intros Hn. unfold cons_chr. rewrite Hn. by destruct r as [[]|]. Qed.

(** One escaped character that is no high surrogate, or that is the last
    character or is followed by a character that is no low surrogate, is
    read back as the character. *)
Lemma scanstring_escape_char n tail :
  (n < 0x110000)%N →
  is_high_surrogate n = false ∨ second_escape tail = NoPair →
  scanstring (escape_char n +:+ tail) = cons_chr n (scanstring tail).
Proof.
  intros Hn Hnext. destruct (escape_char_shape n Hn)
    as [e c He Hc Hchr|c Hq Hb Hctl Hchr|Hlt|s1 s2 Hs1 Hs2 Hhigh Hlow Hjoin].
  - rewrite !str_cons, str_nil. cbn [scanstring].
    change (backslash =? quote)%char with false.
    change (backslash =? backslash)%char with true. cbv iota.
    rewrite He, Hc. by apply cons_chr_char.
  - rewrite !str_cons, str_nil. cbn [scanstring]. rewrite Hq, Hb, Hctl.
    by apply cons_chr_char.
  - destruct (escape_u_app n tail Hlt) as (h1 & h2 & h3 & h4 & -> & Hv).
    rewrite scanstring_u, Hv.
    destruct Hnext as [-> | Hnext]; [done|].
    rewrite Hnext. by destruct (is_high_surrogate n).
  - rewrite str_assoc.
    destruct (escape_u_app s2 tail Hs2) as (g1 & g2 & g3 & g4 & -> & Hv2).
    destruct (escape_u_app s1
                (String backslash (String "u"
                   (String g1 (String g2 (String g3 (String g4 tail)))))) Hs1)
      as (h1 & h2 & h3 & h4 & -> & Hv1).
    rewrite scanstring_u, Hv1, Hhigh, second_escape_u, Hv2, Hlow.
    by rewrite Hjoin.
Qed.

(** After a high surrogate, the escape of a character that is no low
    surrogate, and the closing quote, make no pair with it. *)
Lemma second_escape_escape_char n tail :
  (n < 0x110000)%N → is_low_surrogate n = false →
  second_escape (escape_char n +:+ tail) = NoPair.
Proof.
  intros Hn Hnotlow. destruct (escape_char_shape n Hn)
    as [e c He Hc Hchr|c Hq Hb Hctl Hchr|Hlt|s1 s2 Hs1 Hs2 Hhigh Hlow Hjoin].
  - rewrite !str_cons, str_nil. cbn [second_escape].
    change (backslash =? backslash)%char with true. cbv iota. by rewrite He.
  - rewrite !str_cons, str_nil. cbn [second_escape]. by rewrite Hb.
  - destruct (escape_u_app n tail Hlt) as (h1 & h2 & h3 & h4 & -> & Hv).
    by rewrite second_escape_u, Hv, Hnotlow.
  - rewrite str_assoc.
    destruct (escape_u_app s1
                (String backslash (String "u" (hex4 s2)) +:+ tail) Hs1)
      as (h1 & h2 & h3 & h4 & -> & Hv1).
    by rewrite second_escape_u, Hv1, (surrogate_high_not_low s1).
Qed.

(** The escapes of a sequence of code points are read back as the
    sequence with its pairs of surrogates joined. *)
Lemma scanstring_escapes (l : list N) :
  Forall (λ n, (n < 0x110000)%N) l →
  (∀ rest,
     scanstring (foldr (λ n out, escape_char n +:+ out) "" l +:+ String quote rest)
     = Some (from_code_points (join_surrogates l), rest)) ∧
  (∀ n rest,
     (n < 0x110000)%N →
     scanstring (foldr (λ n out, escape_char n +:+ out) "" (n :: l)
                 +:+ String quote rest)
     = Some (from_code_points (join_surrogates (n :: l)), rest)).
Proof.
  induction l as [|n2 l IH]; intros Hl.
  - split; [done|]. intros n rest Hn. cbn [foldr].
    rewrite str_assoc, str_nil, scanstring_escape_char by auto.
    cbn [scanstring]. change (quote =? quote)%char with true. done.
  - apply Forall_cons in Hl as [Hn2 Hl]. destruct (IH Hl) as [IHl IHn].
    split; [intros rest; by apply IHn|].
    intros n rest Hn.
    change (foldr (λ n out, escape_char n +:+ out) "" (n :: n2 :: l))
      with (escape_char n +:+
            foldr (λ n out, escape_char n +:+ out) "" (n2 :: l)).
    rewrite str_assoc. cbn [join_surrogates].
    destruct (is_high_surrogate n) eqn:Hhigh; cbn [andb].
    + destruct (is_low_surrogate n2) eqn:Hlow.
      * (* a pair: the two escapes are those of one character *)
        assert (n < 0x10000 ∧ n2 < 0x10000)%N as [Hn16 Hn216].
        { unfold is_high_surrogate in Hhigh. unfold is_low_surrogate in Hlow.
          apply andb_true_iff in Hhigh as [_ ?%N.leb_le].
          apply andb_true_iff in Hlow as [_ ?%N.leb_le]. lia. }
        assert (escape_char n = String backslash (String "u" (hex4 n))) as ->.
        { unfold is_high_surrogate in Hhigh.
          apply andb_true_iff in Hhigh as [?%N.leb_le ?%N.leb_le].
          unfold escape_char.
          repeat (match goal with
                  | |- context [(n =? ?k)%N] =>
                      destruct (N.eqb_spec n k); [lia|]
                  end).
          destruct (N.leb_spec n 126); [lia|]. rewrite andb_false_r.
          by destruct (N.ltb_spec n 0x10000); [|lia]. }
        assert (escape_char n2 = String backslash (String "u" (hex4 n2))) as Hn2e.
        { unfold is_low_surrogate in Hlow.
          apply andb_true_iff in Hlow as [?%N.leb_le ?%N.leb_le].
          unfold escape_char.
          repeat (match goal with
                  | |- context [(n2 =? ?k)%N] =>
                      destruct (N.eqb_spec n2 k); [lia|]
                  end).
          destruct (N.leb_spec n2 126); [lia|]. rewrite andb_false_r.
          by destruct (N.ltb_spec n2 0x10000); [|lia]. }
        cbn [foldr]. rewrite Hn2e, str_assoc.
        destruct (escape_u_app n2
                    (foldr (λ n out, escape_char n +:+ out) "" l
                     +:+ String quote rest) Hn216)
          as (g1 & g2 & g3 & g4 & -> & Hv2).
        destruct (escape_u_app n
                    (String backslash (String "u"
                       (String g1 (String g2 (String g3 (String g4
                          (foldr (λ n out, escape_char n +:+ out) "" l
                           +:+ String quote rest))))))) Hn16)
          as (h1 & h2 & h3 & h4 & -> & Hv1).
        rewrite scanstring_u, Hv1, Hhigh, second_escape_u, Hv2, Hlow.
        by rewrite IHl.
      * rewrite scanstring_escape_char; [|done|].
        -- rewrite (IHn n2 rest Hn2). done.
        -- right. cbn [foldr]. rewrite str_assoc.
           by apply second_escape_escape_char.
    + rewrite scanstring_escape_char by auto.
      by rewrite (IHn n2 rest Hn2).
Qed.

(** *** Strings: the characters of a [str] *)

Lemma continuation_bound b c : continuation b = Some c → (c < 0x40)%N.
Proof.
  unfold continuation.
  destruct (_ && _) eqn:Hb; [|done]. intros [= <-].
  apply andb_true_iff in Hb as [?%N.leb_le ?%N.ltb_lt]. lia.
Qed.

Lemma code_points_valid s : Forall (λ n, (n < 0x110000)%N) (code_points s).
Proof.
  assert (∀ k s, (String.length s ≤ k)%nat →
            Forall (λ n, (n < 0x110000)%N) (code_points s)) as Hall.
  { clear s. induction k as [|k IH]; intros s Hk.
    { destruct s; [constructor | simpl in Hk; lia]. }
    destruct s as [|b1 s1]; [constructor|].
    pose proof (N_ascii_bounded b1) as Hb1.
    assert (Forall (λ n, (n < 0x110000)%N) (N_of_ascii b1 :: code_points s1))
      as Halone.
    { constructor; [lia|]. apply IH. simpl in Hk. lia. }
    cbn [code_points].
    destruct (N.ltb_spec (N_of_ascii b1) 0xc0); [done|].
    destruct s1 as [|b2 s2]; [done|].
    destruct (continuation b2) as [c2|] eqn:Hc2; [|done].
    apply continuation_bound in Hc2.
    destruct (N.ltb_spec (N_of_ascii b1) 0xe0).
    { constructor; [lia|]. apply IH. simpl in Hk. lia. }
    destruct s2 as [|b3 s3]; [done|].
    destruct (continuation b3) as [c3|] eqn:Hc3; [|done].
    apply continuation_bound in Hc3.
    destruct (N.ltb_spec (N_of_ascii b1) 0xf0).
    { constructor; [lia|]. apply IH. simpl in Hk. lia. }
    destruct s3 as [|b4 s4]; [done|].
    destruct (continuation b4) as [c4|] eqn:Hc4; [|done].
    match goal with
    | |- context [(?n <? 0x110000)%N] => destruct (N.ltb_spec n 0x110000)
    end; [|done].
    constructor; [done|]. apply IH. simpl in Hk. lia. }
  by apply (Hall (String.length s)).
Qed.

Lemma scan_encode_string s rest : ∃ tail,
  encode_string s +:+ rest = String quote tail ∧
  scanstring tail = Some (read_back s, rest).
Proof.
  exists (escape_chars s +:+ String quote rest). split.
  - unfold encode_string. by rewrite str_cons, str_assoc.
  - apply scanstring_escapes, code_points_valid.
Qed.

(** A [str] without a pair of surrogates is read back as it is. *)
Lemma join_surrogates_no_pair l : has_pair l = false → join_surrogates l = l.
Proof.
  induction l as [|n l IH]; [done|].
  destruct l as [|n2 l]; [done|].
  intros Hpair.
  change (has_pair (n :: n2 :: l))
    with ((is_high_surrogate n && is_low_surrogate n2) || has_pair (n2 :: l))
    in Hpair.
  apply orb_false_iff in Hpair as [Hpair Hl].
  change (join_surrogates (n :: n2 :: l))
    with (if is_high_surrogate n && is_low_surrogate n2
          then join_pair n n2 :: join_surrogates l
          else n :: join_surrogates (n2 :: l)).
  by rewrite Hpair, IH.
Qed.

Lemma read_back_well_formed s : well_formed s = true → read_back s = s.
Proof.
  unfold well_formed, is_str, read_back.
  intros [Hstr Hpair%negb_true_iff]%andb_true_iff.
  rewrite join_surrogates_no_pair by done. by apply String.eqb_eq.
Qed.

(** *** Integers *)

Lemma digits_value_app acc a b :
  digits_value acc (a +:+ b) = digits_value (digits_value acc a) b.
Proof. revert acc. induction a as [|c a IH]; intros acc; [done|]. apply IH. Qed.

Lemma all_digits_app a b :
  all_digits a = true → all_digits b = true → all_digits (a +:+ b) = true.
Proof.
  induction a as [|c a IH]; [done|]. rewrite str_cons. simpl.
  intros [-> ?]%andb_true_iff ?. simpl. auto.
Qed.

Lemma delimited_not_digit rest :
  delimited rest → span_digits rest = ("", rest).
Proof. destruct rest as [|c rest]; [done|]. by intros [-> | ->]. Qed.

Lemma span_digits_app ds rest :
  all_digits ds = true → delimited rest → span_digits (ds +:+ rest) = (ds, rest).
Proof.
  intros Hds Hrest. induction ds as [|c ds IH]; [by apply delimited_not_digit|].
  simpl in Hds. apply andb_true_iff in Hds as [Hc Hds].
  rewrite str_cons. simpl. by rewrite Hc, IH.
Qed.

Lemma pretty_N_char_digit d :
  (d < 10)%N →
  is_digit (pretty_N_char d) = true ∧
  (N_of_ascii (pretty_N_char d) - 48)%N = d ∧
  (d ≠ 0%N → pretty_N_char d ≠ "0"%char).
Proof.
  intros Hd.
  assert (d = 0 ∨ d = 1 ∨ d = 2 ∨ d = 3 ∨ d = 4 ∨ d = 5 ∨ d = 6 ∨ d = 7
          ∨ d = 8 ∨ d = 9)%N as Hcases by lia.
  repeat destruct Hcases as [->|Hcases]; try subst d; by split_and!.
Qed.

(** The digits [pretty] writes for a natural number. *)
Lemma pretty_N_go_digits (x : N) (s : string) :
  ∃ ds,
    pretty_N_go x s = ds +:+ s ∧
    all_digits ds = true ∧
    digits_value 0 ds = x ∧
    (x = 0%N → ds = "") ∧
    ((0 < x)%N → ∃ c ds', ds = String c ds' ∧ c ≠ "0"%char).
Proof.
  revert s. induction (N.lt_wf_0 x) as [x _ IH]; intros s.
  destruct (decide (x = 0%N)) as [->|Hx].
  { exists "". rewrite pretty_N_go_0. split_and!; [done..|lia]. }
  rewrite pretty_N_go_step by lia.
  destruct (IH (x `div` 10)%N) with (s := String (pretty_N_char (x `mod` 10)) s)
    as (ds & -> & Hds & Hval & Hzero & Hpos).
  { apply N.div_lt; lia. }
  destruct (pretty_N_char_digit (x `mod` 10)%N) as (Hdig & Hchar & Hnz).
  { apply N.mod_lt. lia. }
  exists (ds +:+ String (pretty_N_char (x `mod` 10)) ""). split_and!.
  - by rewrite str_assoc.
  - apply all_digits_app; [done|]. simpl. by rewrite Hdig.
  - rewrite digits_value_app, Hval. simpl. rewrite Hchar.
    pose proof (N.div_mod x 10). lia.
  - lia.
  - intros _. destruct (decide (x `div` 10 = 0)%N) as [Hdiv|Hdiv].
    + rewrite (Hzero Hdiv), str_nil. eexists _, _. split; [done|].
      apply Hnz. pose proof (N.div_mod x 10). lia.
    + destruct Hpos as (c & ds' & -> & Hc); [lia|]. rewrite str_cons. eauto.
Qed.

Lemma pretty_N_positive (x : N) :
  (0 < x)%N →
  ∃ c ds,
    pretty x = String c ds ∧ c ≠ "0"%char ∧
    all_digits (String c ds) = true ∧ digits_value 0 (String c ds) = x.
Proof.
  intros Hx. unfold pretty, pretty_N. rewrite decide_False by lia.
  destruct (pretty_N_go_digits x "") as (ds & -> & Hds & Hval & _ & Hpos).
  destruct (Hpos Hx) as (c & ds' & -> & Hc).
  exists c, (ds' +:+ ""). rewrite <-str_cons.
  assert (∀ t, t +:+ "" = t) as Hnil.
  { intros t. induction t as [|a t IHt]; [done|]. by rewrite str_cons, IHt. }
  by rewrite Hnil.
Qed.

Lemma scan_frac_delimited rest : delimited rest → scan_frac rest = ("", rest).
Proof. destruct rest as [|c rest]; [done|]. by intros [-> | ->]. Qed.

Lemma scan_exp_delimited rest : delimited rest → scan_exp rest = ("", rest).
Proof. destruct rest as [|c rest]; [done|]. by intros [-> | ->]. Qed.

Lemma is_digit_not_minus c : is_digit c = true → (c =? "-")%char = false.
Proof. destruct c as [[] [] [] [] [] [] [] []]; by vm_compute. Qed.

(** The digits of a number as [pretty] writes it are its integer part. *)
Lemma scan_int_part_digits c ds rest :
  (String c ds = "0" ∨ c ≠ "0"%char) →
  all_digits (String c ds) = true →
  delimited rest →
  scan_int_part (String c ds +:+ rest) = Some (String c ds, rest).
Proof.
  intros Hhead Hds Hrest. rewrite str_cons. unfold scan_int_part.
  destruct (Ascii.eqb_spec c "0") as [->|Hc].
  - destruct Hhead as [[= ->]|?]; [by rewrite str_nil | done].
  - pose proof Hds as Hds'. simpl in Hds'. apply andb_true_iff in Hds' as [-> _].
    by rewrite <-str_cons, span_digits_app.
Qed.

Lemma scan_number_pretty (n : Z) rest :
  delimited rest → scan_number (pretty n +:+ rest) = Some (JInt n, rest).
Proof.
  intros Hrest. destruct n as [|p|p].
  - change (pretty 0%Z) with "0". unfold scan_number. rewrite str_cons, str_nil.
    simpl. by rewrite scan_frac_delimited, scan_exp_delimited.
  - change (pretty (Z.pos p)) with (pretty (N.pos p)).
    destruct (pretty_N_positive (N.pos p)) as (c & ds & -> & Hc & Hds & Hval); [lia|].
    unfold scan_number. rewrite str_cons. cbv beta iota.
    rewrite is_digit_not_minus
      by (simpl in Hds; by apply andb_true_iff in Hds as [-> _]).
    rewrite <-str_cons, (scan_int_part_digits c ds) by auto.
    rewrite scan_frac_delimited, scan_exp_delimited by done.
    by rewrite Hval.
  - change (pretty (Z.neg p)) with ("-" +:+ pretty (N.pos p)).
    destruct (pretty_N_positive (N.pos p)) as (c & ds & -> & Hc & Hds & Hval); [lia|].
    unfold scan_number. rewrite str_assoc, (str_cons "-"), str_nil.
    cbv beta iota. change ("-" =? "-")%char with true. cbv beta iota.
    rewrite (scan_int_part_digits c ds) by auto.
    rewrite scan_frac_delimited, scan_exp_delimited by done.
    by rewrite Hval.
Qed.

(** The first character of what [pretty] writes for an integer. *)
Lemma pretty_Z_head (n : Z) :
  ∃ c s, pretty n = String c s ∧ (is_digit c || (c =? "-")%char) = true.
Proof.
  destruct n as [|p|p].
  - by exists "0"%char, "".
  - change (pretty (Z.pos p)) with (pretty (N.pos p)).
    destruct (pretty_N_positive (N.pos p)) as (c & ds & -> & _ & Hds & _); [lia|].
    exists c, ds. simpl in Hds. by apply andb_true_iff in Hds as [-> _].
  - by exists "-"%char, (pretty (N.pos p)).
Qed.

Lemma scan_once_number fuel c s r :
  (is_digit c || (c =? "-")%char) = true →
  scan_number (String c s) = Some r →
  scan_once (S fuel) (String c s) = Some r.
Proof.
  intros Hc Hnum.
  destruct c as [[] [] [] [] [] [] [] []]; try (by vm_compute in Hc);
    cbn [scan_once Ascii.eqb Bool.eqb quote]; unfold scan_literal;
    cbn [strip_prefix Ascii.eqb Bool.eqb]; by rewrite Hnum.
Qed.

(** *** White space and the first character of a value *)

Lemma str_app_nil_r s : s +:+ "" = s.
Proof. induction s as [|c s IH]; [done|]. by rewrite str_cons, IH. Qed.

Lemma skip_ws_spaces n s : skip_ws (repeat_str " " n +:+ s) = skip_ws s.
Proof.
  induction n as [|n IH]; [done|].
  unfold repeat_str in *. simpl. by rewrite str_nil.
Qed.

Lemma skip_ws_newline_indent level s :
  skip_ws (newline_indent level +:+ s) = skip_ws s.
Proof.
  unfold newline_indent, newline. rewrite str_assoc, str_cons, str_nil. simpl.
  apply skip_ws_spaces.
Qed.

Lemma skip_ws_starts_value s : starts_value s → skip_ws s = s.
Proof. intros (c & s' & -> & Hc & _). simpl. by rewrite Hc. Qed.

Lemma starts_value_app s t : starts_value s → starts_value (s +:+ t).
Proof. intros (c & s' & -> & ?). exists c, (s' +:+ t). by rewrite str_cons. Qed.

Lemma digit_or_minus_starts_value c s :
  (is_digit c || (c =? "-")%char) = true → starts_value (String c s).
Proof.
  intros Hc. exists c, s. split; [done|].
  destruct c as [[] [] [] [] [] [] [] []]; by vm_compute in Hc |- *.
Qed.

Lemma encode_starts_value level v : plain v → starts_value (encode level v).
Proof.
  intros Hv. destruct Hv as [|[]|n|s|items _|members _ _]; simpl.
  - by eexists _, _.
  - by eexists _, _.
  - by eexists _, _.
  - destruct (pretty_Z_head n) as (c & s & -> & Hc).
    by apply digit_or_minus_starts_value.
  - by eexists _, _.
  - destruct items; by eexists _, _.
  - destruct members as [|[k x] members]; by eexists _, _.
Qed.

Lemma delimited_encode_items enc level l rest :
  delimited (encode_items enc ("," +:+ newline_indent (S level))
               (newline_indent level +:+ "]") l +:+ rest).
Proof.
  destruct l; simpl; auto.
Qed.

Lemma delimited_encode_members enc level l rest :
  delimited (encode_members enc ("," +:+ newline_indent (S level))
               (newline_indent level +:+ "}") l +:+ rest).
Proof.
  destruct l as [|[k x] l]; simpl; auto.
Qed.

(** *** The equations of the decoder *)

Lemma scan_once_string fuel s :
  scan_once (S fuel) (String quote s)
  = match scanstring s with
    | Some (str, rest) => Some (JString str, rest)
    | None => None
    end.
Proof. done. Qed.

Lemma scan_once_array fuel s :
  scan_once (S fuel) (String "[" s)
  = match skip_ws s with
    | "" => None
    | String nextchar rest =>
        if (nextchar =? "]")%char then Some (JArray [], rest)
        else
          match array_items fuel (String nextchar rest) with
          | Some (values, rest') => Some (JArray values, rest')
          | None => None
          end
    end.
Proof. done. Qed.

Lemma scan_once_object fuel s :
  scan_once (S fuel) (String "{" s)
  = match skip_ws s with
    | "" => None
    | String nextchar rest =>
        if (nextchar =? "}")%char then Some (JObject [], rest)
        else
          match object_members fuel (String nextchar rest) with
          | Some (pairs, rest') => Some (JObject (dict pairs), rest')
          | None => None
          end
    end.
Proof. done. Qed.

Lemma array_items_S fuel s :
  array_items (S fuel) s
  = match scan_once fuel s with
    | None => None
    | Some (value, s1) =>
        match skip_ws s1 with
        | "" => None
        | String nextchar s2 =>
            if (nextchar =? "]")%char then Some ([value], s2)
            else if (nextchar =? ",")%char then
              match array_items fuel (skip_ws s2) with
              | Some (values, rest) => Some (value :: values, rest)
              | None => None
              end
            else None
        end
    end.
Proof. done. Qed.

Lemma object_members_S fuel s0 :
  object_members (S fuel) (String quote s0)
  = match scanstring s0 with
    | None => None
    | Some (key, s1) =>
        match skip_ws s1 with
        | "" => None
        | String colon s2 =>
            if (colon =? ":")%char then
              match scan_once fuel (skip_ws s2) with
              | None => None
              | Some (value, s3) =>
                  match skip_ws s3 with
                  | "" => None
                  | String nextchar s4 =>
                      if (nextchar =? "}")%char then Some ([(key, value)], s4)
                      else if (nextchar =? ",")%char then
                        match object_members fuel (skip_ws s4) with
                        | Some (pairs, rest) => Some ((key, value) :: pairs, rest)
                        | None => None
                        end
                      else None
                  end
              end
            else None
        end
    end.
Proof. done. Qed.

(** *** The equations of the encoder *)

Lemma encode_array_cons level item items :
  encode level (JArray (item :: items))
  = "[" +:+ newline_indent (S level) +:+ encode (S level) item +:+
    encode_items (encode (S level)) ("," +:+ newline_indent (S level))
      (newline_indent level +:+ "]") items.
Proof. done. Qed.

Lemma encode_object_cons level key value members :
  encode level (JObject ((key, value) :: members))
  = "{" +:+ newline_indent (S level) +:+
    encode_string key +:+ ": " +:+ encode (S level) value +:+
    encode_members (encode (S level)) ("," +:+ newline_indent (S level))
      (newline_indent level +:+ "}") members.
Proof. done. Qed.

Lemma encode_items_nil enc separator close :
  encode_items enc separator close [] = close.
Proof. done. Qed.

Lemma encode_items_cons enc separator close x l :
  encode_items enc separator close (x :: l)
  = separator +:+ enc x +:+ encode_items enc separator close l.
Proof. done. Qed.

Lemma encode_members_nil enc separator close :
  encode_members enc separator close [] = close.
Proof. done. Qed.

Lemma encode_members_cons enc separator close k x l :
  encode_members enc separator close ((k, x) :: l)
  = separator +:+ encode_string k +:+ ": " +:+ enc x
    +:+ encode_members enc separator close l.
Proof. done. Qed.

(** *** Lists *)

Lemma array_items_encode (items : list json) :
  Forall reads_back items → Forall plain items →
  ∀ item level fuel rest,
    reads_back item → plain item →
    (S (json_need item + foldr (λ x n, S (json_need x + n)) 0 items) ≤ fuel)%nat →
    array_items fuel
      (encode (S level) item +:+
       encode_items (encode (S level)) ("," +:+ newline_indent (S level))
         (newline_indent level +:+ "]") items +:+ rest)
    = Some (as_read item :: (as_read <$> items), rest).
Proof.
  induction items as [|x items IH];
    intros Hread Hplain item level fuel rest Hitem Hpitem Hfuel;
    (destruct fuel as [|fuel]; [lia|]); rewrite array_items_S;
    (rewrite Hitem; [|simpl in Hfuel; lia | apply delimited_encode_items]).
  - rewrite encode_items_nil, str_assoc, skip_ws_newline_indent.
    by rewrite str_cons, str_nil.
  - apply Forall_cons in Hread as [Hx Hread].
    apply Forall_cons in Hplain as [Hpx Hplain].
    rewrite encode_items_cons, !str_assoc, (str_cons ","), str_nil.
    cbn [skip_ws is_whitespace Ascii.eqb Bool.eqb orb].
    rewrite skip_ws_newline_indent.
    rewrite skip_ws_starts_value by by apply starts_value_app, encode_starts_value.
    rewrite (IH Hread Hplain x level fuel rest Hx Hpx); [done|].
    simpl in Hfuel. lia.
Qed.

(** *** Dicts *)

Lemma dict_set_fresh k v (d : list (string * json)) :
  k ∉ d.*1 → dict_set k v d = d ++ [(k, v)].
Proof.
  induction d as [|[k' v'] d IH]; intros Hk; [done|]. simpl in *.
  apply not_elem_of_cons in Hk as [Hne Hk].
  destruct (String.eqb_spec k k'); [done|]. by rewrite IH.
Qed.

Lemma dict_pairs_fresh (acc pairs : list (string * json)) :
  NoDup (acc.*1 ++ pairs.*1) →
  foldl (λ d kv, dict_set kv.1 kv.2 d) acc pairs = acc ++ pairs.
Proof.
  revert acc. induction pairs as [|[k v] pairs IH]; intros acc Hnd; simpl.
  { by rewrite app_nil_r. }
  simpl in Hnd. rewrite dict_set_fresh.
  - rewrite IH; [by rewrite <-app_assoc|].
    rewrite fmap_app, <-app_assoc. done.
  - apply NoDup_app in Hnd as (_ & Hdisj & _). intros Hk.
    apply (Hdisj _ Hk). by left.
Qed.

(** The members of a dict as they are read back. *)
Lemma as_read_object members :
  as_read (JObject members)
  = JObject ((λ kv, (read_back kv.1, as_read kv.2)) <$> members).
Proof.
  cbn [as_read]. f_equal. apply list_fmap_ext. by intros _ [k x] _.
Qed.

Lemma dict_NoDup (pairs : list (string * json)) :
  NoDup pairs.*1 → dict pairs = pairs.
Proof. intros Hnd. unfold dict. by rewrite dict_pairs_fresh. Qed.

Lemma object_members_encode (members : list (string * json)) :
  Forall (λ kv, reads_back kv.2) members → Forall (λ kv, plain kv.2) members →
  ∀ key value level fuel rest,
    reads_back value → plain value →
    (S (json_need value + foldr (λ kx n, S (json_need kx.2 + n)) 0 members)
       ≤ fuel)%nat →
    object_members fuel
      (encode_string key +:+ ": " +:+ encode (S level) value +:+
       encode_members (encode (S level)) ("," +:+ newline_indent (S level))
         (newline_indent level +:+ "}") members +:+ rest)
    = Some ((read_back key, as_read value)
              :: ((λ kv, (read_back kv.1, as_read kv.2)) <$> members), rest).
Proof.
  induction members as [|[k x] members IH];
    intros Hread Hplain key value level fuel rest Hvalue Hpvalue Hfuel;
    (destruct fuel as [|fuel]; [lia|]).
  all: match goal with
       | |- object_members _ (encode_string ?k0 +:+ ?t) = _ =>
           destruct (scan_encode_string k0 t) as (tail & -> & Hscan)
       end.
  all: rewrite object_members_S, Hscan, (str_cons ":"), (str_cons " "), str_nil.
  all: cbn [skip_ws is_whitespace Ascii.eqb Bool.eqb orb].
  all: rewrite skip_ws_starts_value by by apply starts_value_app, encode_starts_value.
  all: (rewrite Hvalue; [|simpl in Hfuel; lia | apply delimited_encode_members]).
  - rewrite encode_members_nil, str_assoc, skip_ws_newline_indent.
    by rewrite str_cons, str_nil.
  - apply Forall_cons in Hread as [Hx Hread].
    apply Forall_cons in Hplain as [Hpx Hplain]. simpl in Hx, Hpx.
    rewrite encode_members_cons, !str_assoc, (str_cons ","), str_nil.
    cbn [skip_ws is_whitespace Ascii.eqb Bool.eqb orb].
    rewrite skip_ws_newline_indent.
    assert (starts_value (encode_string k +:+ ": " +:+ encode (S level) x +:+
              encode_members (encode (S level)) ("," +:+ newline_indent (S level))
                (newline_indent level +:+ "}") members +:+ rest)) as Hstart.
    { apply starts_value_app. by eexists _, _. }
    rewrite skip_ws_starts_value by done.
    rewrite (IH Hread Hplain k x level fuel rest Hx Hpx); [done|].
    simpl in Hfuel. lia.
Qed.

(** *** Values *)

Lemma plain_array_inv items : plain (JArray items) → Forall plain items.
Proof. by inversion 1. Qed.

Lemma plain_object_inv members :
  plain (JObject members) →
  NoDup (read_back <$> members.*1) ∧ Forall (λ kv, plain kv.2) members.
Proof. by inversion 1. Qed.

(** The decoder reads back what the encoder writes, at any depth and
    whatever follows, as long as what follows ends the value. *)
Lemma encode_reads_back (v : json) : plain v → reads_back v.
Proof.
  induction v as [|b|n|literal|s|items IH|members IH] using json_ind;
    intros Hplain level fuel rest Hfuel Hrest;
    (destruct fuel as [|fuel]; [simpl in Hfuel; lia|]).
  - reflexivity.
  - by destruct b.
  - change (encode level (JInt n)) with (pretty n).
    destruct (pretty_Z_head n) as (c & s & Hhead & Hc).
    rewrite Hhead, str_cons. apply scan_once_number; [done|].
    rewrite <-str_cons, <-Hhead. by apply scan_number_pretty.
  - inversion Hplain.
  - change (encode level (JString s)) with (encode_string s).
    destruct (scan_encode_string s rest) as (tail & -> & Hscan).
    by rewrite scan_once_string, Hscan.
  - apply plain_array_inv in Hplain.
    assert (Forall reads_back items) as Hread.
    { rewrite Forall_forall in IH, Hplain |- *. auto. }
    destruct items as [|item items]; [reflexivity|].
    apply Forall_cons in Hread as [Hitem Hread].
    apply Forall_cons in Hplain as [Hpitem Hplain].
    rewrite encode_array_cons, !str_assoc, (str_cons "["), str_nil.
    rewrite scan_once_array, skip_ws_newline_indent.
    match goal with |- context [skip_ws ?t] => set (text := t) end.
    assert (starts_value text) as Hstart
      by by apply starts_value_app, encode_starts_value.
    rewrite skip_ws_starts_value by done.
    destruct Hstart as (c & s' & Htext & _ & Hbracket & _).
    rewrite Htext, Hbracket, <-Htext. unfold text.
    rewrite array_items_encode; [done..|]. simpl in Hfuel. lia.
  - apply plain_object_inv in Hplain as [Hkeys Hplain].
    assert (Forall (λ kv, reads_back kv.2) members) as Hread.
    { rewrite Forall_forall in IH, Hplain |- *. auto. }
    destruct members as [|[key value] members]; [reflexivity|].
    apply Forall_cons in Hread as [Hvalue Hread].
    apply Forall_cons in Hplain as [Hpvalue Hplain]. simpl in Hvalue, Hpvalue.
    rewrite encode_object_cons, !str_assoc, (str_cons "{"), str_nil.
    rewrite scan_once_object, skip_ws_newline_indent.
    match goal with |- context [skip_ws ?t] => set (text := t) end.
    assert (starts_value text) as Hstart.
    { apply starts_value_app. by eexists _, _. }
    rewrite skip_ws_starts_value by done.
    assert (∃ s', text = String quote s') as [s' Htext] by by eexists.
    rewrite Htext. change (quote =? "}")%char with false. cbv iota.
    rewrite <-Htext. unfold text.
    rewrite object_members_encode; [|done..|simpl in Hfuel; lia].
    rewrite as_read_object, fmap_cons, dict_NoDup; [done|].
    change ((read_back key, as_read value)
              :: ((λ kv, (read_back kv.1, as_read kv.2)) <$> members))
      with ((λ kv, (read_back kv.1, as_read kv.2)) <$> (key, value) :: members).
    rewrite <-list_fmap_compose. rewrite <-list_fmap_compose in Hkeys.
    exact Hkeys.
Qed.

(** *** Enough fuel *)

Lemma encode_items_need (items : list json) level separator close :
  Forall (λ v, ∀ level, (json_need v ≤ String.length (encode level v))%nat) items →
  (1 ≤ String.length separator)%nat →
  (foldr (λ x n, S (json_need x + n)) 0 items
   ≤ String.length (encode_items (encode level) separator close items))%nat.
Proof.
  intros Hitems Hsep. induction Hitems as [|x items Hx _ IH]; simpl; [lia|].
  rewrite !str_length_app. specialize (Hx level). lia.
Qed.

Lemma encode_members_need (members : list (string * json)) level separator close :
  Forall (λ kv, ∀ level, (json_need kv.2 ≤ String.length (encode level kv.2))%nat)
    members →
  (1 ≤ String.length separator)%nat →
  (foldr (λ kx n, S (json_need kx.2 + n)) 0 members
   ≤ String.length (encode_members (encode level) separator close members))%nat.
Proof.
  intros Hmembers Hsep.
  induction Hmembers as [|[k x] members Hx _ IH]; simpl; [lia|].
  rewrite !str_length_app. specialize (Hx level). simpl in Hx. lia.
Qed.

Lemma newline_indent_length level : (1 ≤ String.length (newline_indent level))%nat.
Proof. unfold newline_indent, newline. rewrite str_cons. simpl. lia. Qed.

(** The text of a value is at least as long as the decoder goes deep. *)
Lemma encode_need (v : json) :
  plain v → ∀ level, (json_need v ≤ String.length (encode level v))%nat.
Proof.
  induction v as [|b|n|literal|s|items IH|members IH] using json_ind;
    intros Hplain level.
  - simpl. lia.
  - destruct b; simpl; lia.
  - change (encode level (JInt n)) with (pretty n).
    destruct (pretty_Z_head n) as (c & s & -> & _). simpl. lia.
  - inversion Hplain.
  - simpl. lia.
  - apply plain_array_inv in Hplain.
    assert (Forall (λ v, ∀ level,
              (json_need v ≤ String.length (encode level v))%nat) items) as Hitems.
    { rewrite Forall_forall in IH, Hplain |- *. auto. }
    destruct items as [|item items]; [simpl; lia|].
    apply Forall_cons in Hitems as [Hitem Hitems].
    rewrite encode_array_cons, !str_length_app.
    pose proof (encode_items_need items (S level)
                  ("," +:+ newline_indent (S level))
                  (newline_indent level +:+ "]") Hitems) as Hrest.
    specialize (Hitem (S level)). pose proof (newline_indent_length (S level)).
    simpl in Hrest |- *. lia.
  - apply plain_object_inv in Hplain as [_ Hplain].
    assert (Forall (λ kv, ∀ level,
              (json_need kv.2 ≤ String.length (encode level kv.2))%nat) members)
      as Hmembers.
    { rewrite Forall_forall in IH, Hplain |- *. auto. }
    destruct members as [|[key value] members]; [simpl; lia|].
    apply Forall_cons in Hmembers as [Hvalue Hmembers]. simpl in Hvalue.
    rewrite encode_object_cons, !str_length_app.
    pose proof (encode_members_need members (S level)
                  ("," +:+ newline_indent (S level))
                  (newline_indent level +:+ "}") Hmembers) as Hrest.
    specialize (Hvalue (S level)). pose proof (newline_indent_length (S level)).
    simpl in Hrest |- *. lia.
Qed.

(** The output of [dumps] does not start with the byte order mark. *)
Lemma strip_prefix_bom s : starts_value s → strip_prefix (chr 0xfeff) s = None.
Proof.
  intros (c & s' & -> & _ & _ & _ & Hc).
  change (chr 0xfeff) with (String "239" (String "187" (String "191" ""))).
  cbn [strip_prefix]. destruct (Ascii.eqb_spec "239" c) as [<-|]; done.
Qed.

(** [json.loads(json.dumps(v, indent=2))] is [v] as it is read back. *)
Lemma loads_dumps (v : json) : plain v → loads (dumps v) = Some (as_read v).
Proof.
  intros Hplain. unfold loads, dumps.
  rewrite strip_prefix_bom by by apply encode_starts_value.
  rewrite skip_ws_starts_value by by apply encode_starts_value.
  rewrite <-(str_app_nil_r (encode 0%nat v)) at 2.
  rewrite (encode_reads_back v Hplain 0%nat); [done| |done].
  pose proof (encode_need v Hplain 0%nat). lia.
Qed.

(** ** The claims about a discussion *)

Lemma seqZ_1_first (n : Z) (pre post : list Z) :
  seqZ 1 n = pre ++ 1 :: post → pre = [].
Proof.
  destruct pre as [|x pre]; [done|]. intros Hseq. exfalso.
  destruct (decide (0 < n)%Z) as [Hn|Hn].
  - rewrite seqZ_cons in Hseq by done. simpl in Hseq.
    injection Hseq as _ Htail.
    assert (1 ∈ seqZ (Z.succ 1) (Z.pred n)) as Hin
      by (rewrite Htail; apply elem_of_app; right; by left).
    apply elem_of_seqZ in Hin. lia.
  - by rewrite seqZ_nil in Hseq by lia.
Qed.

(** The numbers of the rounds of the record that [discuss] returns. *)
Lemma discuss_round_numbers (invoke : service) (self : Roundtable.t)
    (question : string) (log : list Call.t)
    (d : Discussion.t) (self' : Roundtable.t) (log' : list Call.t) :
  discuss invoke self question log = (Return d, self', log') →
  Round.round_number <$> Discussion.rounds d = seqZ 1 (Roundtable.max_rounds self).
Proof.
  intros Hd.
  apply discuss_spec in Hd as (r0 & calls & tail & Hloop & _ & _ & Hr).
  apply rounds_loop_spec in Hloop as (_ & _ & _ & _ & _ & _ & Hret).
  destruct r0 as [d0|e]; [|by destruct Hr].
  destruct (Hret _ eq_refl) as (_ & _ & Hnums). simpl in Hnums.
  assert (Discussion.rounds d = Discussion.rounds d0) as ->; [|done].
  destruct (Roundtable.moderator_enabled self);
    [destruct (Roundtable.moderator self)|].
  - destruct Hr as (? & [?|] & _ & Hr); by simplify_eq.
  - destruct Hr as [_ Hr]; by simplify_eq.
  - destruct Hr as [_ Hr]; by simplify_eq.
Qed.

(** C4.  With [max_rounds = N >= 1], the record that [discuss] returns has
    exactly [N] rounds, and their numbers are 1, 2, ..., N in this order. *)
Theorem discuss_rounds_numbered (invoke : service) (self : Roundtable.t)
    (question : string) (log : list Call.t)
    (d : Discussion.t) (self' : Roundtable.t) (log' : list Call.t) :
  (1 ≤ Roundtable.max_rounds self)%Z →
  discuss invoke self question log = (Return d, self', log') →
  length (Discussion.rounds d) = Z.to_nat (Roundtable.max_rounds self) ∧
  Round.round_number <$> Discussion.rounds d = seqZ 1 (Roundtable.max_rounds self) ∧
  ∀ (i : nat) round_data,
    Discussion.rounds d !! i = Some round_data →
    Round.round_number round_data = Z.of_nat i + 1.
Proof.
  intros _ Hnums%discuss_round_numbers. split_and!.
  - by rewrite <-(length_fmap Round.round_number), Hnums, length_seqZ.
  - done.
  - intros i round_data Hi.
    assert ((Round.round_number <$> Discussion.rounds d) !! i
            = Some (Round.round_number round_data)) as Hi'
      by by rewrite list_lookup_fmap, Hi.
    rewrite Hnums in Hi'. apply lookup_seqZ in Hi'. lia.
Qed.

Lemma discuss_rounds_numbered_witness :
  ∃ d self' log',
    (1 ≤ Roundtable.max_rounds (table_two 3 false))%Z ∧
    discuss service_named (table_two 3 false) "Why?" [] = (Return d, self', log') ∧
    length (Discussion.rounds d) = 3%nat ∧
    Round.round_number <$> Discussion.rounds d = [1; 2; 3].
Proof.
  do 3 eexists. split; [simpl; lia|]. split; [vm_compute; reflexivity|].
  edestruct (discuss_rounds_numbered service_named (table_two 3 false) "Why?" [])
    as (Hlen & Hnums & _); [simpl; lia | vm_compute; reflexivity |].
  split; [exact Hlen | exact Hnums].
Defined.

(** C3, as the code has it.  The record that [discuss] returns has no
    summary exactly when the moderator is disabled.  When it is enabled, the
    summary is the text the moderator's model answered with, as it is: the
    code does not look at it, and it may be empty.  With [max_rounds >= 1] a
    summary is set exactly when the moderator is enabled and at least one
    round was played. *)
Theorem final_summary_from_moderator (invoke : service) (self : Roundtable.t)
    (question : string) (log : list Call.t)
    (d : Discussion.t) (self' : Roundtable.t) (log' : list Call.t) :
  discuss invoke self question log = (Return d, self', log') →
  (Discussion.final_summary d = None ↔ Roundtable.moderator_enabled self = false) ∧
  (∀ m, Roundtable.moderator_enabled self = true →
        Roundtable.moderator self = Some m →
        ∃ calls prompt summary,
          log' = log ++ calls ++ [Call.mk Summary m prompt (Some summary)] ∧
          Discussion.final_summary d = Some summary) ∧
  ((1 ≤ Roundtable.max_rounds self)%Z →
   (is_Some (Discussion.final_summary d) ↔
    Roundtable.moderator_enabled self = true ∧
    (1 ≤ length (Discussion.rounds d))%nat)).
Proof.
  intros Hd.
  assert ((1 ≤ Roundtable.max_rounds self)%Z → (1 ≤ length (Discussion.rounds d))%nat)
    as Hlen.
  { intros HN. rewrite <-(length_fmap Round.round_number).
    rewrite (discuss_round_numbers _ _ _ _ _ _ _ Hd), length_seqZ. lia. }
  apply discuss_spec in Hd as (r0 & calls & tail & _ & -> & _ & Hr).
  destruct r0 as [d0|e]; [|by destruct Hr].
  destruct (Roundtable.moderator_enabled self);
    [destruct (Roundtable.moderator self) as [m|]|].
  - destruct Hr as (prompt & [summary|] & -> & Hr); simplify_eq. simpl in *.
    split_and!.
    + split; discriminate.
    + intros m' _ [= <-]. by exists calls, prompt, summary.
    + intros HN. split; [by auto | by eauto].
  - destruct Hr as [-> Hr]. simplify_eq. simpl in *. split_and!.
    + split; discriminate.
    + discriminate.
    + intros HN. split; [by auto | by eauto].
  - destruct Hr as [-> Hr]. simplify_eq. simpl. split_and!.
    + done.
    + discriminate.
    + intros _. split; [by intros [? ?] | by intros [? _]].
Qed.

Lemma final_summary_from_moderator_witness :
  ∃ d self' log',
    discuss service_named (table_two 1 true) "Why?" [] = (Return d, self', log') ∧
    (Discussion.final_summary d = None ↔
     Roundtable.moderator_enabled (table_two 1 true) = false).
Proof.
  do 3 eexists. split; [vm_compute; reflexivity|].
  eapply proj1, (final_summary_from_moderator service_named (table_two 1 true) "Why?" []).
  vm_compute; reflexivity.
Defined.

(** C3 as the spec has it fails: a moderator that answers with the empty
    text leaves the empty string as the summary of a discussion with the
    moderator enabled and a round played. *)
Lemma final_summary_may_be_empty :
  ¬ (∀ (invoke : service) self question log d self' log',
       discuss invoke self question log = (Return d, self', log') →
       (populated d ↔
        Roundtable.moderator_enabled self = true ∧
        (1 ≤ length (Discussion.rounds d))%nat)).
Proof.
  intros Hclaim.
  destruct (discuss service_silent_moderator (table_two 1 true) "Why?" [])
    as [[r self'] log'] eqn:Hrun.
  assert (∃ round_data, r = Return (Discussion.mk "Why?" [round_data] (Some "")))
    as [round_data ->].
  { vm_compute in Hrun. injection Hrun as <- _ _. by eexists. }
  destruct (Hclaim _ _ _ _ _ _ _ Hrun) as [_ Hpop].
  destruct Hpop as (summary & Hsum & Hne); [split; [done | simpl; lia]|].
  simpl in Hsum. by simplify_eq.
Qed.

(** C8.  In every call that [discuss] makes for a turn of round 1, the
    context built for the speaker is the empty string. *)
Theorem round1_context_empty (invoke : service) (self : Roundtable.t)
    (question : string) (log : list Call.t)
    (r : result Discussion.t) (self' : Roundtable.t) (log' : list Call.t) :
  discuss invoke self question log = (r, self', log') →
  ∃ calls,
    log' = log ++ calls ∧
    ∀ c speaker context,
      c ∈ calls → Call.source c = Turn 1 speaker context → context = "".
Proof.
  intros Hd.
  apply discuss_spec in Hd as (r0 & calls & tail & Hloop & -> & Htail & _).
  apply rounds_loop_spec in Hloop as (calls' & Hlog & _ & _ & _ & Hturns & _).
  apply app_inv_head in Hlog as <-.
  exists (calls ++ tail). split; [done|].
  intros c speaker context [Hc|Hc]%elem_of_app Hsrc.
  - rewrite Forall_forall in Hturns.
    destruct (Hturns _ Hc) as (p & n & pre & post & rs & _ & Hnums & Hrs & Hsrc').
    rewrite Hsrc in Hsrc'. injection Hsrc' as <- _ ->.
    apply seqZ_1_first in Hnums as ->. by apply fmap_nil_inv in Hrs as ->.
  - rewrite Forall_forall in Htail. by rewrite (Htail _ Hc) in Hsrc.
Qed.

Lemma round1_context_empty_witness :
  ∃ r self' log',
    discuss service_named (table_two 2 false) "Why?" [] = (r, self', log') ∧
    ∃ calls,
      log' = [] ++ calls ∧
      ∀ c speaker context,
        c ∈ calls → Call.source c = Turn 1 speaker context → context = "".
Proof.
  do 3 eexists. split; [vm_compute; reflexivity|].
  eapply (round1_context_empty service_named (table_two 2 false) "Why?" []).
  vm_compute; reflexivity.
Defined.

(** C9.  When [discuss] raises, nothing is undone: every participant has
    the log it had before with the new contributions appended, and every
    contribution that was produced before the failure is in the log of the
    participant that spoke.  So if any turn was answered, the orchestrator
    is left with a participant whose log is not empty, and the next
    [discuss] on it starts from there. *)
Theorem failed_discussion_keeps_logs (invoke : service) (self : Roundtable.t)
    (question : string) (log : list Call.t)
    (e : exn) (self' : Roundtable.t) (log' : list Call.t) :
  discuss invoke self question log = (Raise e, self', log') →
  ∃ calls,
    log' = log ++ calls ∧
    Forall2 extends (Roundtable.participants self) (Roundtable.participants self') ∧
    (∀ c speaker contribution,
       c ∈ calls → spoken c = Some (speaker, contribution) →
       ∃ p, p ∈ Roundtable.participants self' ∧
            Participant.label p = speaker ∧
            contribution ∈ Participant.contributions p) ∧
    (Exists (λ c, is_Some (spoken c)) calls →
     Exists (λ p, Participant.contributions p ≠ []) (Roundtable.participants self')).
Proof.
  intros Hd.
  apply discuss_spec in Hd as (r0 & calls & tail & Hloop & -> & Htail & _).
  apply rounds_loop_spec in Hloop as (calls' & Hlog & _ & Hext & Hlogged & _ & _).
  apply app_inv_head in Hlog as <-.
  assert (∀ c speaker contribution,
            c ∈ calls ++ tail → spoken c = Some (speaker, contribution) →
            ∃ p, p ∈ Roundtable.participants self' ∧
                 Participant.label p = speaker ∧
                 contribution ∈ Participant.contributions p) as Hkept.
  { intros c speaker t [Hc|Hc]%elem_of_app Hs.
    - rewrite Forall_forall in Hlogged. by apply (Hlogged c).
    - rewrite Forall_forall in Htail. unfold spoken in Hs.
      by rewrite (Htail _ Hc) in Hs. }
  exists (calls ++ tail). split_and!; [done | done | done |].
  intros (c & Hc & [[speaker t] Hs])%Exists_exists.
  destruct (Hkept _ _ _ Hc Hs) as (p & Hp & _ & Ht).
  apply Exists_exists. exists p. split; [done|]. intros Hnil.
  rewrite Hnil in Ht. by apply not_elem_of_nil in Ht.
Qed.

Lemma failed_discussion_keeps_logs_witness :
  ∃ e self' log',
    discuss service_breaks (table_two 2 false) "Why?" [] = (Raise e, self', log') ∧
    Participant.contributions <$> Roundtable.participants self'
      = [["A first thought."]; []] ∧
    ∃ calls,
      log' = [] ++ calls ∧
      Forall2 extends (Roundtable.participants (table_two 2 false))
        (Roundtable.participants self') ∧
      (∀ c speaker contribution,
         c ∈ calls → spoken c = Some (speaker, contribution) →
         ∃ p, p ∈ Roundtable.participants self' ∧
              Participant.label p = speaker ∧
              contribution ∈ Participant.contributions p) ∧
      (Exists (λ c, is_Some (spoken c)) calls →
       Exists (λ p, Participant.contributions p ≠ []) (Roundtable.participants self')).
Proof.
  do 3 eexists. split; [vm_compute; reflexivity|]. split; [reflexivity|].
  eapply (failed_discussion_keeps_logs service_breaks (table_two 2 false) "Why?" []).
  vm_compute; reflexivity.
Defined.

(** ** The claims about the context string *)

Lemma elem_of_concat {A} (x : A) (ls : list (list A)) :
  x ∈ concat ls ↔ ∃ l, x ∈ l ∧ l ∈ ls.
Proof.
  induction ls as [|l ls IH]; simpl.
  - split; [by intros ?%not_elem_of_nil | by intros (? & _ & ?%not_elem_of_nil)].
  - rewrite elem_of_app, IH. split.
    + intros [?|(l' & ? & ?)]; [exists l | exists l'];
        (split; [done|]); [by left | by right].
    + intros (l' & ? & [->|?]%elem_of_cons); [by left | right; eauto].
Qed.

(** When the record has rounds, the lines of the other participants in the
    latest of them are appended once more after the lines of all rounds. *)
Lemma context_parts_latest question (rs : list Round.t) (r : Round.t) summary p :
  context_parts (Discussion.mk question (rs ++ [r]) summary) p
  = concat ((λ round_data,
               round_header round_data
                 :: others_lines (Participant.label p) round_data) <$> (rs ++ [r]))
    ++ others_lines (Participant.label p) r.
Proof.
  unfold context_parts. simpl. rewrite last_snoc.
  destruct (0 <? _)%Z eqn:Hlen; [done|].
  destruct (Round.contributions r) as [|c cs] eqn:Hcs; [|done].
  unfold others_lines at 3. rewrite Hcs. simpl. by rewrite app_nil_r.
Qed.

(** C1, at a discussion of two participants and two rounds: the context
    built for Participant 1 in round 2 holds the round-1 contribution of
    Participant 2 twice, not once. *)
Theorem context_round2_repeats :
  Call.source <$> (discuss service_named (table_two 2 false) "Why?" []).2 !! 2%nat
  = Some (Turn 2 "Participant 1" (context_with_repeat "View of beta.")).
Proof. vm_compute. reflexivity. Qed.

(** Every part of the context built for a participant is the header of a
    round of the record or the line of a contribution of the record made
    under another label. *)
Lemma build_context_others (d : Discussion.t) (p : Participant.t) :
  ∃ parts,
    _build_context d p = join newline parts ∧
    ∀ s, s ∈ parts →
      (∃ r, r ∈ Discussion.rounds d ∧ s = round_header r) ∨
      (∃ r c, r ∈ Discussion.rounds d ∧ c ∈ Round.contributions r ∧
              Contribution.participant c ≠ Participant.label p ∧
              s = contrib_line c).
Proof.
  assert (∀ r s, r ∈ Discussion.rounds d →
                 s ∈ others_lines (Participant.label p) r →
                 ∃ c, c ∈ Round.contributions r ∧
                      Contribution.participant c ≠ Participant.label p ∧
                      s = contrib_line c) as Hothers.
  { intros r s _ (c & -> & Hc)%list_elem_of_fmap.
    apply list_elem_of_filter in Hc as [Hne Hc]. eauto. }
  unfold _build_context. destruct (Discussion.rounds d) as [|r0 rs0] eqn:Hrs.
  { exists []. split; [done|]. intros s Hs. by apply not_elem_of_nil in Hs. }
  exists (context_parts d p). split; [done|]. rewrite <-Hrs in *. clear Hrs.
  assert (∀ s, s ∈ concat ((λ round_data,
                   round_header round_data
                     :: others_lines (Participant.label p) round_data)
                  <$> Discussion.rounds d) →
            (∃ r, r ∈ Discussion.rounds d ∧ s = round_header r) ∨
            (∃ r c, r ∈ Discussion.rounds d ∧ c ∈ Round.contributions r ∧
                    Contribution.participant c ≠ Participant.label p ∧
                    s = contrib_line c)) as Hall.
  { intros s (l & Hs & (r & -> & Hr)%list_elem_of_fmap)%elem_of_concat.
    apply elem_of_cons in Hs as [->|Hs]; [left; eauto|].
    right. destruct (Hothers _ _ Hr Hs) as (c & ? & ? & ?). eauto 6. }
  intros s Hs. unfold context_parts in Hs.
  destruct (last (Discussion.rounds d)) as [latest|] eqn:Hlast; [|by apply Hall].
  destruct (0 <? _)%Z; [|by apply Hall].
  apply elem_of_app in Hs as [Hs|Hs]; [by apply Hall|].
  right. apply last_Some in Hlast as [rs Hlast].
  assert (latest ∈ Discussion.rounds d) as Hr
    by (rewrite Hlast; apply elem_of_app; right; by left).
  destruct (Hothers _ _ Hr Hs) as (c & ? & ? & ?). eauto 6.
Qed.

(** C2.  In every call that [discuss] makes for a turn, the context of the
    speaker is made of round headers and of lines of contributions that were
    spoken in this discussion under a label other than the speaker's: what
    was recorded under the speaker's own label is left out, whatever round
    it is from. *)
Theorem context_excludes_own_label (invoke : service) (self : Roundtable.t)
    (question : string) (log : list Call.t)
    (r : result Discussion.t) (self' : Roundtable.t) (log' : list Call.t) :
  discuss invoke self question log = (r, self', log') →
  ∃ calls,
    log' = log ++ calls ∧
    ∀ c n speaker context,
      c ∈ calls → Call.source c = Turn n speaker context →
      ∃ parts,
        context = join newline parts ∧
        ∀ s, s ∈ parts →
          (∃ round_data, s = round_header round_data) ∨
          (∃ contrib,
             spoken_in calls contrib ∧
             Contribution.participant contrib ≠ speaker ∧
             s = contrib_line contrib).
Proof.
  intros Hd.
  apply discuss_spec in Hd as (r0 & calls & tail & Hloop & -> & Htail & _).
  apply rounds_loop_sources in Hloop as (calls' & Hlog & Hsrc).
  apply app_inv_head in Hlog as <-.
  exists (calls ++ tail). split; [done|].
  intros c n speaker context [Hc|Hc]%elem_of_app Hturn.
  2:{ rewrite Forall_forall in Htail. by rewrite (Htail _ Hc) in Hturn. }
  rewrite Forall_forall in Hsrc.
  destruct (Hsrc _ Hc) as (p & m & rs & Hturn' & Hrs).
  rewrite Hturn in Hturn'. injection Hturn' as _ -> ->. simpl.
  destruct (build_context_others (Discussion.mk question rs None) p)
    as (parts & Hparts & Hall).
  exists parts. split; [done|].
  intros s Hs. destruct (Hall _ Hs) as [(round_data & _ & ->)|Hline]; [by eauto|].
  destruct Hline as (round_data & contrib & Hr & Hcontrib & Hne & ->). simpl in Hr.
  right. exists contrib. split_and!; [|done..].
  rewrite Forall_forall in Hrs. specialize (Hrs _ Hr).
  rewrite Forall_forall in Hrs. by apply spoken_in_app_l, Hrs.
Qed.

Lemma context_excludes_own_label_witness :
  ∃ r self' log',
    discuss service_same (table_two 2 false) "Why?" [] = (r, self', log') ∧
    ∃ calls,
      log' = [] ++ calls ∧
      ∀ c n speaker context,
        c ∈ calls → Call.source c = Turn n speaker context →
        ∃ parts,
          context = join newline parts ∧
          ∀ s, s ∈ parts →
            (∃ round_data, s = round_header round_data) ∨
            (∃ contrib,
               spoken_in calls contrib ∧
               Contribution.participant contrib ≠ speaker ∧
               s = contrib_line contrib).
Proof.
  do 3 eexists. split; [vm_compute; reflexivity|].
  eapply (context_excludes_own_label service_same (table_two 2 false) "Why?" []).
  vm_compute; reflexivity.
Defined.

(** ** The claims about export *)

(** C5 as the spec has it fails: a format that is none of the three is not
    refused, the record is exported as text. *)
Lemma export_unknown_format_returns :
  ¬ (∀ (d : Discussion.t) (format : string),
       format ∉ ["markdown"; "text"; "json"] →
       ∃ e, export_discussion d format = Raise e).
Proof.
  intros Hclaim.
  destruct (Hclaim (Discussion.mk "Why?" [] None) "xml") as [e He];
    [by apply (bool_decide_unpack _) | discriminate].
Qed.

(** C5, as the code has it.  [export_discussion] never raises: a format
    that is neither "markdown" nor "json", be it "text" or anything else,
    gives the plain-text export. *)
Theorem export_other_format_is_text (d : Discussion.t) (format : string) :
  format ≠ "markdown" → format ≠ "json" →
  export_discussion d format = Return (_export_text d).
Proof.
  intros Hmd Hjson. unfold export_discussion.
  destruct (String.eqb_spec format "markdown"); [done|].
  by destruct (String.eqb_spec format "json").
Qed.

Lemma export_other_format_is_text_witness :
  "xml" ≠ "markdown" ∧ "xml" ≠ "json" ∧
  export_discussion (Discussion.mk "Why?" [] None) "xml"
    = Return (_export_text (Discussion.mk "Why?" [] None)).
Proof.
  split; [discriminate|]. split; [discriminate|].
  apply export_other_format_is_text; discriminate.
Defined.

Lemma contribution_dict_plain contrib : plain (contribution_dict contrib).
Proof.
  constructor.
  - by apply (bool_decide_unpack _).
  - repeat (apply List.Forall_cons; [constructor|]). apply List.Forall_nil.
Qed.

Lemma round_dict_plain round_data : plain (round_dict round_data).
Proof.
  constructor.
  - by apply (bool_decide_unpack _).
  - apply List.Forall_cons; [constructor|].
    apply List.Forall_cons; [|apply List.Forall_nil].
    simpl. constructor. apply Forall_fmap, Forall_forall. intros contrib _.
    apply contribution_dict_plain.
Qed.

Lemma discussion_dict_plain discussion : plain (discussion_dict discussion).
Proof.
  constructor.
  - by apply (bool_decide_unpack _).
  - apply List.Forall_cons; [constructor|].
    apply List.Forall_cons; [|apply List.Forall_cons; [|apply List.Forall_nil]]; simpl.
    + constructor. apply Forall_fmap, Forall_forall. intros round_data _.
      apply round_dict_plain.
    + destruct (Discussion.final_summary discussion); constructor.
Qed.

(** The dicts of the export as they are read back: the keys are kept. *)
Lemma as_read_contribution_dict contrib :
  as_read (contribution_dict contrib)
  = JObject [("participant", JString (read_back (Contribution.participant contrib)));
             ("model", JString (read_back (Contribution.model contrib)));
             ("text", JString (read_back (Contribution.text contrib)))].
Proof. reflexivity. Qed.

Lemma as_read_round_dict round_data :
  as_read (round_dict round_data)
  = JObject [("round_number", JInt (Round.round_number round_data));
             ("contributions",
              JArray (as_read <$>
                      (contribution_dict <$> Round.contributions round_data)))].
Proof. reflexivity. Qed.

Lemma as_read_discussion_dict discussion :
  as_read (discussion_dict discussion)
  = JObject [("question", JString (read_back (Discussion.question discussion)));
             ("rounds",
              JArray (as_read <$> (round_dict <$> Discussion.rounds discussion)));
             ("final_summary",
              match Discussion.final_summary discussion with
              | Some summary => JString (read_back summary)
              | None => JNull
              end)].
Proof.
  unfold discussion_dict. destruct (Discussion.final_summary discussion); reflexivity.
Qed.

(** C7 as the spec has it fails: a [str] may hold a high surrogate directly
    followed by a low surrogate; the export writes the escapes of the two,
    which are read back as the one character of the pair, so that the
    question that is read back is not the question of the record. *)
Lemma export_json_joins_surrogates :
  ¬ (∀ d : Discussion.t,
       is_str (Discussion.question d) = true →
       ∃ s v,
         export_discussion d "json" = Return s ∧
         loads s = Some v ∧
         json_get "question" v = Some (JString (Discussion.question d))).
Proof.
  intros Hclaim.
  destruct (Hclaim (Discussion.mk (chr 0xd83d +:+ chr 0xde00) [] None))
    as (s & v & Hs & Hv & Hq); [by vm_compute|].
  injection Hs as <-. vm_compute in Hv. injection Hv as <-.
  vm_compute in Hq. discriminate.
Qed.

(** C7, as the code has it.  The json export of every record is read back
    by [json.loads] as a dict with, under "rounds", a list of as many dicts
    as the record has rounds, each with a list under "contributions" that
    is as long as the contributions of its round, and under "question" the
    question of the record with every high surrogate that is directly
    followed by a low surrogate joined with it into one character: the
    question itself when it has no such pair, as no text in well-formed
    Unicode has. *)
Theorem export_json_reads_back (d : Discussion.t) :
  ∃ s v question rounds,
    export_discussion d "json" = Return s ∧
    loads s = Some v ∧
    json_get "question" v = Some (JString question) ∧
    question = read_back (Discussion.question d) ∧
    (well_formed (Discussion.question d) = true →
     question = Discussion.question d) ∧
    json_get "rounds" v = Some (JArray rounds) ∧
    length rounds = length (Discussion.rounds d) ∧
    Forall2 (λ round_value round_data,
               ∃ contributions,
                 json_get "contributions" round_value = Some (JArray contributions) ∧
                 length contributions = length (Round.contributions round_data))
      rounds (Discussion.rounds d).
Proof.
  exists (dumps (discussion_dict d)), (as_read (discussion_dict d)),
         (read_back (Discussion.question d)),
         (as_read <$> (round_dict <$> Discussion.rounds d)).
  split_and!.
  - done.
  - apply loads_dumps, discussion_dict_plain.
  - by rewrite as_read_discussion_dict.
  - done.
  - intros Hq. by apply read_back_well_formed.
  - by rewrite as_read_discussion_dict.
  - by rewrite !length_fmap.
  - apply Forall2_fmap_l, Forall2_fmap_l, Forall_Forall2_diag, Forall_forall.
    intros round_data _.
    exists (as_read <$> (contribution_dict <$> Round.contributions round_data)).
    split; [by rewrite as_read_round_dict|]. by rewrite !length_fmap.
Qed.

Lemma export_json_reads_back_witness :
  ∃ s v rounds,
    export_discussion record_unicode "json" = Return s ∧
    loads s = Some v ∧
    json_get "question" v = Some (JString (Discussion.question record_unicode)) ∧
    json_get "rounds" v = Some (JArray rounds) ∧
    length rounds = 2%nat.
Proof.
  destruct (export_json_reads_back record_unicode)
    as (s & v & question & rounds & Hs & Hv & Hq & _ & Hsame & Hr & Hlen & _).
  exists s, v, rounds. split_and!; [done|done| |done|done].
  rewrite Hq. f_equal. f_equal. apply Hsame. vm_compute. reflexivity.
Defined.

(** * Further properties *)

(** ** llm.py *)

(** X1.  [get_llm_client] raises exactly when it is given no key (or the
    empty string) and DEFAULT_API_KEY is unset or empty. *)
Theorem get_llm_client_raises_iff (env : environ)
    (model api_key base_url : option string) (temperature : float)
    (max_tokens seed : option Z) :
  (∃ e, get_llm_client env model api_key base_url temperature max_tokens seed
        = Raise e)
  ↔ truthy api_key = false ∧ truthy (getenv env "DEFAULT_API_KEY") = false.
Proof.
  unfold get_llm_client, or_opt.
  destruct (truthy api_key) eqn:Hk; simpl.
  - rewrite Hk. simpl. split; [by intros [e ?] | by intros [? _]].
  - destruct (truthy (getenv env "DEFAULT_API_KEY")) eqn:Hd; simpl.
    + split; [by intros [e ?] | by intros [_ ?]].
    + split; [done | eauto].
Qed.

Lemma or_opt_same (o : option string) : or_opt o o = o.
Proof. unfold or_opt. by destruct (truthy o). Qed.

Lemma or_str_same (s : string) : or_str (Some s) s = s.
Proof. by destruct s. Qed.

(** X2.  When MODERATOR_MODEL or MODERATOR_API_KEY is missing, the moderator
    is the default client: a moderator model named without a key is not
    used, and neither is MODERATOR_BASE_URL. *)
Theorem moderator_falls_back_to_default (env : environ) (temperature : float) :
  truthy (getenv env "MODERATOR_MODEL") && truthy (getenv env "MODERATOR_API_KEY")
    = false →
  get_moderator_llm env None None None temperature
  = get_llm_client env None None None temperature None None.
Proof.
  intros Hpair. unfold get_moderator_llm, or_opt at 1 2. simpl.
  rewrite <-negb_andb, Hpair. simpl.
  unfold get_llm_client. rewrite or_opt_same, !or_str_same. done.
Qed.

Lemma moderator_falls_back_to_default_witness :
  truthy (getenv env_moderator_without_key "MODERATOR_MODEL")
    && truthy (getenv env_moderator_without_key "MODERATOR_API_KEY") = false ∧
  get_moderator_llm env_moderator_without_key None None None 0.5%float
  = get_llm_client env_moderator_without_key None None None 0.5%float None None ∧
  get_moderator_llm env_moderator_without_key None None None 0.5%float
  = Return (ChatOpenAI.mk "gpt-4o" "key-0" "https://api.openai.com/v1" 0.5%float
              None None).
Proof.
  split; [reflexivity|]. split; [|reflexivity].
  apply moderator_falls_back_to_default. reflexivity.
Defined.

(** X3.  When MODERATOR_MODEL and MODERATOR_API_KEY are both set, the
    moderator client has them whatever the defaults are, and it is made
    without error; its base URL is MODERATOR_BASE_URL, or the default base
    URL when that one is unset or empty. *)
Theorem moderator_from_own_settings (env : environ) (temperature : float)
    (model key : string) :
  getenv env "MODERATOR_MODEL" = Some model → model ≠ "" →
  getenv env "MODERATOR_API_KEY" = Some key → key ≠ "" →
  get_moderator_llm env None None None temperature
  = Return (ChatOpenAI.mk model key
              (or_str (getenv env "MODERATOR_BASE_URL")
                 (getenv_default env "DEFAULT_BASE_URL" "https://api.openai.com/v1"))
              temperature None None).
Proof.
  intros Hm Hmne Hk Hkne. unfold get_moderator_llm, or_opt at 1 2 3. simpl.
  rewrite Hm, Hk. destruct model as [|a model]; [done|].
  destruct key as [|b key]; [done|]. simpl.
  unfold get_llm_client, or_opt. simpl.
  by destruct (truthy (getenv env "MODERATOR_BASE_URL")).
Qed.

Lemma moderator_from_own_settings_witness :
  getenv env_two "MODERATOR_MODEL" = Some "gamma" ∧ "gamma" ≠ "" ∧
  getenv env_two "MODERATOR_API_KEY" = Some "key-3" ∧ "key-3" ≠ "" ∧
  get_moderator_llm env_two None None None 0.5%float
  = Return (ChatOpenAI.mk "gamma" "key-3"
              (or_str (getenv env_two "MODERATOR_BASE_URL")
                 (getenv_default env_two "DEFAULT_BASE_URL"
                    "https://api.openai.com/v1"))
              0.5%float None None).
Proof.
  split; [reflexivity|]. split; [discriminate|].
  split; [reflexivity|]. split; [discriminate|].
  apply moderator_from_own_settings; [reflexivity | discriminate | reflexivity
                                     | discriminate].
Defined.

(** What the numbered loop gives: the entries of the indices it has passed,
    all of them configured, up to the first index that is not. *)
Lemma participants_loop_result (env : environ) (fuel : nat) (i : Z)
    (acc ps : list Config.t) :
  participants_loop env fuel i acc = Some ps →
  ∃ n : nat,
    ps = acc ++ (numbered_config env <$> seqZ i (Z.of_nat n)) ∧
    (∀ j, (i ≤ j < i + Z.of_nat n)%Z → numbered env j = true) ∧
    numbered env (i + Z.of_nat n) = false.
Proof.
  revert i acc. induction fuel as [|fuel IH]; intros i acc Hloop; [done|].
  simpl in Hloop. fold (numbered_config env i) in Hloop.
  destruct (numbered env i) eqn:Hi; unfold numbered in Hi.
  - rewrite <-negb_andb, Hi in Hloop. simpl in Hloop.
    apply IH in Hloop as (n & -> & Hall & Hstop). exists (S n). split_and!.
    + rewrite <-app_assoc. f_equal.
      rewrite Nat2Z.inj_succ, (seqZ_cons i) by lia. simpl.
      by rewrite Z.pred_succ, <-Z.add_1_r.
    + intros j Hj. destruct (decide (j = i)) as [->|Hne]; [done|].
      apply Hall. lia.
    + replace (i + Z.of_nat (S n))%Z with (i + 1 + Z.of_nat n)%Z by lia. done.
  - rewrite <-negb_andb, Hi in Hloop. simpl in Hloop. simplify_eq.
    exists 0%nat. rewrite app_nil_r, Z.add_0_r. split_and!; [done | lia | done].
Qed.

(** The two ways [get_participant_models] ends: with the numbered
    participants up to the first gap, or, when number 1 is missing, with the
    default participant if there is one. *)
Lemma participants_cases (env : environ) :
  (numbered env 1 = true ∧
   ∃ n : nat,
     (0 < n)%nat ∧
     get_participant_models env = numbered_config env <$> seqZ 1 (Z.of_nat n) ∧
     (∀ j, (1 ≤ j ≤ Z.of_nat n)%Z → numbered env j = true) ∧
     numbered env (Z.of_nat n + 1) = false)
  ∨ (numbered env 1 = false ∧ get_participant_models env = default_participant env).
Proof.
  destruct (numbered env 1) eqn:Hfirst; [left | right]; (split; [done|]).
  - unfold get_participant_models.
    destruct (participants_loop_breaks env 1 []) as [ps Hloop]. rewrite Hloop.
    apply participants_loop_result in Hloop as (n & -> & Hall & Hstop).
    rewrite app_nil_l. destruct n as [|n].
    { change (1 + Z.of_nat 0)%Z with 1%Z in Hstop. congruence. }
    exists (S n). split_and!.
    + lia.
    + rewrite (seqZ_cons 1) by lia. done.
    + intros j Hj. apply Hall. lia.
    + by rewrite Z.add_comm.
  - unfold get_participant_models. simpl.
    unfold numbered in Hfirst. rewrite <-negb_andb, Hfirst. done.
Qed.

(** X4.  When MODEL1 and API_KEY1 are set, the participants are those of the
    numbers 1, 2, ..., n, in this order, where n + 1 is the first number
    whose model or key is missing: a number after a gap is not reached. *)
Theorem participants_numbered_prefix (env : environ) :
  numbered env 1 = true →
  ∃ n : nat,
    (0 < n)%nat ∧
    get_participant_models env = numbered_config env <$> seqZ 1 (Z.of_nat n) ∧
    (∀ j, (1 ≤ j ≤ Z.of_nat n)%Z → numbered env j = true) ∧
    numbered env (Z.of_nat n + 1) = false.
Proof.
  intros Hfirst. destruct (participants_cases env) as [[_ ?]|[? _]];
    [done | congruence].
Qed.

Lemma participants_numbered_prefix_witness :
  numbered env_gap 1 = true ∧
  ∃ n : nat,
    (0 < n)%nat ∧
    get_participant_models env_gap = numbered_config env_gap <$> seqZ 1 (Z.of_nat n) ∧
    (∀ j, (1 ≤ j ≤ Z.of_nat n)%Z → numbered env_gap j = true) ∧
    numbered env_gap (Z.of_nat n + 1) = false.
Proof. split; [reflexivity|]. apply participants_numbered_prefix. reflexivity. Defined.

(** X5.  When MODEL1 or API_KEY1 is missing, the numbered settings are not
    looked at any further: the participants are the default one alone,
    labelled "Participant 1", when DEFAULT_MODEL and DEFAULT_API_KEY are
    set, and none otherwise. *)
Theorem participants_without_first (env : environ) :
  numbered env 1 = false →
  get_participant_models env
  = if truthy (getenv env "DEFAULT_MODEL") && truthy (getenv env "DEFAULT_API_KEY")
    then [Config.mk (default "" (getenv env "DEFAULT_MODEL"))
            (default "" (getenv env "DEFAULT_API_KEY"))
            (getenv_default env "DEFAULT_BASE_URL" "https://api.openai.com/v1")
            "Participant 1"]
    else [].
Proof.
  intros Hfirst. destruct (participants_cases env) as [[? _]|[_ ->]];
    [congruence | done].
Qed.

Lemma participants_without_first_witness :
  numbered env_no_first 1 = false ∧
  get_participant_models env_no_first
  = [Config.mk "omega" "key-0" "https://api.openai.com/v1" "Participant 1"].
Proof.
  split; [reflexivity|].
  rewrite participants_without_first by reflexivity. reflexivity.
Defined.

(** X6.  No participant is resolved exactly when MODEL1 or API_KEY1 is
    missing and DEFAULT_MODEL or DEFAULT_API_KEY is missing too. *)
Theorem participants_empty_iff (env : environ) :
  get_participant_models env = []
  ↔ numbered env 1 = false ∧
    truthy (getenv env "DEFAULT_MODEL") && truthy (getenv env "DEFAULT_API_KEY")
      = false.
Proof.
  destruct (participants_cases env) as [[Hfirst (n & Hn & -> & _)]|[Hfirst ->]];
    rewrite Hfirst.
  - split; [|by intros [? _]].
    destruct n; [lia|]. rewrite (seqZ_cons 1) by lia. done.
  - unfold default_participant.
    destruct (truthy _ && truthy _); split; try done. by intros [_ ?].
Qed.

(** Every entry has a model name and a key that are not empty. *)
Lemma participants_have_keys (env : environ) (config : Config.t) :
  config ∈ get_participant_models env →
  truthy (Some (Config.name config)) = true ∧
  truthy (Some (Config.api_key config)) = true.
Proof.
  assert (∀ o, truthy o = true → truthy (Some (default "" o)) = true) as Hdef.
  { by intros [[|??]|]. }
  destruct (participants_cases env) as [[_ (n & _ & -> & Hall & _)]|[_ ->]].
  - intros (j & -> & Hj%elem_of_seqZ)%list_elem_of_fmap.
    specialize (Hall j ltac:(lia)). unfold numbered in Hall.
    apply andb_true_iff in Hall as [Hm Hk].
    unfold numbered_config. cbn [Config.name Config.api_key]. auto.
  - unfold default_participant.
    destruct (truthy (getenv env "DEFAULT_MODEL")) eqn:Hm;
      destruct (truthy (getenv env "DEFAULT_API_KEY")) eqn:Hk;
      cbn [andb]; intros Hin;
      try (by apply not_elem_of_nil in Hin).
    apply list_elem_of_singleton in Hin as ->.
    cbn [Config.name Config.api_key]. auto.
Qed.

(** ** Roundtable.__init__ *)

Lemma initialize_loop_ok (env : environ) (temperature : float)
    (configs : list Config.t) (acc : list Participant.t) :
  Forall (λ config, truthy (Some (Config.name config)) = true ∧
                    truthy (Some (Config.api_key config)) = true) configs →
  initialize_loop env temperature configs acc
  = Return (acc ++ (participant_of env temperature <$> configs)).
Proof.
  intros Hvalid. revert acc.
  induction Hvalid as [|config configs [Hname Hkey] _ IH]; intros acc; simpl.
  { by rewrite app_nil_r. }
  unfold get_llm_client, or_opt. rewrite !Hkey. cbn [negb default].
  rewrite IH, <-app_assoc. unfold participant_of.
  by destruct (Config.name config) as [|a name].
Qed.

(** X7.  [_initialize_participants] does not raise: every entry of
    [get_participant_models] has a key.  It gives one participant for each
    entry, in the same order, with the name and the label of the entry, a
    client for that model and key, and an empty log; an empty base URL is
    replaced by the default base URL. *)
Theorem initialize_participants_ok (env : environ) (temperature : float) :
  _initialize_participants env temperature
  = Return (participant_of env temperature <$> get_participant_models env).
Proof.
  unfold _initialize_participants. rewrite initialize_loop_ok; [done|].
  apply Forall_forall. intros config. apply participants_have_keys.
Qed.

Lemma get_moderator_llm_returns_iff (env : environ) (temperature : float) :
  (∃ m, get_moderator_llm env None None None temperature = Return m)
  ↔ truthy (getenv env "MODERATOR_MODEL") && truthy (getenv env "MODERATOR_API_KEY")
      = true
    ∨ truthy (getenv env "DEFAULT_API_KEY") = true.
Proof.
  unfold get_moderator_llm, get_llm_client, or_opt. cbn [truthy].
  destruct (truthy (getenv env "MODERATOR_MODEL")) eqn:Hm;
    destruct (truthy (getenv env "MODERATOR_API_KEY")) eqn:Hk;
    destruct (truthy (getenv env "DEFAULT_API_KEY")) eqn:Hd;
    cbn [negb orb andb]; rewrite ?Hk, ?Hd; cbn [negb];
    split; try (by intros [? ?]); try (by intros [?|?]); eauto.
Qed.

Lemma init_unfold (env : environ) (available_tools : option (list Tool.t))
    (max_rounds : Z) (temperature : float) (moderator_enabled tools_enabled : bool)
    (log : list Call.t) :
  __init__ env available_tools max_rounds temperature moderator_enabled
    tools_enabled log
  = match
      (if moderator_enabled
       then match get_moderator_llm env None None None 0x1.3333333333333p-2%float with
            | Return m => Return (Some m)
            | Raise e => Raise e
            end
       else Return None)
    with
    | Raise e => (Raise e, log)
    | Return moderator =>
        match participant_of env temperature <$> get_participant_models env with
        | [] =>
            (Raise (ValueError
               "No participants configured. Set MODEL1, API_KEY1, etc. in .env"),
             log)
        | participants =>
            (Return (Roundtable.mk max_rounds temperature moderator_enabled
                       tools_enabled participants moderator
                       (if tools_enabled then available_tools else None)),
             log)
        end
    end.
Proof.
  unfold __init__, _initialize_participants. rewrite initialize_loop_ok.
  - rewrite app_nil_l.
    destruct (if moderator_enabled then _ else _); [|done].
    by destruct (participant_of env temperature <$> get_participant_models env).
  - apply Forall_forall. intros config. apply participants_have_keys.
Qed.

(** X8.  The constructor returns an orchestrator exactly when at least one
    participant is resolved and, if the moderator is enabled, a key for it
    is at hand: MODERATOR_MODEL with MODERATOR_API_KEY, or DEFAULT_API_KEY.
    Tools never make it fail. *)
Theorem init_returns_iff (env : environ) (available_tools : option (list Tool.t))
    (max_rounds : Z) (temperature : float) (moderator_enabled tools_enabled : bool)
    (log : list Call.t) :
  (∃ self,
     __init__ env available_tools max_rounds temperature moderator_enabled
       tools_enabled log = (Return self, log))
  ↔ get_participant_models env ≠ [] ∧
    (moderator_enabled = true →
     truthy (getenv env "MODERATOR_MODEL") && truthy (getenv env "MODERATOR_API_KEY")
       = true
     ∨ truthy (getenv env "DEFAULT_API_KEY") = true).
Proof.
  rewrite init_unfold.
  pose proof (get_moderator_llm_returns_iff env 0x1.3333333333333p-2%float) as Hmod.
  destruct (get_participant_models env) as [|config configs] eqn:Hconfigs.
  - split; [|by intros [? _]]. intros [self Hself].
    destruct (if moderator_enabled then _ else _); simpl in Hself; done.
  - destruct moderator_enabled.
    + destruct (get_moderator_llm env None None None _) as [m|e].
      * split; [|by eauto]. intros _. split; [done|]. intros _.
        apply Hmod. eauto.
      * split; [by intros [? ?]|]. intros [_ Hkey].
        apply Hmod in Hkey as [m ?]; done.
    + split; [|by eauto]. intros _. split; [done|]. done.
Qed.

(** X9.  What the constructor returns: the participants of the
    configuration in their order, at least one, with pairwise distinct
    labels and empty logs; a moderator client exactly when the moderator is
    enabled; the tools only when they are enabled; and no model was called. *)
Theorem init_builds (env : environ) (available_tools : option (list Tool.t))
    (max_rounds : Z) (temperature : float) (moderator_enabled tools_enabled : bool)
    (log : list Call.t) (self : Roundtable.t) (log' : list Call.t) :
  __init__ env available_tools max_rounds temperature moderator_enabled
    tools_enabled log = (Return self, log') →
  log' = log ∧
  Roundtable.participants self
    = participant_of env temperature <$> get_participant_models env ∧
  Roundtable.participants self ≠ [] ∧
  NoDup (Participant.label <$> Roundtable.participants self) ∧
  Forall (λ p, Participant.contributions p = []) (Roundtable.participants self) ∧
  Roundtable.max_rounds self = max_rounds ∧
  Roundtable.moderator_enabled self = moderator_enabled ∧
  (is_Some (Roundtable.moderator self) ↔ moderator_enabled = true) ∧
  Roundtable.tools self = (if tools_enabled then available_tools else None).
Proof.
  rewrite init_unfold. intros Hinit.
  assert (NoDup (Participant.label <$>
            (participant_of env temperature <$> get_participant_models env)))
    as Hlabels.
  { rewrite <-list_fmap_compose.
    destruct (get_participant_models_labels env) as [n Hn].
    change (Participant.label ∘ participant_of env temperature) with Config.label.
    rewrite Hn. apply (NoDup_fmap_2 label_of), NoDup_seqZ. }
  assert (Forall (λ p, Participant.contributions p = [])
            (participant_of env temperature <$> get_participant_models env))
    as Hlogs.
  { apply Forall_fmap, Forall_forall. done. }
  destruct (participant_of env temperature <$> get_participant_models env)
    as [|p ps] eqn:Hps.
  { destruct (if moderator_enabled then _ else _); done. }
  destruct moderator_enabled.
  - destruct (get_moderator_llm env None None None _) as [m|e]; [|done].
    simplify_eq. simpl. split_and!; try done; eauto.
  - simplify_eq. simpl. split_and!; try done; try (by intros [? ?]).
Qed.

Lemma init_builds_witness :
  ∃ self log',
    __init__ env_two None 2 0.5%float true false [] = (Return self, log') ∧
    log' = [] ∧
    Participant.label <$> Roundtable.participants self
      = ["Participant 1"; "Participant 2"] ∧
    is_Some (Roundtable.moderator self).
Proof.
  do 2 eexists. split; [vm_compute; reflexivity|].
  edestruct (init_builds env_two None 2 0.5%float true false [])
    as (Hlog & _ & _ & _ & _ & _ & _ & Hmod & _); [vm_compute; reflexivity|].
  split; [exact Hlog|]. split; [reflexivity|]. by apply Hmod.
Defined.

(** ** Roundtable.discuss: rounds, record and logs *)

Section RunMore.
Variable invoke : service.
Implicit Types (self : Roundtable.t) (d : Discussion.t) (p : Participant.t)
  (log calls : list Call.t) (n : Z).

(** A round that is played to its end: one answer for each participant, in
    the order of the participants, written to the round, to the log of the
    participant and to the call log. *)
Lemma conduct_loop_return self n d (seen todo : list Participant.t)
    (contributions cs : list Contribution.t) log ps log' :
  conduct_loop invoke self n d seen todo contributions log = (Return cs, ps, log') →
  ∃ texts calls,
    length texts = length todo ∧
    cs = contributions ++ zip_with contribution_of todo texts ∧
    ps = seen ++ zip_with with_contribution todo texts ∧
    log' = log ++ calls ∧
    Forall answered calls ∧
    omap turn_entry calls
      = zip_with (λ p text, (n, Participant.label p, text)) todo texts ∧
    length calls = length todo.
Proof.
  revert seen contributions log cs ps log'.
  induction todo as [|p todo IH]; intros seen contributions log cs ps log' Hloop;
    simpl in Hloop.
  { simplify_eq. exists [], []. by rewrite !app_nil_r. }
  destruct (invoke log (Participant.llm p) _) as [t|] eqn:Hresp; [|done].
  apply IH in Hloop as (texts & calls & Hlen & -> & -> & -> & Hans & Hent & Hcalls).
  eexists (t :: texts), (_ :: calls). split_and!.
  - simpl. by rewrite Hlen.
  - by rewrite <-app_assoc.
  - by rewrite <-app_assoc.
  - by rewrite <-app_assoc.
  - constructor; [|done]. unfold answered. simpl. eauto.
  - cbn [zip_with]. rewrite <-Hent. reflexivity.
  - simpl. by rewrite Hcalls.
Qed.

(** A round that is broken off: the calls before the last were answered,
    the last one raised, and the error is that of the call. *)
Lemma conduct_loop_raise self n d (seen todo : list Participant.t)
    (contributions : list Contribution.t) log e ps log' :
  conduct_loop invoke self n d seen todo contributions log = (Raise e, ps, log') →
  e = InvokeError ∧
  ∃ calls c,
    log' = log ++ calls ++ [c] ∧ Forall answered calls ∧ Call.response c = None.
Proof.
  revert seen contributions log e ps log'.
  induction todo as [|p todo IH]; intros seen contributions log e ps log' Hloop;
    simpl in Hloop; [done|].
  destruct (invoke log (Participant.llm p) _) as [t|] eqn:Hresp.
  - apply IH in Hloop as (-> & calls & c & -> & Hans & Hc). split; [done|].
    eexists (_ :: calls), c. split_and!; [by rewrite <-app_assoc | | done].
    constructor; [|done]. unfold answered. simpl. eauto.
  - simplify_eq. split; [done|]. eexists [], _. by split_and!.
Qed.

Lemma zip_with_contribution_labels (ps : list Participant.t) (texts : list string) :
  length texts = length ps →
  Contribution.participant <$> zip_with contribution_of ps texts
    = Participant.label <$> ps ∧
  Contribution.model <$> zip_with contribution_of ps texts
    = Participant.name <$> ps ∧
  Participant.label <$> zip_with with_contribution ps texts
    = Participant.label <$> ps ∧
  Participant.name <$> zip_with with_contribution ps texts
    = Participant.name <$> ps ∧
  length (zip_with with_contribution ps texts) = length ps.
Proof.
  revert texts. induction ps as [|p ps IH]; intros [|t texts] Hlen;
    simplify_eq/=; [done|].
  destruct (IH texts) as (-> & -> & -> & -> & ->); done.
Qed.

Lemma zip_with_lookup_participant (ps : list Participant.t) (texts : list string)
    (i : nat) p :
  length texts = length ps → ps !! i = Some p →
  ∃ text,
    zip_with with_contribution ps texts !! i = Some (with_contribution p text) ∧
    zip_with contribution_of ps texts !! i = Some (contribution_of p text).
Proof.
  revert texts i. induction ps as [|q ps IH]; intros [|t texts] [|i] Hlen Hi;
    simplify_eq/=; eauto.
Qed.

Lemma round_entries_zip n (ps : list Participant.t) (texts : list string) :
  round_entries (Round.mk n (zip_with contribution_of ps texts))
  = zip_with (λ p text, (n, Participant.label p, text)) ps texts.
Proof.
  unfold round_entries. simpl. revert texts.
  induction ps as [|p ps IH]; intros [|t texts]; simpl; [done..|].
  by rewrite IH.
Qed.

(** The rounds loop played to its end. *)
Lemma rounds_loop_return self d (nums : list Z) log d' self' log' :
  rounds_loop invoke self d nums log = (Return d', self', log') →
  ∃ new calls,
    Discussion.question d' = Discussion.question d ∧
    Discussion.final_summary d' = Discussion.final_summary d ∧
    Discussion.rounds d' = Discussion.rounds d ++ new ∧
    Round.round_number <$> new = nums ∧
    Forall (λ round_data,
              Contribution.participant <$> Round.contributions round_data
                = Participant.label <$> Roundtable.participants self ∧
              Contribution.model <$> Round.contributions round_data
                = Participant.name <$> Roundtable.participants self) new ∧
    log' = log ++ calls ∧
    Forall answered calls ∧
    omap turn_entry calls = record_entries new ∧
    length calls = (length nums * length (Roundtable.participants self))%nat ∧
    self' = with_participants self (Roundtable.participants self') ∧
    length (Roundtable.participants self') = length (Roundtable.participants self) ∧
    ∀ i p,
      Roundtable.participants self !! i = Some p →
      ∃ p',
        Roundtable.participants self' !! i = Some p' ∧
        Participant.name p' = Participant.name p ∧
        Participant.label p' = Participant.label p ∧
        Participant.llm p' = Participant.llm p ∧
        Participant.contributions p' = Participant.contributions p ++ said i new.
Proof.
  revert self d log d' self' log'.
  induction nums as [|n nums IH]; intros self d log d' self' log' Hloop;
    simpl in Hloop.
  { simplify_eq. exists [], []. rewrite !app_nil_r.
    split_and!; try done; [by destruct self'|].
    intros i p Hi. exists p. by rewrite app_nil_r. }
  unfold _conduct_round in Hloop.
  destruct (conduct_loop _ _ _ _ _ _ _ _) as [[r0 ps] log0] eqn:Hround.
  destruct r0 as [cs|e]; [|done].
  apply conduct_loop_return in Hround
    as (texts & calls1 & Hlen & -> & -> & -> & Hans1 & Hent1 & Hcalls1).
  rewrite !app_nil_l in Hloop.
  destruct (zip_with_contribution_labels (Roundtable.participants self) texts Hlen)
    as (Hlabels & Hnames & Hlabels' & Hnames' & Hlen').
  apply IH in Hloop
    as (new & calls2 & Hq & Hs & Hrounds & Hnums & Hshape & -> & Hans2 & Hent2
        & Hcalls2 & Hself' & Hlen2 & Hlogs).
  simpl in Hq, Hs, Hrounds, Hshape, Hcalls2, Hself', Hlen2, Hlogs.
  eexists (_ :: new), (calls1 ++ calls2). split_and!.
  - done.
  - done.
  - by rewrite Hrounds, <-app_assoc.
  - by rewrite fmap_cons, Hnums.
  - constructor; [done|]. by rewrite <-Hlabels', <-Hnames'.
  - by rewrite app_assoc.
  - by apply Forall_app.
  - rewrite omap_app, Hent1, Hent2. unfold record_entries. simpl.
    by rewrite round_entries_zip.
  - rewrite length_app, Hcalls1, Hcalls2, Hlen'. simpl. lia.
  - by rewrite Hself'.
  - by rewrite Hlen2, Hlen'.
  - intros i p Hi.
    destruct (zip_with_lookup_participant _ texts i p Hlen Hi) as (t & Hp1 & Hc1).
    destruct (Hlogs _ _ Hp1) as (p' & Hp' & Hname & Hlabel & Hllm & Hcontribs).
    exists p'. split_and!; [done..|].
    rewrite Hcontribs. unfold said. simpl. rewrite Hc1. simpl.
    by rewrite <-app_assoc.
Qed.

(** The rounds loop broken off. *)
Lemma rounds_loop_raise self d (nums : list Z) log e self' log' :
  rounds_loop invoke self d nums log = (Raise e, self', log') →
  e = InvokeError ∧
  ∃ calls c,
    log' = log ++ calls ++ [c] ∧ Forall answered calls ∧ Call.response c = None.
Proof.
  revert self d log e self' log'.
  induction nums as [|n nums IH]; intros self d log e self' log' Hloop;
    simpl in Hloop; [done|].
  unfold _conduct_round in Hloop.
  destruct (conduct_loop _ _ _ _ _ _ _ _) as [[r0 ps] log0] eqn:Hround.
  destruct r0 as [cs|e0].
  - apply conduct_loop_return in Hround
      as (texts & calls1 & _ & _ & _ & -> & Hans1 & _ & _).
    apply IH in Hloop as (-> & calls2 & c & -> & Hans2 & Hc). split; [done|].
    exists (calls1 ++ calls2), c.
    split_and!; [by rewrite <-!app_assoc | by apply Forall_app | done].
  - simplify_eq. by apply conduct_loop_raise in Hround.
Qed.

End RunMore.

Lemma omap_turn_entry_summary (tail : list Call.t) :
  Forall (λ c, Call.source c = Summary) tail → omap turn_entry tail = [].
Proof.
  induction 1 as [|c tail Hc _ IH]; [done|]. simpl.
  unfold turn_entry at 1. by rewrite Hc.
Qed.

(** A discussion that is played to its end, in one statement: the rounds
    loop has returned, and the calls after it are those of the summary. *)
Lemma discuss_return (invoke : service) (self : Roundtable.t) (question : string)
    (log : list Call.t) (d : Discussion.t) (self' : Roundtable.t)
    (log' : list Call.t) :
  discuss invoke self question log = (Return d, self', log') →
  ∃ calls tail,
    rounds_loop invoke self (Discussion.mk question [] None)
      (range_from_1 (Roundtable.max_rounds self)) log
    = (Return (Discussion.mk question (Discussion.rounds d) None), self',
       log ++ calls) ∧
    log' = log ++ calls ++ tail ∧
    Discussion.question d = question ∧
    Forall (λ c, Call.source c = Summary) tail ∧
    Forall answered tail ∧
    length tail = summary_calls self.
Proof.
  intros Hd.
  apply discuss_spec in Hd as (r0 & calls & tail & Hloop & -> & Htail & Hr).
  destruct r0 as [d0|e]; [|by destruct Hr].
  pose proof (rounds_loop_return _ _ _ _ _ _ _ _ Hloop)
    as (new & calls' & Hq & Hs & _). simpl in Hq, Hs.
  destruct d0 as [q0 rs0 s0]. simpl in Hq, Hs. subst q0 s0.
  exists calls, tail. unfold summary_calls.
  destruct (Roundtable.moderator_enabled self);
    [destruct (Roundtable.moderator self) as [m|]|].
  - destruct Hr as (prompt & [summary|] & -> & Hr); simplify_eq. simpl.
    split_and!; try done. constructor; [|done]. unfold answered. simpl. eauto.
  - destruct Hr as [-> Hr]. simplify_eq. simpl. by split_and!.
  - destruct Hr as [-> Hr]. simplify_eq. simpl. by split_and!.
Qed.

(** X10.  The record that [discuss] returns holds exactly the answered turns
    of this discussion, in the order of the calls: round number, label of
    the speaker and text of every contribution are those of a call, and
    every call was answered. *)
Theorem record_mirrors_log (invoke : service) (self : Roundtable.t)
    (question : string) (log : list Call.t)
    (d : Discussion.t) (self' : Roundtable.t) (log' : list Call.t) :
  discuss invoke self question log = (Return d, self', log') →
  ∃ calls,
    log' = log ++ calls ∧
    Forall answered calls ∧
    omap turn_entry calls = record_entries (Discussion.rounds d) ∧
    Discussion.question d = question.
Proof.
  intros (calls & tail & Hloop & -> & Hq & Htail & Hans & _)%discuss_return.
  apply rounds_loop_return in Hloop
    as (new & calls' & _ & _ & Hrounds & _ & _ & Hlog & Hans' & Hent & _).
  apply app_inv_head in Hlog as <-. simpl in Hrounds. subst new.
  exists (calls ++ tail). split_and!; [done | by apply Forall_app | | done].
  by rewrite omap_app, Hent, omap_turn_entry_summary, app_nil_r.
Qed.

Lemma record_mirrors_log_witness :
  ∃ d self' log',
    discuss service_named (table_two 2 true) "Why?" [] = (Return d, self', log') ∧
    ∃ calls,
      log' = [] ++ calls ∧
      Forall answered calls ∧
      omap turn_entry calls = record_entries (Discussion.rounds d) ∧
      Discussion.question d = "Why?".
Proof.
  do 3 eexists. split; [vm_compute; reflexivity|].
  eapply (record_mirrors_log service_named (table_two 2 true) "Why?" []).
  vm_compute; reflexivity.
Defined.

(** X11.  In every round of the record that [discuss] returns, the
    contributions are those of the participants in the order of
    registration: the labels are the labels of the participants and the
    models are their names, one contribution for each participant. *)
Theorem rounds_in_registration_order (invoke : service) (self : Roundtable.t)
    (question : string) (log : list Call.t)
    (d : Discussion.t) (self' : Roundtable.t) (log' : list Call.t) :
  discuss invoke self question log = (Return d, self', log') →
  Forall (λ round_data,
            Contribution.participant <$> Round.contributions round_data
              = Participant.label <$> Roundtable.participants self ∧
            Contribution.model <$> Round.contributions round_data
              = Participant.name <$> Roundtable.participants self ∧
            length (Round.contributions round_data)
              = length (Roundtable.participants self))
    (Discussion.rounds d).
Proof.
  intros (calls & tail & Hloop & _)%discuss_return.
  apply rounds_loop_return in Hloop as (new & calls' & _ & _ & Hrounds & _ & Hshape & _).
  simpl in Hrounds. subst new.
  eapply Forall_impl; [exact Hshape|]. intros round_data [Hlabels Hnames].
  split_and!; [done..|].
  by rewrite <-(length_fmap Contribution.participant), Hlabels, length_fmap.
Qed.

Lemma rounds_in_registration_order_witness :
  ∃ d self' log',
    discuss service_named (table_two 2 false) "Why?" [] = (Return d, self', log') ∧
    Forall (λ round_data,
              Contribution.participant <$> Round.contributions round_data
                = ["Participant 1"; "Participant 2"] ∧
              Contribution.model <$> Round.contributions round_data
                = ["alpha"; "beta"] ∧
              length (Round.contributions round_data) = 2%nat)
      (Discussion.rounds d).
Proof.
  do 3 eexists. split; [vm_compute; reflexivity|].
  eapply (rounds_in_registration_order service_named (table_two 2 false) "Why?" []).
  vm_compute; reflexivity.
Defined.

(** X12.  After a discussion that is played to its end, the orchestrator is
    as before but for the logs: every participant has its old log followed
    by its own contributions to the rounds of the record, in round order.
    The logs are not cleared between discussions. *)
Theorem logs_after_discussion (invoke : service) (self : Roundtable.t)
    (question : string) (log : list Call.t)
    (d : Discussion.t) (self' : Roundtable.t) (log' : list Call.t) :
  discuss invoke self question log = (Return d, self', log') →
  self' = with_participants self (Roundtable.participants self') ∧
  length (Roundtable.participants self') = length (Roundtable.participants self) ∧
  ∀ i p,
    Roundtable.participants self !! i = Some p →
    ∃ p',
      Roundtable.participants self' !! i = Some p' ∧
      Participant.name p' = Participant.name p ∧
      Participant.label p' = Participant.label p ∧
      Participant.llm p' = Participant.llm p ∧
      Participant.contributions p'
        = Participant.contributions p ++ said i (Discussion.rounds d).
Proof.
  intros (calls & tail & Hloop & _)%discuss_return.
  apply rounds_loop_return in Hloop
    as (new & calls' & _ & _ & Hrounds & _ & _ & _ & _ & _ & _ & Hself & Hlen & Hlogs).
  simpl in Hrounds. by subst new.
Qed.

Lemma logs_after_discussion_witness :
  ∃ d self' log',
    discuss service_named (table_two 2 false) "Why?" [] = (Return d, self', log') ∧
    Participant.contributions <$> Roundtable.participants self'
      = [["View of alpha."; "View of alpha."]; ["View of beta."; "View of beta."]] ∧
    self' = with_participants (table_two 2 false) (Roundtable.participants self').
Proof.
  do 3 eexists. split; [vm_compute; reflexivity|]. split; [reflexivity|].
  eapply proj1,
    (logs_after_discussion service_named (table_two 2 false) "Why?" []).
  vm_compute; reflexivity.
Defined.

(** X13.  When [discuss] raises, the error is that of a model call, and that
    call is the last one made: every call before it was answered, and no
    call follows it. *)
Theorem discussion_stops_at_first_failure (invoke : service) (self : Roundtable.t)
    (question : string) (log : list Call.t)
    (e : exn) (self' : Roundtable.t) (log' : list Call.t) :
  discuss invoke self question log = (Raise e, self', log') →
  e = InvokeError ∧
  ∃ calls c,
    log' = log ++ calls ++ [c] ∧ Forall answered calls ∧ Call.response c = None.
Proof.
  intros Hd.
  apply discuss_spec in Hd as (r0 & calls & tail & Hloop & -> & Htail & Hr).
  destruct r0 as [d0|e0].
  - apply rounds_loop_return in Hloop
      as (new & calls' & _ & _ & _ & _ & _ & Hlog & Hans & _).
    apply app_inv_head in Hlog as <-.
    destruct (Roundtable.moderator_enabled self);
      [destruct (Roundtable.moderator self) as [m|]|].
    + destruct Hr as (prompt & [summary|] & -> & Hr); simplify_eq.
      split; [done|]. by eexists calls, _.
    + by destruct Hr as [_ ?].
    + by destruct Hr as [_ ?].
  - destruct Hr as [[= <-] ->]. rewrite app_nil_r.
    apply rounds_loop_raise in Hloop as (-> & calls' & c & Hlog & Hans & Hc).
    apply app_inv_head in Hlog as ->. split; [done|]. by exists calls', c.
Qed.

Lemma discussion_stops_at_first_failure_witness :
  ∃ e self' log',
    discuss service_breaks (table_two 2 false) "Why?" [] = (Raise e, self', log') ∧
    e = InvokeError ∧
    ∃ calls c,
      log' = [] ++ calls ++ [c] ∧ Forall answered calls ∧ Call.response c = None.
Proof.
  do 3 eexists. split; [vm_compute; reflexivity|].
  eapply (discussion_stops_at_first_failure service_breaks (table_two 2 false)
            "Why?" []).
  vm_compute; reflexivity.
Defined.

(** X14.  A discussion that is played to its end calls every participant
    once in every round and the moderator, when there is one, once: with N
    rounds and P participants that is N * P + 1 calls, or N * P without
    moderator. *)
Theorem number_of_calls (invoke : service) (self : Roundtable.t)
    (question : string) (log : list Call.t)
    (d : Discussion.t) (self' : Roundtable.t) (log' : list Call.t) :
  discuss invoke self question log = (Return d, self', log') →
  ∃ calls,
    log' = log ++ calls ∧
    length calls
      = (Z.to_nat (Roundtable.max_rounds self)
           * length (Roundtable.participants self)
         + summary_calls self)%nat.
Proof.
  intros (calls & tail & Hloop & -> & _ & _ & _ & Htail)%discuss_return.
  apply rounds_loop_return in Hloop
    as (new & calls' & _ & _ & _ & _ & _ & Hlog & _ & _ & Hlen & _).
  apply app_inv_head in Hlog as <-.
  exists (calls ++ tail). split; [done|].
  rewrite length_app, Hlen, Htail. unfold range_from_1. by rewrite length_seqZ.
Qed.

Lemma number_of_calls_witness :
  ∃ d self' log',
    discuss service_named (table_two 3 true) "Why?" [] = (Return d, self', log') ∧
    ∃ calls, log' = [] ++ calls ∧ length calls = 7%nat.
Proof.
  do 3 eexists. split; [vm_compute; reflexivity|].
  eapply (number_of_calls service_named (table_two 3 true) "Why?" []).
  vm_compute; reflexivity.
Defined.

(** X15.  With [max_rounds <= 0] no participant is called, the orchestrator
    is left as it was and a returned record has no rounds; but an enabled
    moderator is still called, once, for the summary of the empty
    discussion. *)
Theorem no_rounds_still_summarised (invoke : service) (self : Roundtable.t)
    (question : string) (log : list Call.t)
    (r : result Discussion.t) (self' : Roundtable.t) (log' : list Call.t) :
  (Roundtable.max_rounds self ≤ 0)%Z →
  discuss invoke self question log = (r, self', log') →
  self' = self ∧
  (∀ d, r = Return d → Discussion.rounds d = []) ∧
  ∃ tail,
    log' = log ++ tail ∧
    Forall (λ c, Call.source c = Summary) tail ∧
    length tail = summary_calls self.
Proof.
  intros HN Hd.
  apply discuss_spec in Hd as (r0 & calls & tail & Hloop & -> & Htail & Hr).
  unfold range_from_1 in Hloop. rewrite seqZ_nil in Hloop by lia.
  simpl in Hloop. injection Hloop as <- <- Hlog.
  assert (calls = []) as ->.
  { apply (app_inv_head log). by rewrite app_nil_r. }
  split; [done|]. unfold summary_calls.
  destruct (Roundtable.moderator_enabled self);
    [destruct (Roundtable.moderator self) as [m|]|].
  - destruct Hr as (prompt & response & -> & ->). split.
    + intros d Hd. by destruct response; simplify_eq.
    + by eexists.
  - destruct Hr as [-> ->]. split; [by intros d [= <-]|]. by exists [].
  - destruct Hr as [-> ->]. split; [by intros d [= <-]|]. by exists [].
Qed.

Lemma no_rounds_still_summarised_witness :
  ∃ r self' log',
    (Roundtable.max_rounds (table_two 0 true) ≤ 0)%Z ∧
    discuss service_named (table_two 0 true) "Why?" [] = (r, self', log') ∧
    self' = table_two 0 true ∧
    r = Return (Discussion.mk "Why?" [] (Some "View of gamma.")) ∧
    length log' = 1%nat.
Proof.
  do 3 eexists. split; [simpl; lia|]. split; [vm_compute; reflexivity|].
  split; [|split; reflexivity].
  eapply proj1,
    (no_rounds_still_summarised service_named (table_two 0 true) "Why?" []);
    [simpl; lia | vm_compute; reflexivity].
Defined.

(** ** What the context and the prompts contain *)

Lemma occurs_in_refl s : occurs_in s s.
Proof. exists "", "". by rewrite str_nil, str_app_nil_r. Qed.

Lemma occurs_in_app_r s t u : occurs_in s u → occurs_in s (t +:+ u).
Proof.
  intros (before & after & ->). exists (t +:+ before), after.
  by rewrite str_assoc.
Qed.

Lemma occurs_in_app_l s t u : occurs_in s t → occurs_in s (t +:+ u).
Proof.
  intros (before & after & ->). exists before, (after +:+ u).
  by rewrite !str_assoc.
Qed.

(** A part of a joined list occurs in the joined string. *)
Lemma join_occurs (sep s : string) (parts : list string) :
  s ∈ parts → occurs_in s (join sep parts).
Proof.
  induction parts as [|h parts IH]; [by intros ?%not_elem_of_nil|].
  intros [->|Hin]%elem_of_cons.
  - destruct parts; simpl; [apply occurs_in_refl|].
    apply occurs_in_app_l, occurs_in_refl.
  - destruct parts as [|h' parts]; [by apply not_elem_of_nil in Hin|].
    change (join sep (h :: h' :: parts))
      with (h +:+ sep +:+ join sep (h' :: parts)).
    by apply occurs_in_app_r, occurs_in_app_r, IH.
Qed.

(** The header of a round and the lines made under another label are parts
    of the context. *)
Lemma context_parts_header (d : Discussion.t) (p : Participant.t) (r : Round.t) :
  r ∈ Discussion.rounds d → round_header r ∈ context_parts d p.
Proof.
  intros Hr.
  assert (round_header r ∈ concat ((λ round_data,
            round_header round_data
              :: others_lines (Participant.label p) round_data)
            <$> Discussion.rounds d)) as Hh.
  { apply elem_of_concat.
    exists (round_header r :: others_lines (Participant.label p) r).
    split; [by left | apply list_elem_of_fmap; by exists r]. }
  unfold context_parts.
  destruct (last (Discussion.rounds d)); [|done].
  destruct (0 <? _)%Z; [|done].
  apply elem_of_app; by left.
Qed.

Lemma context_parts_line (d : Discussion.t) (p : Participant.t)
    (r : Round.t) (c : Contribution.t) :
  r ∈ Discussion.rounds d → c ∈ Round.contributions r →
  Contribution.participant c ≠ Participant.label p →
  contrib_line c ∈ context_parts d p.
Proof.
  intros Hr Hc Hne.
  assert (contrib_line c ∈ concat ((λ round_data,
            round_header round_data
              :: others_lines (Participant.label p) round_data)
            <$> Discussion.rounds d)) as Hl.
  { apply elem_of_concat.
    exists (round_header r :: others_lines (Participant.label p) r).
    split; [|apply list_elem_of_fmap; by exists r].
    right. apply list_elem_of_fmap. exists c. split; [done|].
    by apply list_elem_of_filter. }
  unfold context_parts.
  destruct (last (Discussion.rounds d)); [|done].
  destruct (0 <? _)%Z; [|done].
  apply elem_of_app; by left.
Qed.

(** X16.  The context built for a participant shows every round of the
    record and every contribution made under another label: the header of
    each round occurs in it, also of a round in which nobody else spoke, and
    so does the line of each contribution of another label. *)
Theorem context_shows_others (d : Discussion.t) (p : Participant.t) :
  (∀ r, r ∈ Discussion.rounds d →
     occurs_in (round_header r) (_build_context d p)) ∧
  (∀ r c,
     r ∈ Discussion.rounds d → c ∈ Round.contributions r →
     Contribution.participant c ≠ Participant.label p →
     occurs_in (contrib_line c) (_build_context d p)).
Proof.
  split.
  - intros r Hr. pose proof (context_parts_header d p r Hr) as Hh.
    unfold _build_context. destruct (Discussion.rounds d) eqn:Hrounds.
    { by apply not_elem_of_nil in Hr. }
    by apply join_occurs.
  - intros r c Hr Hc Hne. pose proof (context_parts_line d p r c Hr Hc Hne) as Hl.
    unfold _build_context. destruct (Discussion.rounds d) eqn:Hrounds.
    { by apply not_elem_of_nil in Hr. }
    by apply join_occurs.
Qed.

Lemma context_shows_others_witness :
  occurs_in (newline +:+ "--- Round 1 ---")
    (_build_context record_two_rounds first_participant) ∧
  occurs_in (newline +:+ "--- Round 2 ---")
    (_build_context record_two_rounds first_participant) ∧
  occurs_in (newline +:+ "Participant 2: Two.")
    (_build_context record_two_rounds first_participant).
Proof.
  split_and!.
  - apply (proj1 (context_shows_others record_two_rounds first_participant)
             (Round.mk 1 [Contribution.mk "Participant 1" "alpha" "One.";
                          Contribution.mk "Participant 2" "beta" "Two."])).
    by left.
  - apply (proj1 (context_shows_others record_two_rounds first_participant)
             (Round.mk 2 [Contribution.mk "Participant 1" "alpha" "Three."])).
    right; by left.
  - apply (proj2 (context_shows_others record_two_rounds first_participant)
             (Round.mk 1 [Contribution.mk "Participant 1" "alpha" "One.";
                          Contribution.mk "Participant 2" "beta" "Two."])
             (Contribution.mk "Participant 2" "beta" "Two."));
      [by left | right; by left | discriminate].
Defined.

(** X17.  [_generate_summary] with a moderator client makes one call to that
    client, with the fixed instruction and a text in which the question,
    the header of every round, also of a round without contributions, and
    the line of every contribution of every participant occur; it returns
    the answer as it is, and raises when the call raises. *)
Theorem summary_prompt_has_everything (invoke : service) (self : Roundtable.t)
    (d : Discussion.t) (log : list Call.t) (m : ChatOpenAI.t) :
  Roundtable.moderator self = Some m →
  ∃ text response,
    _generate_summary invoke self d log
    = (match response with
       | Some summary => Return summary
       | None => Raise InvokeError
       end,
       log ++ [Call.mk Summary m
                 [SystemMessage summary_system_msg; HumanMessage text] response]) ∧
    occurs_in (Discussion.question d) text ∧
    (∀ r, r ∈ Discussion.rounds d → occurs_in (round_header r) text) ∧
    (∀ r c,
       r ∈ Discussion.rounds d → c ∈ Round.contributions r →
       occurs_in (contrib_line c) text).
Proof.
  intros Hm. unfold _generate_summary. rewrite Hm.
  match goal with
  | |- context [HumanMessage ?t] =>
      exists t, (invoke log m [SystemMessage summary_system_msg; HumanMessage t])
  end.
  split; [by destruct (invoke _ _ _)|].
  assert (∀ r s, r ∈ Discussion.rounds d →
            s ∈ round_header r :: (contrib_line <$> Round.contributions r) →
            occurs_in s
              (join newline
                 (concat ((λ round_data,
                             round_header round_data
                               :: (contrib_line <$> Round.contributions round_data))
                            <$> Discussion.rounds d)))) as Hpart.
  { intros r s Hr Hs. apply join_occurs, elem_of_concat. eexists. split; [exact Hs|].
    apply list_elem_of_fmap. by exists r. }
  split_and!.
  - apply occurs_in_app_r, occurs_in_app_l, occurs_in_refl.
  - intros r Hr. do 6 apply occurs_in_app_r.
    apply occurs_in_app_l, (Hpart r); [done | by left].
  - intros r c Hr Hc. do 6 apply occurs_in_app_r.
    apply occurs_in_app_l, (Hpart r); [done|].
    right. apply list_elem_of_fmap. by exists c.
Qed.

Lemma summary_prompt_has_everything_witness :
  ∃ text response,
    _generate_summary service_named (table_two 2 true) record_two_rounds []
    = (match response with
       | Some summary => Return summary
       | None => Raise InvokeError
       end,
       [Call.mk Summary (client_of "gamma" "key-3" 0x1.3333333333333p-2%float)
          [SystemMessage summary_system_msg; HumanMessage text] response]) ∧
    occurs_in "Why?" text ∧
    occurs_in (newline +:+ "--- Round 1 ---") text ∧
    occurs_in (newline +:+ "--- Round 2 ---") text ∧
    occurs_in (newline +:+ "Participant 1: One.") text ∧
    occurs_in (newline +:+ "Participant 2: Two.") text ∧
    occurs_in (newline +:+ "Participant 1: Three.") text.
Proof.
  destruct (summary_prompt_has_everything service_named (table_two 2 true)
              record_two_rounds []
              (client_of "gamma" "key-3" 0x1.3333333333333p-2%float) eq_refl)
    as (text & response & Hrun & Hquestion & Hheader & Hline).
  exists text, response. split_and!.
  - exact Hrun.
  - exact Hquestion.
  - apply (Hheader (Round.mk 1 [Contribution.mk "Participant 1" "alpha" "One.";
                                Contribution.mk "Participant 2" "beta" "Two."])).
    by left.
  - apply (Hheader (Round.mk 2 [Contribution.mk "Participant 1" "alpha" "Three."])).
    right; by left.
  - apply (Hline (Round.mk 1 [Contribution.mk "Participant 1" "alpha" "One.";
                              Contribution.mk "Participant 2" "beta" "Two."])
             (Contribution.mk "Participant 1" "alpha" "One."));
      [by left | by left].
  - apply (Hline (Round.mk 1 [Contribution.mk "Participant 1" "alpha" "One.";
                              Contribution.mk "Participant 2" "beta" "Two."])
             (Contribution.mk "Participant 2" "beta" "Two."));
      [by left | right; by left].
  - apply (Hline (Round.mk 2 [Contribution.mk "Participant 1" "alpha" "Three."])
             (Contribution.mk "Participant 1" "alpha" "Three."));
      [right; by left | by left].
Defined.

(** X18.  The prompt of a participant is a system message followed by one
    user message in which the question occurs.  In round 1 it does not
    depend on the context; in every other round the context occurs in the
    user message. *)
Theorem participant_prompt_shape (self : Roundtable.t) (question : string)
    (round_num : Z) (context : string) :
  ∃ system user,
    _create_participant_prompt self question round_num context
    = [SystemMessage system; HumanMessage user] ∧
    occurs_in question user ∧
    (round_num ≠ 1 → occurs_in context user) ∧
    (round_num = 1 →
     ∀ context',
       _create_participant_prompt self question round_num context'
       = [SystemMessage system; HumanMessage user]).
Proof.
  unfold _create_participant_prompt.
  destruct (Z.eqb_spec round_num 1) as [->|Hne]; eexists _, _;
    (split; [reflexivity|]); split_and!; try done.
  - apply occurs_in_app_r, occurs_in_app_l, occurs_in_refl.
  - apply occurs_in_app_r, occurs_in_app_l, occurs_in_refl.
  - intros _. do 8 apply occurs_in_app_r. apply occurs_in_app_l, occurs_in_refl.
Qed.

Lemma tools_desc_keeps (tools : list Tool.t) (acc s : string) :
  occurs_in s acc →
  occurs_in s
    (foldl (λ acc tool,
              acc +:+ "- " +:+ Tool.name tool +:+ ": " +:+ Tool.description tool
                  +:+ newline) acc tools).
Proof.
  revert acc. induction tools as [|tool tools IH]; intros acc Hs; [done|].
  simpl. by apply IH, occurs_in_app_l.
Qed.

Lemma tools_desc_lists (tools : list Tool.t) (acc : string) (tool : Tool.t) :
  tool ∈ tools →
  occurs_in ("- " +:+ Tool.name tool +:+ ": " +:+ Tool.description tool +:+ newline)
    (foldl (λ acc tool,
              acc +:+ "- " +:+ Tool.name tool +:+ ": " +:+ Tool.description tool
                  +:+ newline) acc tools).
Proof.
  revert acc. induction tools as [|tool' tools IH]; intros acc;
    [by intros ?%not_elem_of_nil|].
  intros [->|Hin]%elem_of_cons; simpl; [|by apply IH].
  apply tools_desc_keeps, occurs_in_app_r, occurs_in_refl.
Qed.

(** X19.  The system message of a participant's prompt is the fixed
    instruction when the orchestrator has no tools, be it [None] or the
    empty list; otherwise it is the instruction followed by a list in which
    the line "- name: description" of every tool occurs. *)
Theorem tools_listed_in_prompt (self : Roundtable.t) (question : string)
    (round_num : Z) (context : string) :
  ∃ system user,
    _create_participant_prompt self question round_num context
    = [SystemMessage system; HumanMessage user] ∧
    match Roundtable.tools self with
    | None | Some [] => system = system_msg_base
    | Some tools =>
        (∃ list, system = system_msg_base +:+ list) ∧
        ∀ tool, tool ∈ tools →
          occurs_in
            ("- " +:+ Tool.name tool +:+ ": " +:+ Tool.description tool +:+ newline)
            system
    end.
Proof.
  unfold _create_participant_prompt.
  destruct (Roundtable.tools self) as [[|tool tools]|]; eexists _, _;
    (split; [reflexivity|]); try done.
  split; [by eexists|]. intros tool' Hin.
  apply occurs_in_app_r. by apply tools_desc_lists.
Qed.

(** ** Export *)

Lemma occurs_in_trans s t u : occurs_in s t → occurs_in t u → occurs_in s u.
Proof.
  intros (b1 & a1 & ->) (b2 & a2 & ->). exists (b2 +:+ b1), (a1 +:+ a2).
  by rewrite !str_assoc.
Qed.

Lemma occurs_in_join (sep s part : string) (parts : list string) :
  part ∈ parts → occurs_in s part → occurs_in s (join sep parts).
Proof. intros Hin Hs. eapply occurs_in_trans; [exact Hs|]. by apply join_occurs. Qed.

(** The lines of the markdown and the text export before the summary. *)
Lemma export_markdown_lines (d : Discussion.t) :
  ∃ tail,
    _export_markdown d
    = join newline
        ((["# Roundtable Discussion" +:+ newline;
           "## Question" +:+ newline;
           Discussion.question d +:+ newline;
           newline +:+ "## Discussion" +:+ newline] ++
          concat ((λ round_data,
                     (newline +:+ "### Round "
                        +:+ pretty (Round.round_number round_data) +:+ newline)
                     :: concat ((λ contrib,
                                   [newline +:+ "**"
                                      +:+ Contribution.participant contrib
                                      +:+ "** (" +:+ Contribution.model contrib
                                      +:+ "):" +:+ newline;
                                    Contribution.text contrib +:+ newline])
                                  <$> Round.contributions round_data))
                    <$> Discussion.rounds d)) ++ tail) ∧
    tail = (if truthy (Discussion.final_summary d)
            then [newline +:+ "## Final Summary" +:+ newline;
                  default "" (Discussion.final_summary d) +:+ newline]
            else []).
Proof.
  unfold _export_markdown. eexists. split; [|reflexivity].
  destruct (truthy (Discussion.final_summary d)); [done|].
  by rewrite app_nil_r.
Qed.

Lemma export_text_lines (d : Discussion.t) :
  ∃ tail,
    _export_text d
    = join newline
        ((["ROUNDTABLE DISCUSSION";
           repeat_str "=" 80;
           newline +:+ "Question: " +:+ Discussion.question d +:+ newline] ++
          concat ((λ round_data,
                     (newline +:+ "--- Round "
                        +:+ pretty (Round.round_number round_data) +:+ " ---"
                        +:+ newline)
                     :: concat ((λ contrib,
                                   [Contribution.participant contrib +:+ " (" +:+
                                      Contribution.model contrib +:+ "):";
                                    Contribution.text contrib +:+ newline])
                                  <$> Round.contributions round_data))
                    <$> Discussion.rounds d)) ++ tail) ∧
    tail = (if truthy (Discussion.final_summary d)
            then [newline +:+ repeat_str "-" 80;
                  "FINAL SUMMARY:";
                  repeat_str "-" 80;
                  default "" (Discussion.final_summary d) +:+ newline]
            else []).
Proof.
  unfold _export_text. eexists. split; [|reflexivity].
  destruct (truthy (Discussion.final_summary d)); [done|].
  by rewrite app_nil_r.
Qed.

(** X20.  The markdown export contains the question and, for every
    contribution of every round, the heading of the round, the block header
    with the label and the model of the participant, and the text. *)
Theorem markdown_shows_record (d : Discussion.t) :
  occurs_in (Discussion.question d) (_export_markdown d) ∧
  ∀ r c,
    r ∈ Discussion.rounds d → c ∈ Round.contributions r →
    occurs_in ("### Round " +:+ pretty (Round.round_number r)) (_export_markdown d) ∧
    occurs_in ("**" +:+ Contribution.participant c +:+ "** (" +:+
               Contribution.model c +:+ "):") (_export_markdown d) ∧
    occurs_in (Contribution.text c) (_export_markdown d).
Proof.
  destruct (export_markdown_lines d) as (tail & -> & _).
  match goal with |- context [join newline ?l] => set (lines := l) end. split.
  - eapply occurs_in_join; [|apply occurs_in_app_l, occurs_in_refl].
    unfold lines. apply elem_of_app. left. apply elem_of_app. left.
    do 2 right. by left.
  - intros r c Hr Hc.
    assert (∀ line,
              line ∈ (newline +:+ "### Round " +:+ pretty (Round.round_number r)
                        +:+ newline)
                     :: concat ((λ contrib,
                                   [newline +:+ "**"
                                      +:+ Contribution.participant contrib
                                      +:+ "** (" +:+ Contribution.model contrib
                                      +:+ "):" +:+ newline;
                                    Contribution.text contrib +:+ newline])
                                  <$> Round.contributions r) →
              ∀ s, occurs_in s line → occurs_in s (join newline lines)) as Hline.
    { intros line Hin s Hs. eapply occurs_in_join; [|exact Hs].
      unfold lines. apply elem_of_app. left. apply elem_of_app. right.
      apply elem_of_concat. eexists. split; [exact Hin|].
      apply list_elem_of_fmap. by exists r. }
    assert (∀ line,
              line ∈ [newline +:+ "**" +:+ Contribution.participant c
                        +:+ "** (" +:+ Contribution.model c +:+ "):" +:+ newline;
                      Contribution.text c +:+ newline] →
              ∀ s, occurs_in s line → occurs_in s (join newline lines)) as Hblock.
    { intros line Hin. apply Hline. right. apply elem_of_concat.
      eexists. split; [exact Hin|]. apply list_elem_of_fmap. by exists c. }
    split_and!.
    + eapply Hline; [by left|].
      exists newline, newline. by rewrite !str_assoc.
    + eapply Hblock; [by left|].
      exists newline, newline. by rewrite !str_assoc.
    + eapply Hblock; [right; by left|]. apply occurs_in_app_l, occurs_in_refl.
Qed.

(** X21.  The text export contains the question and, for every contribution
    of every round, the rule line of the round, the line with the label and
    the model of the participant, and the text. *)
Theorem text_shows_record (d : Discussion.t) :
  occurs_in (Discussion.question d) (_export_text d) ∧
  ∀ r c,
    r ∈ Discussion.rounds d → c ∈ Round.contributions r →
    occurs_in ("--- Round " +:+ pretty (Round.round_number r) +:+ " ---")
      (_export_text d) ∧
    occurs_in (Contribution.participant c +:+ " (" +:+ Contribution.model c +:+ "):")
      (_export_text d) ∧
    occurs_in (Contribution.text c) (_export_text d).
Proof.
  destruct (export_text_lines d) as (tail & -> & _).
  match goal with |- context [join newline ?l] => set (lines := l) end. split.
  - eapply occurs_in_join;
      [|apply occurs_in_app_r, occurs_in_app_r, occurs_in_app_l, occurs_in_refl].
    unfold lines. apply elem_of_app. left. apply elem_of_app. left.
    do 2 right. by left.
  - intros r c Hr Hc.
    assert (∀ line,
              line ∈ (newline +:+ "--- Round " +:+ pretty (Round.round_number r)
                        +:+ " ---" +:+ newline)
                     :: concat ((λ contrib,
                                   [Contribution.participant contrib +:+ " (" +:+
                                      Contribution.model contrib +:+ "):";
                                    Contribution.text contrib +:+ newline])
                                  <$> Round.contributions r) →
              ∀ s, occurs_in s line → occurs_in s (join newline lines)) as Hline.
    { intros line Hin s Hs. eapply occurs_in_join; [|exact Hs].
      unfold lines. apply elem_of_app. left. apply elem_of_app. right.
      apply elem_of_concat. eexists. split; [exact Hin|].
      apply list_elem_of_fmap. by exists r. }
    assert (∀ line,
              line ∈ [Contribution.participant c +:+ " (" +:+
                        Contribution.model c +:+ "):";
                      Contribution.text c +:+ newline] →
              ∀ s, occurs_in s line → occurs_in s (join newline lines)) as Hblock.
    { intros line Hin. apply Hline. right. apply elem_of_concat.
      eexists. split; [exact Hin|]. apply list_elem_of_fmap. by exists c. }
    split_and!.
    + eapply Hline; [by left|].
      exists newline, newline. by rewrite !str_assoc.
    + eapply Hblock; [by left|]. apply occurs_in_refl.
    + eapply Hblock; [right; by left|]. apply occurs_in_app_l, occurs_in_refl.
Qed.

(** The dicts of the json export determine the record they come from. *)
Lemma contribution_dict_inj c1 c2 :
  contribution_dict c1 = contribution_dict c2 → c1 = c2.
Proof. destruct c1, c2. unfold contribution_dict. simpl. congruence. Qed.

Lemma fmap_inj_list {A B : Type} (f : A → B) (l1 l2 : list A) :
  (∀ x y, f x = f y → x = y) → f <$> l1 = f <$> l2 → l1 = l2.
Proof.
  intros Hf. revert l2.
  induction l1 as [|x l1 IH]; intros [|y l2] Heq; try done.
  rewrite !fmap_cons in Heq. injection Heq as Hxy Hl.
  f_equal; [by apply Hf | by apply IH].
Qed.

Lemma round_dict_inj r1 r2 : round_dict r1 = round_dict r2 → r1 = r2.
Proof.
  destruct r1 as [n1 cs1], r2 as [n2 cs2]. unfold round_dict. simpl.
  intros Heq. injection Heq as Hn Hcs.
  apply (fmap_inj_list _ _ _ contribution_dict_inj) in Hcs. congruence.
Qed.

Lemma discussion_dict_inj d1 d2 : discussion_dict d1 = discussion_dict d2 → d1 = d2.
Proof.
  destruct d1 as [q1 rs1 s1], d2 as [q2 rs2 s2]. unfold discussion_dict. simpl.
  intros Heq. injection Heq as Hq Hrs Hs.
  apply (fmap_inj_list _ _ _ round_dict_inj) in Hrs.
  destruct s1, s2; try discriminate; congruence.
Qed.

(** A record of well-formed strings is read back as it is. *)
Lemma as_read_contribution_well_formed c :
  contribution_well_formed c = true →
  as_read (contribution_dict c) = contribution_dict c.
Proof.
  unfold contribution_well_formed.
  intros [[Hp Hm]%andb_true_iff Ht]%andb_true_iff.
  rewrite as_read_contribution_dict. unfold contribution_dict.
  by rewrite !read_back_well_formed.
Qed.

Lemma as_read_round_well_formed r :
  forallb contribution_well_formed (Round.contributions r) = true →
  as_read (round_dict r) = round_dict r.
Proof.
  intros Hall. rewrite as_read_round_dict. unfold round_dict.
  assert (as_read <$> (contribution_dict <$> Round.contributions r)
          = contribution_dict <$> Round.contributions r) as ->; [|done].
  rewrite <-list_fmap_compose. apply list_fmap_ext.
  intros i c Hc. apply as_read_contribution_well_formed.
  rewrite forallb_forall in Hall. apply Hall, list_elem_of_In.
  by eapply list_elem_of_lookup_2.
Qed.

Lemma as_read_discussion_well_formed d :
  record_well_formed d = true → as_read (discussion_dict d) = discussion_dict d.
Proof.
  unfold record_well_formed.
  intros [[Hq Hrs]%andb_true_iff Hs]%andb_true_iff.
  rewrite as_read_discussion_dict. unfold discussion_dict.
  rewrite (read_back_well_formed _ Hq).
  assert (as_read <$> (round_dict <$> Discussion.rounds d)
          = round_dict <$> Discussion.rounds d) as ->.
  { rewrite <-list_fmap_compose. apply list_fmap_ext.
    intros i r Hr. apply as_read_round_well_formed.
    rewrite forallb_forall in Hrs. apply Hrs, list_elem_of_In.
    by eapply list_elem_of_lookup_2. }
  destruct (Discussion.final_summary d) as [summary|]; [|done].
  by rewrite (read_back_well_formed _ Hs).
Qed.

Lemma dumps_discussion_inj d1 d2 :
  record_well_formed d1 = true → record_well_formed d2 = true →
  dumps (discussion_dict d1) = dumps (discussion_dict d2) → d1 = d2.
Proof.
  intros Hd1 Hd2 Heq. apply discussion_dict_inj.
  pose proof (loads_dumps _ (discussion_dict_plain d1)) as H1.
  pose proof (loads_dumps _ (discussion_dict_plain d2)) as H2.
  rewrite as_read_discussion_well_formed in H1, H2 by done.
  rewrite Heq in H1. congruence.
Qed.

Lemma export_json_dumps d :
  export_discussion d "json" = Return (dumps (discussion_dict d)).
Proof. reflexivity. Qed.

(** X22.  The json export loses nothing of a record of well-formed strings,
    strings in which no high surrogate is directly followed by a low
    surrogate: two such records that differ in the question, in a round
    number, in a label, a model or a text of a contribution, or in the
    summary, have different json exports. *)
Theorem json_export_tells_records_apart (d1 d2 : Discussion.t) :
  record_well_formed d1 = true → record_well_formed d2 = true →
  d1 ≠ d2 → export_discussion d1 "json" ≠ export_discussion d2 "json".
Proof.
  intros Hd1 Hd2 Hne Heq. apply Hne, dumps_discussion_inj; [done..|].
  rewrite !export_json_dumps in Heq. congruence.
Qed.

Lemma json_export_tells_records_apart_witness :
  record_well_formed record_unicode = true ∧
  record_well_formed record_unicode_other = true ∧
  record_unicode ≠ record_unicode_other ∧
  export_discussion record_unicode "json"
  ≠ export_discussion record_unicode_other "json".
Proof.
  assert (record_unicode ≠ record_unicode_other) as Hne.
  { intros Heq. apply (f_equal Discussion.final_summary) in Heq.
    vm_compute in Heq. discriminate. }
  split_and!; [vm_compute; reflexivity | vm_compute; reflexivity | exact Hne |].
  apply json_export_tells_records_apart;
    [vm_compute; reflexivity | vm_compute; reflexivity | exact Hne].
Defined.

(** X23.  A summary that is the empty string is left out of the markdown and
    of the text export, which are then those of the record without a
    summary; the json export keeps the two records apart. *)
Theorem empty_summary_left_out (question : string) (rounds : list Round.t) :
  _export_markdown (Discussion.mk question rounds (Some ""))
  = _export_markdown (Discussion.mk question rounds None) ∧
  _export_text (Discussion.mk question rounds (Some ""))
  = _export_text (Discussion.mk question rounds None) ∧
  export_discussion (Discussion.mk question rounds (Some "")) "json"
  ≠ export_discussion (Discussion.mk question rounds None) "json".
Proof.
  split_and!; [done|done|].
  intros Heq. rewrite !export_json_dumps in Heq.
  assert (dumps (discussion_dict (Discussion.mk question rounds (Some "")))
          = dumps (discussion_dict (Discussion.mk question rounds None))) as Hd
    by congruence.
  pose proof (loads_dumps _ (discussion_dict_plain
                               (Discussion.mk question rounds (Some "")))) as H1.
  pose proof (loads_dumps _ (discussion_dict_plain
                               (Discussion.mk question rounds None))) as H2.
  rewrite Hd, H2, !as_read_discussion_dict in H1. discriminate H1.
Qed.

(** X24.  A summary that is not the empty string is shown by both exports:
    the markdown export contains the heading "## Final Summary" and the
    summary, the text export the line "FINAL SUMMARY:" and the summary. *)
Theorem summary_shown (d : Discussion.t) (summary : string) :
  Discussion.final_summary d = Some summary → summary ≠ "" →
  occurs_in "## Final Summary" (_export_markdown d) ∧
  occurs_in summary (_export_markdown d) ∧
  occurs_in "FINAL SUMMARY:" (_export_text d) ∧
  occurs_in summary (_export_text d).
Proof.
  intros Hsum Hne.
  assert (truthy (Discussion.final_summary d) = true) as Htruthy.
  { rewrite Hsum. by destruct summary. }
  destruct (export_markdown_lines d) as (tail1 & -> & ->).
  destruct (export_text_lines d) as (tail2 & -> & ->).
  rewrite Htruthy, Hsum. simpl default.
  split_and!.
  - eapply occurs_in_join; [apply elem_of_app; right; by left|].
    apply occurs_in_app_r, occurs_in_app_l, occurs_in_refl.
  - eapply occurs_in_join; [apply elem_of_app; right; right; by left|].
    apply occurs_in_app_l, occurs_in_refl.
  - eapply occurs_in_join; [apply elem_of_app; right; right; by left|].
    apply occurs_in_refl.
  - eapply occurs_in_join; [apply elem_of_app; right; do 3 right; by left|].
    apply occurs_in_app_l, occurs_in_refl.
Qed.

Lemma summary_shown_witness :
  occurs_in "## Final Summary"
    (_export_markdown (Discussion.mk "Why?" [] (Some "Because."))) ∧
  occurs_in "Because." (_export_markdown (Discussion.mk "Why?" [] (Some "Because."))) ∧
  occurs_in "FINAL SUMMARY:" (_export_text (Discussion.mk "Why?" [] (Some "Because."))) ∧
  occurs_in "Because." (_export_text (Discussion.mk "Why?" [] (Some "Because."))).
Proof.
  apply (summary_shown (Discussion.mk "Why?" [] (Some "Because.")) "Because.");
    [reflexivity | discriminate].
Defined.

(** ** The tools *)

(** X25.  The available tools are some of the web search, the Wikipedia and
    the arXiv tool, in this order and each at most once: the web search when
    TAVILY_API_KEY is set to a non-empty string and the tavily library is
    installed, the two others when their library is installed. *)
Theorem available_tools_names (env : environ) (libs : Libraries.t) :
  let names := Tool.name <$> get_available_tools env libs in
  NoDup names ∧
  names `sublist_of` ["tavily_search"; "wikipedia_search"; "arxiv_search"] ∧
  ("tavily_search" ∈ names ↔
     truthy (getenv env "TAVILY_API_KEY") = true ∧
     Libraries.TavilyClient libs = true) ∧
  ("wikipedia_search" ∈ names ↔ Libraries.wikipedia libs = true) ∧
  ("arxiv_search" ∈ names ↔ Libraries.arxiv libs = true).
Proof.
  unfold get_available_tools, _create_tavily_tool, _create_wikipedia_tool,
    _create_arxiv_tool.
  destruct libs as [wikipedia arxiv tavily].
  cbn [Libraries.wikipedia Libraries.arxiv Libraries.TavilyClient].
  destruct (truthy (getenv env "TAVILY_API_KEY")), wikipedia, arxiv, tavily;
    cbn [negb orb app fmap list_fmap Tool.name];
    split_and!;
    first [ by apply (bool_decide_unpack _)
          | repeat first [apply sublist_nil | apply sublist_skip | apply sublist_cons] ].
Qed.

Lemma available_tools_none (env : environ) (libs : Libraries.t) :
  Libraries.wikipedia libs = false → Libraries.arxiv libs = false →
  Libraries.TavilyClient libs = false ∨ truthy (getenv env "TAVILY_API_KEY") = false →
  get_available_tools env libs = [].
Proof.
  unfold get_available_tools, _create_tavily_tool, _create_wikipedia_tool,
    _create_arxiv_tool.
  intros -> -> [-> | ->]; [|done].
  by destruct (truthy _).
Qed.

Lemma init_tools (env : environ) (available_tools : option (list Tool.t))
    (max_rounds : Z) (temperature : float) (moderator_enabled tools_enabled : bool)
    (log : list Call.t) (self : Roundtable.t) (log' : list Call.t) :
  __init__ env available_tools max_rounds temperature moderator_enabled
    tools_enabled log = (Return self, log') →
  Roundtable.tools self = (if tools_enabled then available_tools else None).
Proof.
  rewrite init_unfold. intros Hinit.
  destruct (if moderator_enabled then _ else _); [|done].
  destruct (participant_of env temperature <$> get_participant_models env);
    [done|].
  by simplify_eq.
Qed.

(** X26.  An orchestrator built with the tools enabled while none is
    available, neither wikipedia nor arxiv being installed and the tavily
    library or its key missing, gives its participants the fixed instruction
    alone as system message, as with the tools disabled. *)
Theorem enabled_without_tools (env tools_env : environ) (libs : Libraries.t)
    (max_rounds : Z) (temperature : float) (moderator_enabled : bool)
    (log : list Call.t) (self : Roundtable.t) (log' : list Call.t) :
  __init__ env (Some (get_available_tools tools_env libs)) max_rounds temperature
    moderator_enabled true log = (Return self, log') →
  Libraries.wikipedia libs = false → Libraries.arxiv libs = false →
  Libraries.TavilyClient libs = false ∨
    truthy (getenv tools_env "TAVILY_API_KEY") = false →
  ∀ question round_num context,
    ∃ user,
      _create_participant_prompt self question round_num context
      = [SystemMessage system_msg_base; HumanMessage user].
Proof.
  intros Hinit%init_tools Hw Ha Ht question round_num context.
  rewrite (available_tools_none _ _ Hw Ha Ht) in Hinit.
  unfold _create_participant_prompt. rewrite Hinit. by eexists.
Qed.

Lemma enabled_without_tools_witness :
  ∃ self log',
    __init__ env_two (Some (get_available_tools env_two (Libraries.mk false false true)))
      2 0.5%float false true [] = (Return self, log') ∧
    ∀ question round_num context,
      ∃ user,
        _create_participant_prompt self question round_num context
        = [SystemMessage system_msg_base; HumanMessage user].
Proof.
  do 2 eexists. split; [vm_compute; reflexivity|].
  eapply (enabled_without_tools env_two env_two (Libraries.mk false false true)
            2 0.5%float false []).
  - vm_compute; reflexivity.
  - reflexivity.
  - reflexivity.
  - right. vm_compute; reflexivity.
Defined.

(** X27.  An orchestrator built with the tools enabled names every
    available tool to its participants: the line "- name: description" of
    each of them occurs in the system message of every prompt. *)
Theorem available_tools_advertised (env tools_env : environ) (libs : Libraries.t)
    (max_rounds : Z) (temperature : float) (moderator_enabled : bool)
    (log : list Call.t) (self : Roundtable.t) (log' : list Call.t) :
  __init__ env (Some (get_available_tools tools_env libs)) max_rounds temperature
    moderator_enabled true log = (Return self, log') →
  ∀ question round_num context,
    ∃ system user,
      _create_participant_prompt self question round_num context
      = [SystemMessage system; HumanMessage user] ∧
      ∀ tool, tool ∈ get_available_tools tools_env libs →
        occurs_in (tool_line tool) system.
Proof.
  intros Hinit%init_tools question round_num context.
  unfold _create_participant_prompt. rewrite Hinit.
  destruct (get_available_tools tools_env libs) as [|tool tools];
    eexists _, _; (split; [reflexivity|]).
  - by intros tool ?%not_elem_of_nil.
  - intros tool' Hin. apply occurs_in_app_r. by apply tools_desc_lists.
Qed.

Lemma available_tools_advertised_witness :
  ∃ self log',
    __init__ env_two (Some (get_available_tools env_two (Libraries.mk true true false)))
      2 0.5%float false true [] = (Return self, log') ∧
    ∀ question round_num context,
      ∃ system user,
        _create_participant_prompt self question round_num context
        = [SystemMessage system; HumanMessage user] ∧
        ∀ tool, tool ∈ get_available_tools env_two (Libraries.mk true true false) →
          occurs_in (tool_line tool) system.
Proof.
  do 2 eexists. split; [vm_compute; reflexivity|].
  eapply (available_tools_advertised env_two env_two (Libraries.mk true true false)
            2 0.5%float false []).
  vm_compute; reflexivity.
Defined.
